(** * systemctl-types.c: owned strings, sequences and sorted dictionaries

    A shallow embedding of the container toolkit of [systemctl-types.c].

    - A [str_t] ([char*]) is [None] for the NULL pointer and [Some l] for a
      pointer to a buffer holding the bytes [l] followed by the terminator;
      the bytes of a string hold no terminator themselves.
    - A list or dictionary is the sequence of its [data] array; its [size]
      field is the length of that sequence (a NULL [data] is the empty array).
    - Integers ([ssize_t], [int]) are in [Z].  The code only halves
      differences of indexes, steps an index by one and adds a length to a
      negative index, so for arguments in the range of [ssize_t] no
      operation wraps around.
    - What C leaves undefined (an access outside an array, a NULL pointer
      that is dereferenced, a byte read before it was written, an object used
      after [free]) is the outcome [Undefined]; loops run on fuel and a loop
      that is cut short is the outcome [OutOfFuel]. *)

From Stdlib Require Import ZArith List Lia Bool.
From Stdlib Require Import Sorting.Sorted.
From Stdlib Require Import Strings.Byte.
From Stdlib Require Strings.String.
Import ListNotations.
Import String.StringSyntax.
Delimit Scope string_scope with string.

Local Open Scope Z_scope.

(** ** Outcomes *)

Inductive outcome (A : Type) : Type :=
| Ret (a : A)
| Undefined
| OutOfFuel.

Arguments Ret {A} a.
Arguments Undefined {A}.
Arguments OutOfFuel {A}.

Definition bind {A B : Type} (m : outcome A) (k : A -> outcome B) : outcome B :=
  match m with
  | Ret a => k a
  | Undefined => Undefined
  | OutOfFuel => OutOfFuel
  end.

Notation "x <- m ;; k" := (bind m (fun x => k))
  (at level 61, m at next level, right associativity).

(** ** Strings *)

Definition str_t : Type := option (list byte).

(** A string literal of the C source. *)
Definition lit (s : String.string) : list byte := String.list_byte_of_string s.

(** A byte read as [unsigned char]. *)
Definition uchar (c : byte) : Z := Z.of_N (Byte.to_N c).

Definition str_len (str1 : str_t) : Z :=
  match str1 with
  | None => 0
  | Some l => Z.of_nat (length l)
  end.

Definition str_dup (str1 : str_t) : str_t :=
  match str1 with
  | None => None
  | Some l => Some l
  end.

(** [strcmp] of the C library: the two buffers are read in step up to the
    first difference or the terminator.  The C standard fixes the sign of
    the result, the sign of the difference of the two bytes read last as
    [unsigned char]; this function returns that difference, as many
    libraries do.  The end of a list is where the terminator is. *)
Fixpoint strcmp (s1 s2 : list byte) : Z :=
  match s1, s2 with
  | [], [] => 0
  | [], c2 :: _ => 0 - uchar c2
  | c1 :: _, [] => uchar c1 - 0
  | c1 :: r1, c2 :: r2 =>
      if uchar c1 =? uchar c2
      then (if uchar c1 =? 0 then 0 else strcmp r1 r2)
      else uchar c1 - uchar c2
  end.

Definition is_null (s : str_t) : bool :=
  match s with None => true | Some _ => false end.

Definition str_cmp (str1 str2 : str_t) : Z :=
  if is_null str1 || is_null str2 then
    if negb (is_null str1) && is_null str2 then -1
    else if is_null str1 && negb (is_null str2) then 1
    else 0
  else
    match str1, str2 with
    | Some s1, Some s2 => strcmp s1 s2
    | _, _ => 0
    end.

Definition str_equal (str1 str2 : str_t) : bool :=
  str_cmp str1 str2 =? 0.

(** What the C standard fixes of [strcmp]: the sign of its result, which is
    the sign of the difference of the first two bytes that differ, read as
    [unsigned char].  The function [strcmp] above is one such function. *)
Definition strcmp_conforms (libc_strcmp : list byte -> list byte -> Z) : Prop :=
  forall s1 s2, Z.sgn (libc_strcmp s1 s2) = Z.sgn (strcmp s1 s2).

(** [str_cmp] with the [strcmp] of the C library it is linked with. *)
Definition str_cmp_with (libc_strcmp : list byte -> list byte -> Z)
    (str1 str2 : str_t) : Z :=
  if is_null str1 || is_null str2 then
    if negb (is_null str1) && is_null str2 then -1
    else if is_null str1 && negb (is_null str2) then 1
    else 0
  else
    match str1, str2 with
    | Some s1, Some s2 => libc_strcmp s1 s2
    | _, _ => 0
    end.

(** ** Containers *)

Definition str_list_t : Type := list str_t.

Record dict_entry (V : Type) : Type := { key : str_t; value : V }.

Arguments key {V} _.
Arguments value {V} _.

(** [void*], with what the memory holds for it when a call gets it: NULL;
    the start of a block that [malloc] returned and that nobody released;
    or any other address (an object that is static or automatic, the inside
    of a block, a block released before).  [text] is the string that stands
    at the address, when one does. *)
Inductive ptr_t : Type :=
| Null
| Block (addr : Z) (text : option (list byte))
| Other (addr : Z) (text : option (list byte)).

(** An address written as a number is the block that [malloc] returned
    there, holding no string; [0] is NULL. *)
Definition block_at (addr : Z) : ptr_t :=
  if addr =? 0 then Null else Block addr None.

Coercion block_at : Z >-> ptr_t.

Definition ptr_dict_entry_t : Type := dict_entry ptr_t.
Definition ptr_dict_t : Type := list ptr_dict_entry_t.

Definition ptr_list_t : Type := list ptr_t.
Definition ptr_list_dict_entry_t : Type := dict_entry ptr_list_t.
Definition ptr_list_dict_t : Type := list ptr_list_dict_entry_t.

Definition str_dict_entry_t : Type := dict_entry str_t.
Definition str_dict_t : Type := list str_dict_entry_t.

Definition str_list_dict_entry_t : Type := dict_entry str_list_t.
Definition str_list_dict_t : Type := list str_list_dict_entry_t.

Definition str_list_dict_dict_entry_t : Type := dict_entry str_list_dict_t.
Definition str_list_dict_dict_t : Type := list str_list_dict_dict_entry_t.

Definition str_list_NULL : str_list_t := [].
Definition str_dict_NULL : str_dict_t := [].
Definition str_list_dict_NULL : str_list_dict_t := [].
Definition str_list_dict_dict_NULL : str_list_dict_dict_t := [].

(** [self->size] *)
Definition size {A : Type} (self : list A) : Z := Z.of_nat (length self).

(** [self->data[i]]; outside the array there is nothing to read. *)
Definition data_at {A : Type} (self : list A) (i : Z) : option A :=
  if i <? 0 then None else nth_error self (Z.to_nat i).

(** The keys of a dictionary, in the order of its array. *)
Definition keys {V : Type} (self : list (dict_entry V)) : list str_t :=
  map key self.

(** ** The binary search

    [ptr_dict_find], [ptr_list_dict_find], [ptr_dict_find_pos] and
    [ptr_list_dict_find_pos] run the same loop over the fields [size] and
    [data[c].key], which all entry types have in the same place (the typed
    dictionaries are cast to [ptr_dict_t] and [ptr_list_dict_t]).  They
    differ in what they return where the loop stops: at an equal key, below
    the key at [c], or above it. *)

Inductive verdict : Type :=
| Equal (c : Z)
| Lower (c : Z)
| Bigger (c : Z).

Section BinarySearch.
Context {V : Type}.

Fixpoint binary_search (fuel : nat) (self : list (dict_entry V))
    (k : str_t) (a e c : Z) : outcome verdict :=
  match fuel with
  | O => OutOfFuel
  | S fuel' =>
      match data_at self c with
      | None => Undefined
      | Some ent =>
          let comp := str_cmp k (key ent) in
          if comp =? 0 then Ret (Equal c)
          else if comp <? 0 then
            let b := a + (c - a) ÷ 2 in
            let b := if b =? c then b - 1 else b in
            if b <? a then Ret (Lower c)
            else binary_search fuel' self k a c b
          else
            let d := c + (e - c) ÷ 2 in
            let d := if d =? c then d + 1 else d in
            if d >=? e then Ret (Bigger c)
            else binary_search fuel' self k c e d
      end
  end.

(** Every turn of the loop lowers [2 * (e - a)], or keeps it and moves [c]
    off [a]; this many turns are never used up. *)
Definition search_fuel (self : list (dict_entry V)) : nat :=
  S (2 * length self).

Definition dict_find (self : list (dict_entry V)) (k : str_t) : outcome Z :=
  if size self =? 0 then Ret (-1)
  else
    v <- binary_search (search_fuel self) self k 0 (size self) (size self ÷ 2) ;;
    match v with
    | Equal c => Ret c
    | Lower _ => Ret (-1)
    | Bigger _ => Ret (-1)
    end.

Definition dict_find_pos (self : list (dict_entry V)) (k : str_t) : outcome Z :=
  if size self =? 0 then Ret 0
  else
    v <- binary_search (search_fuel self) self k 0 (size self) (size self ÷ 2) ;;
    match v with
    | Equal c => Ret c
    | Lower c => Ret c
    | Bigger c => Ret (c + 1)
    end.
End BinarySearch.

Definition ptr_dict_find (self : ptr_dict_t) (k : str_t) : outcome Z :=
  dict_find self k.
Definition ptr_list_dict_find (self : ptr_list_dict_t) (k : str_t) : outcome Z :=
  dict_find self k.
Definition ptr_dict_find_pos (self : ptr_dict_t) (k : str_t) : outcome Z :=
  dict_find_pos self k.
Definition ptr_list_dict_find_pos (self : ptr_list_dict_t) (k : str_t) : outcome Z :=
  dict_find_pos self k.

(** The typed dictionaries are searched through a cast that keeps [size]
    and the keys. *)
Definition str_dict_find (self : str_dict_t) (k : str_t) : outcome Z :=
  dict_find self k.
Definition str_dict_find_pos (self : str_dict_t) (k : str_t) : outcome Z :=
  dict_find_pos self k.
Definition str_list_dict_find (self : str_list_dict_t) (k : str_t) : outcome Z :=
  dict_find self k.
Definition str_list_dict_dict_find (self : str_list_dict_dict_t) (k : str_t)
  : outcome Z := dict_find self k.
Definition str_list_dict_find_pos (self : str_list_dict_t) (k : str_t)
  : outcome Z := dict_find_pos self k.
Definition str_list_dict_dict_find_pos (self : str_list_dict_dict_t) (k : str_t)
  : outcome Z := dict_find_pos self k.

(** ** Lookup by linear scan *)

Section Get.
Context {V : Type}.

(** The loop of [str_dict_get], [str_list_dict_get],
    [str_list_dict_dict_get] and [ptr_dict_get]: the first entry whose key
    compares equal. *)
Fixpoint dict_get (self : list (dict_entry V)) (k : str_t) : option V :=
  match self with
  | [] => None
  | ent :: rest =>
      if str_cmp (key ent) k =? 0 then Some (value ent)
      else dict_get rest k
  end.
End Get.

Definition str_list_dict_get (self : str_list_dict_t) (k : str_t)
  : option str_list_t := dict_get self k.
Definition str_list_dict_dict_get (self : str_list_dict_dict_t) (k : str_t)
  : option str_list_dict_t := dict_get self k.

(** [str_list_find]: the index of the first element that compares equal. *)
Fixpoint str_list_find_from (i : Z) (self : str_list_t) (k : str_t) : Z :=
  match self with
  | [] => -1
  | s :: rest =>
      if str_cmp s k =? 0 then i else str_list_find_from (i + 1) rest k
  end.

Definition str_list_find (self : str_list_t) (k : str_t) : Z :=
  str_list_find_from 0 self k.

(** ** Objects and their lifetime *)

(** The object behind a pointer that a callee may release: its fields, or
    nothing once [free] was called on it. *)
Inductive object (A : Type) : Type :=
| Live (fields : A)
| Freed.

Arguments Live {A} fields.
Arguments Freed {A}.

(** ** Release *)

(** [str_free], [str_list_free] and [str_list_dict_free]:
    [if (self) { ..; free (self); }].  A string, a list or a dictionary of
    the toolkit that is not NULL is a block of [malloc]; what is left behind
    the pointer is nothing for NULL and a released block otherwise. *)
Definition str_free (self : str_t) : option (object (list byte)) :=
  match self with
  | Some _ => Some Freed
  | None => None
  end.

Definition str_list_free (self : option str_list_t)
  : option (object str_list_t) :=
  match self with
  | Some _ => Some Freed
  | None => None
  end.

Definition str_list_dict_free (self : option str_list_dict_t)
  : option (object str_list_dict_t) :=
  match self with
  | Some _ => Some Freed
  | None => None
  end.

(** [free] of the C library on a [void*]: nothing happens for NULL, a block
    of [malloc] is released, and any other address is not allowed. *)
Definition free (p : ptr_t) : outcome (option (object ptr_t)) :=
  match p with
  | Null => Ret None
  | Block _ _ => Ret (Some Freed)
  | Other _ _ => Undefined
  end.

(** [str_free] called with a [void*], as [ptr_dict_adds] calls it:
    [if (self) free (self);]. *)
Definition ptr_free (self : ptr_t) : outcome (option (object ptr_t)) :=
  match self with
  | Null => Ret None
  | _ => free self
  end.

(** A pointer that a call stored or left alone: the block behind it is as
    it was. *)
Definition kept {A : Type} (value : option A) : option (object A) :=
  match value with
  | Some fields => Some (Live fields)
  | None => None
  end.

(** ** Sets *)

Definition str_sets (self : str_t) (from : str_t) : str_t :=
  match from with
  | None => self
  | Some _ => from
  end.

(** [str_dict_sets (self, from)] clears [self], moves the array of [from]
    into it and ends with [free(from)].  The result is the new [self] and
    what is left behind the pointer [from] (nothing for a NULL pointer). *)
Definition str_dict_sets (self : str_dict_t) (from : option str_dict_t)
  : str_dict_t * option (object str_dict_t) :=
  let self := str_dict_NULL in
  match from with
  | Some f => (f, Some Freed)
  | None => (self, None)
  end.

Definition str_list_dict_sets (self : str_list_dict_t)
    (from : option str_list_dict_t)
  : str_list_dict_t * option (object str_list_dict_t) :=
  let self := str_list_dict_NULL in
  match from with
  | Some f => (f, Some Freed)
  | None => (self, None)
  end.

(** ** Add *)

Definition str_list_adds (self : str_list_t) (v : str_t) : str_list_t :=
  self ++ [v].

Definition str_list_add (self : str_list_t) (v : str_t) : str_list_t :=
  str_list_adds self (str_dup v).

Definition str_list_adds_all (self : str_list_t) (v : option str_list_t)
  : str_list_t :=
  match v with
  | None => self
  | Some l => if size l =? 0 then self else self ++ l
  end.

Definition str_list_dup (self : option str_list_t) : option str_list_t :=
  match self with
  | None => None
  | Some l => Some (map str_dup l)
  end.

Definition str_list_dict_dup (self : option str_list_dict_t)
  : option str_list_dict_t :=
  match self with
  | None => None
  | Some d =>
      Some (map (fun ent =>
                   {| key := str_dup (key ent);
                      value := map str_dup (value ent) |}) d)
  end.

Section Insert.
Context {V : Type}.

(** The array grown by one slot ([realloc], or a new array in
    [ptr_dict_adds]), the entries from [pos] on moved up by one and the
    new entry stored at [pos].  A [pos] outside [0 .. size] reads or
    writes outside the array. *)
Definition insert_at (self : list (dict_entry V)) (pos : Z)
    (ent : dict_entry V) : outcome (list (dict_entry V)) :=
  if (0 <=? pos) && (pos <=? size self)
  then Ret (firstn (Z.to_nat pos) self ++ ent :: skipn (Z.to_nat pos) self)
  else Undefined.

(** [self->data[pos].value] replaced by [f] of it. *)
Definition update_at (self : list (dict_entry V)) (pos : Z) (f : V -> V)
  : outcome (list (dict_entry V)) :=
  match data_at self pos with
  | Some ent =>
      Ret (firstn (Z.to_nat pos) self
             ++ {| key := key ent; value := f (value ent) |}
             :: skipn (S (Z.to_nat pos)) self)
  | None => Undefined
  end.

(** [pos < self->size && str_equal(self->data[pos].key, key)] *)
Definition key_found (self : list (dict_entry V)) (pos : Z) (k : str_t)
  : outcome bool :=
  if pos <? size self then
    match data_at self pos with
    | Some ent => Ret (str_equal (key ent) k)
    | None => Undefined
    end
  else Ret false.
End Insert.

Definition str_dict_adds (self : str_dict_t) (k : str_t) (v : str_t)
  : outcome str_dict_t :=
  if is_null k then Ret self
  else
    pos <- str_dict_find_pos self k ;;
    found <- key_found self pos k ;;
    if found then update_at self pos (fun old => str_sets old v)
    else insert_at self pos {| key := str_dup k; value := v |}.

Definition str_dict_add (self : str_dict_t) (k : str_t) (v : str_t)
  : outcome str_dict_t :=
  str_dict_adds self k (str_dup v).

(** The pointer [value] may be NULL; the insertion reads [value->size].
    The comparisons with the neighbours that follow the insertion only
    write to the log. *)
Definition str_list_dict_adds (self : str_list_dict_t) (k : str_t)
    (v : option str_list_t) : outcome str_list_dict_t :=
  if is_null k then Ret self
  else
    pos <- str_list_dict_find_pos self k ;;
    found <- key_found self pos k ;;
    if found then update_at self pos (fun old => str_list_adds_all old v)
    else
      match v with
      | Some l => insert_at self pos {| key := str_dup k; value := l |}
      | None => Undefined
      end.

Definition str_list_dict_add (self : str_list_dict_t) (k : str_t)
    (v : option str_list_t) : outcome str_list_dict_t :=
  str_list_dict_adds self k (str_list_dup v).

Definition str_list_dict_adds1 (self : str_list_dict_t) (k : str_t) (v : str_t)
  : outcome str_list_dict_t :=
  str_list_dict_adds self k (Some [v]).

Definition str_list_dict_add1 (self : str_list_dict_t) (k : str_t) (v : str_t)
  : outcome str_list_dict_t :=
  str_list_dict_add self k (Some [v]).

Definition str_list_dict_dict_adds (self : str_list_dict_dict_t) (k : str_t)
    (v : option str_list_dict_t) : outcome str_list_dict_dict_t :=
  if is_null k then Ret self
  else
    pos <- str_list_dict_dict_find_pos self k ;;
    found <- key_found self pos k ;;
    if found then update_at self pos (fun old => fst (str_list_dict_sets old v))
    else
      match v with
      | Some d => insert_at self pos {| key := str_dup k; value := d |}
      | None => Undefined
      end.

Definition str_list_dict_dict_add (self : str_list_dict_dict_t) (k : str_t)
    (v : option str_list_dict_t) : outcome str_list_dict_dict_t :=
  str_list_dict_dict_adds self k (str_list_dict_dup v).

(** [ptr_dict_adds] builds a new array with the new entry at [pos]; it does
    not look at the key that is at [pos].  For a NULL key it hands the value
    to [str_free], that is to [free] of the C library, not to the [free]
    function of the dictionary. *)
Definition ptr_dict_adds (self : ptr_dict_t) (k : str_t) (v : ptr_t)
  : outcome ptr_dict_t :=
  if is_null k then
    released <- ptr_free v ;;
    Ret self
  else
    pos <- ptr_dict_find_pos self k ;;
    insert_at self pos {| key := str_dup k; value := v |}.

(** [str_dup] called with a [void*], as [ptr_dict_add] calls it: [strdup]
    reads the string at the address and copies it to a new block; [copy] is
    the address that its [malloc] returned, [0] when it failed. *)
Definition ptr_dup (copy : Z) (value : ptr_t) : outcome ptr_t :=
  match value with
  | Null => Ret Null
  | Block _ (Some l) | Other _ (Some l) =>
      Ret (if copy =? 0 then Null else Block copy (Some l))
  | Block _ None | Other _ None => Undefined
  end.

Definition ptr_dict_add (copy : Z) (self : ptr_dict_t) (k : str_t) (v : ptr_t)
  : outcome ptr_dict_t :=
  dup <- ptr_dup copy v ;;
  ptr_dict_adds self k dup.

(** ** What an upsert leaves behind the pointer [value]

    The variants that take the value over get a pointer: to a string, to a
    list, to a dictionary, or a [void*].  After the call the block behind
    it is released, or it is as it was (stored in the array, or left
    alone). *)

(** [str_dict_adds]: released for a NULL key; stored otherwise, by
    [str_sets] at a key that was found and by the insertion at a new one. *)
Definition str_dict_adds_value (self : str_dict_t) (k : str_t) (v : str_t)
  : outcome (option (object (list byte))) :=
  if is_null k then Ret (str_free v)
  else
    pos <- str_dict_find_pos self k ;;
    found <- key_found self pos k ;;
    Ret (kept v).

(** [str_list_dict_adds]: released for a NULL key.  At a key that was found
    [str_list_adds_all] returns at once for a list that is NULL or empty,
    and otherwise moves the elements and releases the list; at a new key
    the array of the list is moved and the list released. *)
Definition str_list_dict_adds_value (self : str_list_dict_t) (k : str_t)
    (v : option str_list_t) : outcome (option (object str_list_t)) :=
  if is_null k then Ret (str_list_free v)
  else
    pos <- str_list_dict_find_pos self k ;;
    found <- key_found self pos k ;;
    if found then
      match v with
      | None => Ret None
      | Some l => if size l =? 0 then Ret (kept v) else Ret (str_list_free v)
      end
    else
      match v with
      | Some l => Ret (str_list_free v)
      | None => Undefined
      end.

(** [str_list_dict_dict_adds]: released for a NULL key, by
    [str_list_dict_sets] at a key that was found, and after the move of its
    array at a new key. *)
Definition str_list_dict_dict_adds_value (self : str_list_dict_dict_t)
    (k : str_t) (v : option str_list_dict_t)
  : outcome (option (object str_list_dict_t)) :=
  if is_null k then Ret (str_list_dict_free v)
  else
    pos <- str_list_dict_dict_find_pos self k ;;
    found <- key_found self pos k ;;
    if found then
      match data_at self pos with
      | Some ent => Ret (snd (str_list_dict_sets (value ent) v))
      | None => Undefined
      end
    else
      match v with
      | Some d => Ret (str_list_dict_free v)
      | None => Undefined
      end.

(** [ptr_dict_adds]: handed to [free] for a NULL key, stored otherwise. *)
Definition ptr_dict_adds_value (self : ptr_dict_t) (k : str_t) (v : ptr_t)
  : outcome (option (object ptr_t)) :=
  if is_null k then ptr_free v
  else
    pos <- ptr_dict_find_pos self k ;;
    Ret (match v with Null => None | _ => Some (Live v) end).

(** ** Del *)

(** The array without the entry at [pos]: the entries before it copied in
    place, the entries after it copied one slot down. *)
Definition remove_at {A : Type} (old : list A) (pos : Z) : list A :=
  firstn (Z.to_nat pos) old ++ skipn (Z.to_nat (pos + 1)) old.

(** [str_dict_del] moves the dictionary into the local [old] with
    [str_dict_sets (&old, self)], which releases the object [self] points
    to, and then stores the new size and array through [self]. *)
Definition str_dict_del (self : str_dict_t) (k : str_t) : outcome str_dict_t :=
  pos <- str_dict_find self k ;;
  if pos >=? 0 then
    let old := str_dict_NULL in
    let '(old, self_object) := str_dict_sets old (Some self) in
    match self_object with
    | Some (Live _) => Ret (remove_at old pos)
    | Some Freed => Undefined
    | None => Undefined
    end
  else Ret self.

(** ** Buffers

    A block from [malloc]: each byte is [None] until it is written. *)

Definition buffer : Type := list (option byte).

Definition malloc (n : Z) : buffer := repeat None (Z.to_nat n).

(** [memcpy (dst + at, src + off, n)]: both ranges must lie inside their
    blocks. *)
Definition memcpy (dst : buffer) (at_ : Z) (src : list byte) (off n : Z)
  : outcome buffer :=
  if (0 <=? at_) && (0 <=? off) && (0 <=? n)
     && (off + n <=? size src) && (at_ + n <=? size dst)
  then Ret (firstn (Z.to_nat at_) dst
              ++ map Some (firstn (Z.to_nat n) (skipn (Z.to_nat off) src))
              ++ skipn (Z.to_nat (at_ + n)) dst)
  else Undefined.

(** [buf[i] = c] *)
Definition store (buf : buffer) (i : Z) (c : byte) : outcome buffer :=
  if (0 <=? i) && (i <? size buf)
  then Ret (firstn (Z.to_nat i) buf ++ Some c :: skipn (S (Z.to_nat i)) buf)
  else Undefined.

(** The block of a string: its bytes and the terminator. *)
Definition block (l : list byte) : list byte := l ++ [x00].

(** The string a buffer holds: the bytes before the first terminator.  A
    byte that was never written, or the end of the block, comes first when
    no string was stored. *)
Fixpoint c_str (buf : buffer) : outcome (list byte) :=
  match buf with
  | [] => Undefined
  | None :: _ => Undefined
  | Some c :: rest =>
      if Byte.eqb c x00 then Ret []
      else l <- c_str rest ;; Ret (c :: l)
  end.

(** [str_cpy (into + at, str1)]: [strcpy] writes the bytes and the
    terminator. *)
Definition str_cpy (into : buffer) (at_ : Z) (str1 : str_t) : outcome buffer :=
  match str1 with
  | None => Ret into
  | Some l => memcpy into at_ (block l) 0 (size (block l))
  end.

(** ** Cut *)

Definition str_cut (self : str_t) (a b : Z) : outcome str_t :=
  match self with
  | None => Ret None
  | Some text =>
      let size := str_len self in
      let a := if a <? 0 then size + a else a in
      let b := if b <? 0 then size + b else b in
      if (a <? 0) || (b <? 0) || (a >=? size) || (b <? a)
      then Ret (str_dup (Some (lit String.EmptyString)))
      else
        let b := if b >=? size then size + 1 else b in
        let s := b - a in
        let res := malloc (s + 1) in
        res <- memcpy res 0 (block text) a s ;;
        res <- store res s x00 ;;
        l <- c_str res ;;
        Ret (Some l)
  end.

Definition STR_END : Z := 2 ^ 63 - 1.

Definition str_cut_end (self : str_t) (a : Z) : outcome str_t :=
  str_cut self a STR_END.

(** ** Split *)

(** [text[x]] *)
Definition char_at (text : str_t) (x : Z) : option byte :=
  match text with
  | None => None
  | Some l => data_at (block l) x
  end.

(** [for (; x < n; ++x) if (text[x] != delim) break;] *)
Fixpoint skip_delim (fuel : nat) (text : str_t) (delim : byte) (n x : Z)
  : outcome Z :=
  match fuel with
  | O => OutOfFuel
  | S fuel' =>
      if x <? n then
        match char_at text x with
        | None => Undefined
        | Some c =>
            if negb (Byte.eqb c delim) then Ret x
            else skip_delim fuel' text delim n (x + 1)
        end
      else Ret x
  end.

(** [for (; x < n; ++x) if (text[x] == delim) break;] *)
Fixpoint scan_token (fuel : nat) (text : str_t) (delim : byte) (n x : Z)
  : outcome Z :=
  match fuel with
  | O => OutOfFuel
  | S fuel' =>
      if x <? n then
        match char_at text x with
        | None => Undefined
        | Some c =>
            if Byte.eqb c delim then Ret x
            else scan_token fuel' text delim n (x + 1)
        end
      else Ret x
  end.

(** The outer loop of [str_split]; every turn moves [x] forward, and the
    inner loops stop at [n] at the latest. *)
Fixpoint str_split_loop (fuel : nat) (text : str_t) (delim : byte) (n x : Z)
    (res : str_list_t) : outcome str_list_t :=
  match fuel with
  | O => OutOfFuel
  | S fuel' =>
      if x <? n then
        x <- skip_delim (S (Z.to_nat (n - x))) text delim n x ;;
        if x =? n then Ret res
        else
          let a := x in
          x <- scan_token (S (Z.to_nat (n - x))) text delim n x ;;
          tok <- str_cut text a x ;;
          str_split_loop fuel' text delim n (x + 1) (str_list_adds res tok)
      else Ret res
  end.

Definition str_split (text : str_t) (delim : byte) : outcome str_list_t :=
  let res := str_list_NULL in
  let n := str_len text in
  str_split_loop (S (Z.to_nat n)) text delim n 0 res.

(** ** Join *)

(** [str_copy_str_list]: a block of the summed lengths plus one, each
    element copied behind the one before.  Nothing else writes the block. *)
Fixpoint str_copy_loop (buf : buffer) (p : Z) (from : str_list_t)
  : outcome buffer :=
  match from with
  | [] => Ret buf
  | s :: rest =>
      buf <- str_cpy buf p s ;;
      str_copy_loop buf (p + str_len s) rest
  end.

Definition str_copy_str_list (from : str_list_t) : outcome buffer :=
  let size := fold_left (fun acc s => acc + str_len s) from 0 in
  str_copy_loop (malloc (size + 1)) 0 from.

(** The loop of [str_list_join]: [x] is the number of slots of [join]
    filled so far. *)
Fixpoint str_list_join_loop (join : str_list_t) (self : str_list_t)
    (delim : str_t) : str_list_t :=
  match self with
  | [] => join
  | s :: rest =>
      if negb (is_null s) then
        let join :=
          if negb (size join =? 0) then join ++ [str_dup delim] else join in
        str_list_join_loop (join ++ [str_dup s]) rest delim
      else str_list_join_loop join rest delim
  end.

(** The result is the string that the returned block holds. *)
Definition str_list_join (self : str_list_t) (delim : str_t) : outcome str_t :=
  let join := str_list_join_loop [] self delim in
  res <- str_copy_str_list join ;;
  l <- c_str res ;;
  Ret (Some l).

(** ** Sortedness *)

(** [s1] orders strictly before [s2] under [str_cmp]. *)
Definition key_lt (s1 s2 : str_t) : Prop := str_cmp s1 s2 < 0.

(** The keys of the array are strictly ascending. *)
Definition ascending {V : Type} (self : list (dict_entry V)) : Prop :=
  Sorted key_lt (keys self).

(** No two slots of the array hold keys that compare equal. *)
Definition no_duplicates {V : Type} (self : list (dict_entry V)) : Prop :=
  forall i j ei ej,
    data_at self i = Some ei -> data_at self j = Some ej ->
    str_cmp (key ei) (key ej) = 0 -> i = j.

(** Some entry of the dictionary has a key that compares equal to [k]. *)
Definition present {V : Type} (self : list (dict_entry V)) (k : str_t) : Prop :=
  exists ent, In ent self /\ str_cmp (key ent) k = 0.

(** Where a key sorts in a sequence of keys: the index of the first key that
    is equal to it or strictly greater, the length when there is none. *)
Fixpoint insertion_index (ks : list str_t) (k : str_t) : Z :=
  match ks with
  | [] => 0
  | k' :: rest =>
      if str_cmp k' k <? 0 then 1 + insertion_index rest k else 0
  end.

(** ** Where the search stops *)

(** What the comparison of [k] with the key in slot [i] gives. *)
Definition probe {V : Type} (self : list (dict_entry V)) (k : str_t) (i : Z)
    (P : Z -> Prop) : Prop :=
  exists ent, data_at self i = Some ent /\ P (str_cmp k (key ent)).

(** The loop stops at an equal key, below the key of slot [0], or above a
    key whose right neighbour, when there is one, is above [k]. *)
Definition stops_well {V : Type} (self : list (dict_entry V)) (k : str_t)
    (v : verdict) : Prop :=
  match v with
  | Equal c => probe self k c (fun z => z = 0)
  | Lower c => c = 0 /\ probe self k 0 (fun z => z < 0)
  | Bigger c =>
      probe self k c (fun z => 0 < z)
      /\ (c + 1 = size self \/ probe self k (c + 1) (fun z => z < 0))
  end.

(** [k] sorts at index [pos]: the keys before [pos] are strictly below [k],
    the key at [pos] is not below it, the keys after [pos] are strictly
    above it. *)
Definition sorts_at {V : Type} (self : list (dict_entry V)) (k : str_t)
    (pos : Z) : Prop :=
  0 <= pos <= size self
  /\ (forall i ent, data_at self i = Some ent -> i < pos ->
        str_cmp (key ent) k < 0)
  /\ (forall i ent, data_at self i = Some ent -> i = pos ->
        0 <= str_cmp (key ent) k)
  /\ (forall i ent, data_at self i = Some ent -> pos < i ->
        0 < str_cmp (key ent) k).

(** ** Contracts of the two searches *)

(** The search for the insertion point returns the index at which [k]
    sorts. *)
Definition insertion_contract {V : Type} (self : list (dict_entry V))
    (k : str_t) (r : outcome Z) : Prop :=
  exists pos,
    r = Ret pos
    /\ pos = insertion_index (keys self) k
    /\ sorts_at self k pos
    /\ (self = [] -> pos = 0)
    /\ ((forall ent, In ent self -> str_cmp (key ent) k < 0) -> pos = size self).

(** The exact search returns the index of the one entry with an equal key,
    or [-1] when there is none, as the linear scan does. *)
Definition exact_contract {V : Type} (self : list (dict_entry V))
    (k : str_t) (r : outcome Z) : Prop :=
  exists i,
    r = Ret i
    /\ i = str_list_find (keys self) k
    /\ (present self k ->
        exists ent,
          data_at self i = Some ent /\ str_cmp (key ent) k = 0
          /\ forall j e, data_at self j = Some e -> str_cmp (key e) k = 0 -> j = i)
    /\ (~ present self k -> i = -1).

(** ** The outcome of an upsert *)

(** [self'] is [self] after the upsert of [k]: the value of the slot with
    the equal key turned into [on_found] of it, or, without such a slot, a
    new entry with the value [fresh] stored where [k] sorts. *)
Definition upserted {V : Type} (self : list (dict_entry V)) (k : str_t)
    (on_found : V -> V) (fresh : V) (self' : list (dict_entry V)) : Prop :=
  (exists pos ent,
      data_at self pos = Some ent /\ str_cmp (key ent) k = 0
      /\ self' = firstn (Z.to_nat pos) self
                   ++ {| key := key ent; value := on_found (value ent) |}
                   :: skipn (S (Z.to_nat pos)) self)
  \/ (~ present self k
      /\ exists pos,
          sorts_at self k pos
          /\ self' = firstn (Z.to_nat pos) self
                       ++ {| key := k; value := fresh |}
                       :: skipn (Z.to_nat pos) self).

(** How many entries have a key that compares equal to [k]. *)
Definition count_key {V : Type} (self : list (dict_entry V)) (k : str_t) : nat :=
  length (filter (fun ent => str_equal (key ent) k) self).

(** ** Sequences of operations *)

Inductive str_dict_op : Type :=
| Adds (k : str_t) (v : str_t)
| Add (k : str_t) (v : str_t)
| Del (k : str_t).

Definition str_dict_step (self : str_dict_t) (op : str_dict_op)
  : outcome str_dict_t :=
  match op with
  | Adds k v => str_dict_adds self k v
  | Add k v => str_dict_add self k v
  | Del k => str_dict_del self k
  end.

(** The upserts of a list dictionary, called with a list that exists. *)
Inductive str_list_dict_op : Type :=
| LAdds (k : str_t) (v : str_list_t)
| LAdd (k : str_t) (v : str_list_t).

Definition str_list_dict_step (self : str_list_dict_t) (op : str_list_dict_op)
  : outcome str_list_dict_t :=
  match op with
  | LAdds k v => str_list_dict_adds self k (Some v)
  | LAdd k v => str_list_dict_add self k (Some v)
  end.

(** The upserts of a dictionary of list dictionaries, called with a
    dictionary that exists. *)
Inductive str_list_dict_dict_op : Type :=
| DAdds (k : str_t) (v : str_list_dict_t)
| DAdd (k : str_t) (v : str_list_dict_t).

Definition str_list_dict_dict_step (self : str_list_dict_dict_t)
    (op : str_list_dict_dict_op) : outcome str_list_dict_dict_t :=
  match op with
  | DAdds k v => str_list_dict_dict_adds self k (Some v)
  | DAdd k v => str_list_dict_dict_add self k (Some v)
  end.

(** The operations applied one after the other. *)
Fixpoint run {S O : Type} (step : S -> O -> outcome S) (ops : list O) (self : S)
  : outcome S :=
  match ops with
  | [] => Ret self
  | op :: rest => self' <- step self op ;; run step rest self'
  end.

(** No slot holds a NULL key. *)
Definition keys_present {V : Type} (self : list (dict_entry V)) : Prop :=
  Forall (fun ent => key ent <> None) self.

(** ** Sample data *)

Definition db_key : str_t := Some (lit "db"%string).
Definition net_key : str_t := Some (lit "net"%string).
Definition svc_key : str_t := Some (lit "svc"%string).

Definition sample_ptr_dict : ptr_dict_t :=
  [ {| key := db_key; value := block_at 1 |};
    {| key := svc_key; value := block_at 2 |} ].

Definition a_key : str_t := Some (lit "a"%string).

Definition sample_str_dict : str_dict_t :=
  [ {| key := a_key; value := Some (lit "1"%string) |} ].

Definition sample_list_dict : str_list_dict_t :=
  [ {| key := db_key; value := [Some (lit "init"%string)] |};
    {| key := svc_key; value := [Some (lit "start"%string)] |} ].

Definition sample_dict_dict : str_list_dict_dict_t :=
  [ {| key := a_key; value := sample_list_dict |} ].

(** ** The invariant of the dictionaries *)

(** The keys are strictly ascending and none of them is NULL. *)
Definition well_kept {V : Type} (self : list (dict_entry V)) : Prop :=
  ascending self /\ keys_present self.

Definition is_upsert (op : str_dict_op) : Prop :=
  match op with
  | Del _ => False
  | _ => True
  end.

Definition one_string : str_t := Some (lit "1"%string).

Definition c_key : str_t := Some (lit "c"%string).
Definition hello : str_t := Some (lit "hello"%string).

(** ** Strings and slices *)

(** The bytes of a string: the terminator is not among them. *)
Definition is_string (l : list byte) : Prop := ~ In x00 l.

(** The bytes of [l] from index [a] up to, not including, index [b]. *)
Definition slice (l : list byte) (a b : Z) : list byte :=
  firstn (Z.to_nat (b - a)) (skipn (Z.to_nat a) l).

(** An index counted from the end when it is negative. *)
Definition from_end (n i : Z) : Z := if i <? 0 then n + i else i.

(** ** Tokens *)

(** The pieces of [s] between the delimiters: [n] delimiters give [n + 1]
    pieces, some of which may be empty. *)
Fixpoint fields (d : byte) (s : list byte) : list (list byte) :=
  match s with
  | [] => [[]]
  | c :: r =>
      if Byte.eqb c d then [] :: fields d r
      else match fields d r with
           | f :: fs => (c :: f) :: fs
           | [] => [[c]]
           end
  end.

Definition is_empty (l : list byte) : bool :=
  match l with [] => true | _ :: _ => false end.

(** The non-empty maximal runs of bytes other than the delimiter. *)
Definition tokens (d : byte) (s : list byte) : list (list byte) :=
  filter (fun f => negb (is_empty f)) (fields d s).

(** The parts in a row with the delimiter string between them. *)
Fixpoint joined (ds : list byte) (parts : list (list byte)) : list byte :=
  match parts with
  | [] => []
  | p :: rest =>
      match rest with
      | [] => p
      | _ :: _ => p ++ ds ++ joined ds rest
      end
  end.

(** The string made of the one byte [d]. *)
Definition char_string (d : byte) : list byte :=
  if Byte.eqb d x00 then [] else [d].

(** [s] does not start with the delimiter. *)
Definition no_leading (d : byte) (s : list byte) : Prop :=
  match s with
  | [] => True
  | c :: _ => c <> d
  end.

(** [s] does not end with the delimiter. *)
Fixpoint no_trailing (d : byte) (s : list byte) : Prop :=
  match s with
  | [] => True
  | c :: r =>
      match r with
      | [] => c <> d
      | _ :: _ => no_trailing d r
      end
  end.

(** No two delimiters stand side by side in [s]. *)
Fixpoint no_doubled (d : byte) (s : list byte) : Prop :=
  match s with
  | [] => True
  | c1 :: r =>
      match r with
      | [] => True
      | c2 :: _ => ~ (c1 = d /\ c2 = d)
      end /\ no_doubled d r
  end.

(** The length of the longest prefix of [l] whose bytes satisfy [p]. *)
Fixpoint run_length (p : byte -> bool) (l : list byte) : nat :=
  match l with
  | [] => 0
  | c :: r => if p c then S (run_length p r) else 0
  end.

Definition comma : byte := Eval cbv in match lit ","%string with c :: _ => c | [] => x00 end.

(** No leading, trailing or doubled delimiter. *)
Definition tidy (d : byte) (s : list byte) : Prop :=
  no_leading d s /\ no_trailing d s /\ no_doubled d s.

(** What [str_list_join] lines up for the copy: the parts, each but the
    first behind a copy of the delimiter string. *)
Fixpoint pieces (first : bool) (ds : list byte) (parts : list (list byte))
  : list (list byte) :=
  match parts with
  | [] => []
  | p :: rest => (if first then [p] else [ds; p]) ++ pieces false ds rest
  end.

(** Split at the delimiter and join with the delimiter string again. *)
Definition split_join (s : list byte) (d : byte) : outcome str_t :=
  parts <- str_split (Some s) d ;;
  str_list_join parts (Some (char_string d)).

(** * More of the toolkit *)

(** ** Lookup and membership *)

(** [str_list_get]: the first element that compares equal, NULL without
    one. *)
Fixpoint str_list_get (self : str_list_t) (k : str_t) : str_t :=
  match self with
  | [] => None
  | s :: rest => if str_cmp s k =? 0 then s else str_list_get rest k
  end.

(** [str_dict_get]: the value of the first entry whose key compares equal,
    NULL without one. *)
Definition str_dict_get (self : str_dict_t) (k : str_t) : str_t :=
  match dict_get self k with
  | Some v => v
  | None => None
  end.

(** [ptr_dict_get]: the pointer of the first entry whose key compares
    equal, NULL without one. *)
Definition ptr_dict_get (self : ptr_dict_t) (k : str_t) : ptr_t :=
  match dict_get self k with
  | Some v => v
  | None => Null
  end.

Definition str_list_contains (self : str_list_t) (k : str_t) : bool :=
  str_list_find self k >=? 0.

Definition str_dict_contains (self : str_dict_t) (k : str_t) : outcome bool :=
  pos <- str_dict_find self k ;; Ret (pos >=? 0).

Definition str_list_dict_contains (self : str_list_dict_t) (k : str_t)
  : outcome bool :=
  pos <- str_list_dict_find self k ;; Ret (pos >=? 0).

Definition str_list_dict_dict_contains (self : str_list_dict_dict_t) (k : str_t)
  : outcome bool :=
  pos <- str_list_dict_dict_find self k ;; Ret (pos >=? 0).

Definition ptr_dict_contains (self : ptr_dict_t) (k : str_t) : outcome bool :=
  pos <- ptr_dict_find self k ;; Ret (pos >=? 0).

(** ** Equality of lists *)

(** The loop of [str_list_equal] over two arrays of one size. *)
Fixpoint str_list_equal_loop (list1 list2 : str_list_t) : bool :=
  match list1, list2 with
  | s1 :: r1, s2 :: r2 =>
      if negb (str_cmp s1 s2 =? 0) then false else str_list_equal_loop r1 r2
  | _, _ => true
  end.

Definition str_list_equal (list1 list2 : str_list_t) : bool :=
  if negb (size list1 =? size list2) then false
  else str_list_equal_loop list1 list2.

(** ** Keys *)

Definition str_dict_keys (self : str_dict_t) : str_list_t :=
  map (fun ent => str_dup (key ent)) self.

Definition str_list_dict_keys (self : str_list_dict_t) : str_list_t :=
  map (fun ent => str_dup (key ent)) self.

Definition str_list_dict_dict_keys (self : str_list_dict_dict_t) : str_list_t :=
  map (fun ent => str_dup (key ent)) self.

(** ** Searching in strings *)

(** [key] stands at the start of [s]. *)
Fixpoint starts_with (s key : list byte) : bool :=
  match key, s with
  | [], _ => true
  | _ :: _, [] => false
  | k :: key', c :: s' => Byte.eqb c k && starts_with s' key'
  end.

(** [strstr] of the C library: the offset of the first place of [s] at
    which [key] stands. *)
Fixpoint strstr (s key : list byte) : option Z :=
  if starts_with s key then Some 0
  else
    match s with
    | [] => None
    | _ :: s' =>
        match strstr s' key with
        | Some i => Some (i + 1)
        | None => None
        end
    end.

(** [strchr] of the C library: the offset of the first [c] in the block of
    [s], the terminator included. *)
Fixpoint first_index (l : list byte) (c : byte) : option Z :=
  match l with
  | [] => None
  | x :: r =>
      if Byte.eqb x c then Some 0
      else match first_index r c with
           | Some i => Some (i + 1)
           | None => None
           end
  end.

Definition strchr (s : list byte) (c : byte) : option Z :=
  first_index (block s) c.



Definition str_find (self key : str_t) : Z :=
  match self with
  | None => -1
  | Some s =>
      match key with
      | None => -1
      | Some k =>
          match strstr s k with
          | None => -1
          | Some found => found
          end
      end
  end.

Definition str_startswith (self key : str_t) : bool :=
  match self with
  | None => is_null key
  | Some s =>
      match key with
      | None => false
      | Some k =>
          match strstr s k with
          | Some found => found =? 0
          | None => false
          end
      end
  end.

Definition str_endswith (self key : str_t) : bool :=
  match self with
  | None => is_null key
  | Some s =>
      match key with
      | None => false
      | Some k =>
          let key_len := str_len key in
          let buf_len := str_len self in
          if key_len >? buf_len then false
          else strcmp (skipn (Z.to_nat (buf_len - key_len)) s) k =? 0
      end
  end.

(** ** Appending to a string *)

(** [realloc]: the first [n] bytes stay, the bytes that are new were never
    written. *)
Definition realloc (buf : buffer) (n : Z) : buffer :=
  firstn (Z.to_nat n) buf ++ repeat None (Z.to_nat n - length buf).

(** [str_add]; the second component of [str_adds] is the same, the value
    is released afterwards. *)
Definition str_add (self value : str_t) : outcome str_t :=
  match value with
  | None => Ret self
  | Some v =>
      match self with
      | None => Ret (str_dup value)
      | Some s =>
          let len1 := str_len self in
          let len2 := str_len value in
          let buf := realloc (map Some (block s)) (len1 + len2 + 1) in
          buf <- memcpy buf len1 (block v) 0 (len2 + 1) ;;
          l <- c_str buf ;;
          Ret (Some l)
      end
  end.

Definition str_adds (self value : str_t) : outcome str_t :=
  match value with
  | None => Ret self
  | Some v =>
      match self with
      | None => Ret value
      | Some s =>
          let len1 := str_len self in
          let len2 := str_len value in
          let buf := realloc (map Some (block s)) (len1 + len2 + 1) in
          buf <- memcpy buf len1 (block v) 0 (len2 + 1) ;;
          l <- c_str buf ;;
          Ret (Some l)
      end
  end.

(** ** Concatenation *)

(** [str_dup4]: the string that the block filled by [str_copy_str_list]
    holds. *)
Definition str_dup4 (str1 str2 str3 str4 : str_t) : outcome str_t :=
  res <- str_copy_str_list [str1; str2; str3; str4] ;;
  l <- c_str res ;;
  Ret (Some l).

Definition str_dup3 (str1 str2 str3 : str_t) : outcome str_t :=
  str_dup4 str1 str2 str3 None.

Definition str_dup2 (str1 str2 : str_t) : outcome str_t :=
  str_dup4 str1 str2 None None.

Definition str_join2 (self from delim : str_t) : outcome str_t :=
  if is_null from then Ret (str_dup self)
  else str_dup3 self delim from.

Definition str_list3_join (str1 str2 str3 delim : str_t) : outcome str_t :=
  str_list_join [str1; str2; str3] delim.

Definition slash : byte :=
  Eval cbv in match lit "/"%string with c :: _ => c | [] => x00 end.



(** ** Cutting a list *)

(** [for (i = 0; i < s; ++i) res->data[i] = str_dup(self->data[a+i]);] with
    [n] turns to go. *)
Fixpoint str_list_cut_loop (n : nat) (self : str_list_t) (a i : Z)
    (res : str_list_t) : outcome str_list_t :=
  match n with
  | O => Ret res
  | S n' =>
      match data_at self (a + i) with
      | None => Undefined
      | Some s => str_list_cut_loop n' self a (i + 1) (res ++ [str_dup s])
      end
  end.

Definition str_list_cut (self : option str_list_t) (a b : Z)
  : outcome (option str_list_t) :=
  match self with
  | None => Ret None
  | Some l =>
      let res := str_list_NULL in
      let a := if a <? 0 then size l + a else a in
      let b := if b <? 0 then size l + b else b in
      if (a <? 0) || (b <? 0) || (a >=? size l) || (b <? a)
      then Ret (Some res)
      else
        let b := if b >=? size l then size l + 1 else b in
        let s := b - a in
        res <- str_list_cut_loop (Z.to_nat s) l a 0 res ;;
        Ret (Some res)
  end.

Definition STR_LIST_END : Z := 2 ^ 63 - 1.

Definition str_list_cut_end (self : option str_list_t) (a : Z)
  : outcome (option str_list_t) :=
  str_list_cut self a STR_LIST_END.

(** ** Strip *)

(** The bytes of [" \r\n\f"]. *)
Definition str_delim : list byte := [x20; x0d; x0a; x0c].

(** [strchr(str_delim, c)] finds something: [c] is one of the four bytes,
    or the terminator. *)
Definition in_delim (c : byte) : bool :=
  match strchr str_delim c with
  | Some _ => true
  | None => false
  end.

(** The loop of [str_lstrip] from index [i] on. *)
Fixpoint str_lstrip_loop (fuel : nat) (self : str_t) (size i : Z)
  : outcome str_t :=
  match fuel with
  | O => OutOfFuel
  | S fuel' =>
      if i <? size then
        match char_at self i with
        | None => Undefined
        | Some c =>
            if in_delim c then str_lstrip_loop fuel' self size (i + 1)
            else str_cut self i size
        end
      else Ret (str_dup (Some (lit String.EmptyString)))
  end.

Definition str_lstrip (self : str_t) : outcome str_t :=
  let size := str_len self in
  str_lstrip_loop (S (Z.to_nat size)) self size 0.

(** The loop of [str_rstrip] from index [j] down. *)
Fixpoint str_rstrip_loop (fuel : nat) (self : str_t) (j : Z) : outcome str_t :=
  match fuel with
  | O => OutOfFuel
  | S fuel' =>
      if j >=? 0 then
        match char_at self j with
        | None => Undefined
        | Some c =>
            if in_delim c then str_rstrip_loop fuel' self (j - 1)
            else str_cut self 0 (j + 1)
        end
      else Ret (str_dup (Some (lit String.EmptyString)))
  end.

Definition str_rstrip (self : str_t) : outcome str_t :=
  let size := str_len self in
  str_rstrip_loop (S (S (Z.to_nat size))) self size.

(** The inner loop of [str_strip] from index [j] down to [i]; [None] when
    it ends without a [return]. *)
Fixpoint str_strip_inner (fuel : nat) (self : str_t) (i j : Z)
  : outcome (option str_t) :=
  match fuel with
  | O => OutOfFuel
  | S fuel' =>
      if j >=? i then
        match char_at self j with
        | None => Undefined
        | Some c =>
            if in_delim c then str_strip_inner fuel' self i (j - 1)
            else r <- str_cut self i (j + 1) ;; Ret (Some r)
        end
      else Ret None
  end.

(** The outer loop of [str_strip] from index [i] on. *)
Fixpoint str_strip_loop (fuel : nat) (self : str_t) (size i : Z)
  : outcome str_t :=
  match fuel with
  | O => OutOfFuel
  | S fuel' =>
      if i <? size then
        match char_at self i with
        | None => Undefined
        | Some c =>
            if in_delim c then str_strip_loop fuel' self size (i + 1)
            else
              r <- str_strip_inner (S (S (Z.to_nat (size - i)))) self i size ;;
              match r with
              | Some res => Ret res
              | None => str_strip_loop fuel' self size (i + 1)
              end
        end
      else Ret (str_dup (Some (lit String.EmptyString)))
  end.

Definition str_strip (self : str_t) : outcome str_t :=
  let size := str_len self in
  str_strip_loop (S (Z.to_nat size)) self size 0.

(** ** What the properties speak of *)

(** The longest prefix of delimiters dropped. *)
Fixpoint ltrim (l : list byte) : list byte :=
  match l with
  | [] => []
  | c :: r => if in_delim c then ltrim r else l
  end.

(** The longest suffix of delimiters dropped. *)
Definition rtrim (l : list byte) : list byte := rev (ltrim (rev l)).

(** The elements that are not NULL. *)
Fixpoint present_parts (self : str_list_t) : list (list byte) :=
  match self with
  | [] => []
  | Some l :: rest => l :: present_parts rest
  | None :: rest => present_parts rest
  end.

(** The lists that a sequence of upserts names for the key [k], one behind
    the other. *)
Fixpoint lists_for (k : str_t) (ops : list str_list_dict_op) : str_list_t :=
  match ops with
  | [] => []
  | op :: rest =>
      match op with
      | LAdds k' v | LAdd k' v =>
          if negb (is_null k') && (str_cmp k' k =? 0) then v ++ lists_for k rest
          else lists_for k rest
      end
  end.

(** Some upsert of the sequence names a key that is not NULL and compares
    equal to [k]. *)
Fixpoint names_key (k : str_t) (ops : list str_list_dict_op) : bool :=
  match ops with
  | [] => false
  | op :: rest =>
      match op with
      | LAdds k' _ | LAdd k' _ =>
          (negb (is_null k') && (str_cmp k' k =? 0)) || names_key k rest
      end
  end.

(** The keys of the array never descend. *)
Definition weakly_ascending {V : Type} (self : list (dict_entry V)) : Prop :=
  forall i j ei ej,
    data_at self i = Some ei -> data_at self j = Some ej -> i < j ->
    str_cmp (key ei) (key ej) <= 0.

(** A pointer to a string, or NULL. *)
Definition is_str (s : str_t) : Prop :=
  match s with
  | Some l => is_string l
  | None => True
  end.

(** The bytes behind a pointer, none for NULL. *)
Definition bytes_of (s : str_t) : list byte :=
  match s with
  | Some l => l
  | None => []
  end.

(** [str_contains]: [strstr] reads both arguments. *)
Definition str_contains (self key : str_t) : outcome bool :=
  match self, key with
  | Some s, Some k =>
      Ret (match strstr s k with Some _ => true | None => false end)
  | _, _ => Undefined
  end.

Definition str_list3_contains (str1 str2 str3 key : str_t) : bool :=
  if negb (str_cmp str1 key =? 0) then true
  else if negb (str_cmp str2 key =? 0) then true
  else if negb (str_cmp str3 key =? 0) then true
  else false.

(** * Properties *)

(** ** Outcomes *)

Lemma bind_Ret {A B : Type} (m : outcome A) (k : A -> outcome B) a r :
  m = Ret a -> k a = r -> bind m k = r.
Proof. intros -> <-. reflexivity. Qed.

Lemma bind_Ret_inv {A B : Type} (m : outcome A) (k : A -> outcome B) b :
  bind m k = Ret b -> exists a, m = Ret a /\ k a = Ret b.
Proof. destruct m; simpl; intros H; try discriminate. eauto. Qed.

(** ** The order of [str_cmp] *)

Lemma uchar_range c : 0 <= uchar c <= 255.
Proof.
  unfold uchar. pose proof (Byte.to_N_bounded c). lia.
Qed.

Lemma uchar_inj c1 c2 : uchar c1 = uchar c2 -> c1 = c2.
Proof.
  unfold uchar. intros H. apply N2Z.inj in H.
  pose proof (Byte.of_to_N c1) as H1. pose proof (Byte.of_to_N c2) as H2.
  rewrite H in H1. congruence.
Qed.

Ltac split_eqb :=
  repeat match goal with
         | H : context [?a =? ?b] |- _ => destruct (Z.eqb_spec a b)
         | |- context [?a =? ?b] => destruct (Z.eqb_spec a b)
         end.

Ltac byte_ranges :=
  repeat match goal with
         | c : byte |- _ =>
             lazymatch goal with
             | _ : 0 <= uchar c <= 255 |- _ => fail
             | _ => pose proof (uchar_range c)
             end
         end.

Lemma strcmp_refl s : strcmp s s = 0.
Proof.
  induction s as [|c r IH]; simpl; split_eqb; lia.
Qed.

Lemma strcmp_antisym s1 : forall s2, strcmp s2 s1 = - strcmp s1 s2.
Proof.
  induction s1 as [|c1 r1 IH]; intros [|c2 r2]; simpl; split_eqb;
    try lia; apply IH.
Qed.

(** Two strings that compare equal compare alike with every third one. *)
Lemma strcmp_eq_compat s1 : forall s2 s3,
  strcmp s1 s2 = 0 -> strcmp s1 s3 = strcmp s2 s3.
Proof.
  induction s1 as [|c1 r1 IH]; intros [|c2 r2] [|c3 r3]; simpl; intros H;
    byte_ranges; split_eqb; try lia; now apply IH.
Qed.

Lemma strcmp_trans s1 : forall s2 s3,
  strcmp s1 s2 < 0 -> strcmp s2 s3 < 0 -> strcmp s1 s3 < 0.
Proof.
  induction s1 as [|c1 r1 IH]; intros [|c2 r2] [|c3 r3]; simpl; intros H12 H23;
    byte_ranges; split_eqb; try lia; eapply IH; eassumption.
Qed.

Lemma str_cmp_refl s : str_cmp s s = 0.
Proof.
  destruct s as [l|]; cbn; [apply strcmp_refl | reflexivity].
Qed.

Lemma str_cmp_antisym s1 s2 : str_cmp s2 s1 = - str_cmp s1 s2.
Proof.
  destruct s1 as [l1|], s2 as [l2|]; cbn; try reflexivity.
  apply strcmp_antisym.
Qed.

Lemma str_cmp_eq_compat s1 s2 s3 :
  str_cmp s1 s2 = 0 -> str_cmp s1 s3 = str_cmp s2 s3.
Proof.
  destruct s1 as [l1|], s2 as [l2|], s3 as [l3|]; cbn; intros H;
    try reflexivity; try discriminate.
  now apply strcmp_eq_compat.
Qed.

Lemma str_cmp_trans s1 s2 s3 :
  str_cmp s1 s2 < 0 -> str_cmp s2 s3 < 0 -> str_cmp s1 s3 < 0.
Proof.
  destruct s1 as [l1|], s2 as [l2|], s3 as [l3|]; cbn; intros H12 H23;
    try lia.
  eapply strcmp_trans; eassumption.
Qed.

Lemma str_cmp_eq_compat_r s1 s2 s3 :
  str_cmp s2 s3 = 0 -> str_cmp s1 s2 = str_cmp s1 s3.
Proof.
  intros H. rewrite (str_cmp_antisym s2 s1), (str_cmp_antisym s3 s1).
  f_equal. now apply str_cmp_eq_compat.
Qed.


(** ** Arrays *)

Ltac Zify.zify_post_hook ::= Z.to_euclidean_division_equations.

Lemma size_nonneg {A : Type} (l : list A) : 0 <= size l.
Proof. unfold size. lia. Qed.

Lemma size_app {A : Type} (l1 l2 : list A) : size (l1 ++ l2) = size l1 + size l2.
Proof. unfold size. rewrite length_app. lia. Qed.

Lemma size_cons {A : Type} (x : A) (l : list A) : size (x :: l) = 1 + size l.
Proof. unfold size. simpl length. lia. Qed.

Lemma data_at_Some {A : Type} (l : list A) i x :
  data_at l i = Some x -> 0 <= i < size l.
Proof.
  unfold data_at, size. destruct (Z.ltb_spec i 0) as [Hi|Hi]; [discriminate|].
  intros H. assert (Hn : nth_error l (Z.to_nat i) <> None) by congruence.
  apply nth_error_Some in Hn. lia.
Qed.

Lemma data_at_in_range {A : Type} (l : list A) i :
  0 <= i < size l -> exists x, data_at l i = Some x.
Proof.
  unfold data_at, size. intros H. destruct (Z.ltb_spec i 0) as [Hi|Hi]; [lia|].
  destruct (nth_error l (Z.to_nat i)) eqn:E; [eauto|].
  apply nth_error_None in E. lia.
Qed.

Lemma data_at_In {A : Type} (l : list A) i x : data_at l i = Some x -> In x l.
Proof.
  unfold data_at. destruct (i <? 0); [discriminate|]. apply nth_error_In.
Qed.

Lemma In_data_at {A : Type} (l : list A) x :
  In x l -> exists i, data_at l i = Some x.
Proof.
  intros H. apply In_nth_error in H as [n Hn]. exists (Z.of_nat n).
  unfold data_at. destruct (Z.ltb_spec (Z.of_nat n) 0); [lia|].
  now rewrite Nat2Z.id.
Qed.

Lemma data_at_cons {A : Type} (x : A) (l : list A) i :
  0 <= i -> data_at (x :: l) (i + 1) = data_at l i.
Proof.
  intros H. unfold data_at.
  destruct (Z.ltb_spec (i + 1) 0); [lia|]. destruct (Z.ltb_spec i 0); [lia|].
  replace (Z.to_nat (i + 1)) with (S (Z.to_nat i)) by lia. reflexivity.
Qed.

Lemma data_at_zero {A : Type} (x : A) (l : list A) : data_at (x :: l) 0 = Some x.
Proof. reflexivity. Qed.

(** ** Sorted dictionaries *)

Lemma key_lt_trans s1 s2 s3 : key_lt s1 s2 -> key_lt s2 s3 -> key_lt s1 s3.
Proof. apply str_cmp_trans. Qed.

Lemma ascending_strongly {V : Type} (self : list (dict_entry V)) :
  ascending self -> StronglySorted key_lt (keys self).
Proof.
  apply Sorted_StronglySorted. intros x y z. apply key_lt_trans.
Qed.

Lemma ascending_tail {V : Type} (ent : dict_entry V) self :
  ascending (ent :: self) -> ascending self.
Proof. unfold ascending. simpl. intros H. now inversion H. Qed.

Lemma ascending_head {V : Type} (ent : dict_entry V) self :
  ascending (ent :: self) ->
  forall ent', In ent' self -> str_cmp (key ent) (key ent') < 0.
Proof.
  intros H ent' Hin. apply ascending_strongly in H. simpl in H.
  inversion H as [|? ? _ Hall]; subst.
  rewrite Forall_forall in Hall. apply Hall. unfold keys. now apply in_map.
Qed.

Lemma ascending_index {V : Type} (self : list (dict_entry V)) :
  ascending self ->
  forall i j ei ej,
    data_at self i = Some ei -> data_at self j = Some ej -> i < j ->
    str_cmp (key ei) (key ej) < 0.
Proof.
  induction self as [|ent rest IH]; intros Hs i j ei ej Hi Hj Hlt.
  - apply data_at_Some in Hi. unfold size in Hi. simpl in Hi. lia.
  - pose proof (data_at_Some _ _ _ Hi) as Ri.
    pose proof (data_at_Some _ _ _ Hj) as Rj.
    replace j with ((j - 1) + 1) in Hj by lia.
    rewrite data_at_cons in Hj by lia.
    destruct (Z.eq_dec i 0) as [->|Hne].
    + rewrite data_at_zero in Hi. injection Hi as <-.
      eapply ascending_head; [eassumption|]. eapply data_at_In; eassumption.
    + replace i with ((i - 1) + 1) in Hi by lia.
      rewrite data_at_cons in Hi by lia.
      eapply (IH (ascending_tail _ _ Hs) (i - 1) (j - 1)); try eassumption. lia.
Qed.

Lemma ascending_no_duplicates {V : Type} (self : list (dict_entry V)) :
  ascending self -> no_duplicates self.
Proof.
  intros Hs i j ei ej Hi Hj Heq.
  destruct (Z.lt_trichotomy i j) as [Hlt|[Heq'|Hgt]]; [|assumption|].
  - pose proof (ascending_index _ Hs _ _ _ _ Hi Hj Hlt). lia.
  - pose proof (ascending_index _ Hs _ _ _ _ Hj Hi Hgt) as H.
    rewrite str_cmp_antisym in H. lia.
Qed.

Lemma ascending_NoDup {V : Type} (self : list (dict_entry V)) :
  ascending self -> NoDup (keys self).
Proof.
  intros Hs. apply ascending_strongly in Hs.
  induction Hs as [|k ks Hs IH Hall]; constructor; [|assumption].
  intros Hin. rewrite Forall_forall in Hall. specialize (Hall _ Hin).
  unfold key_lt in Hall. rewrite str_cmp_refl in Hall. lia.
Qed.

(** ** The binary search stops *)

Section SearchStops.
Context {V : Type}.
Variable self : list (dict_entry V).
Variable k : str_t.

Lemma binary_search_stops : forall fuel a e c,
  0 <= a <= c -> c < e <= size self ->
  (a = 0 \/ probe self k a (fun z => 0 < z)) ->
  (e = size self \/ probe self k e (fun z => z < 0)) ->
  2 * (e - a) + (if c =? a then 1 else 0) <= Z.of_nat fuel ->
  exists v, binary_search fuel self k a e c = Ret v /\ stops_well self k v.
Proof.
  induction fuel as [|fuel IH]; intros a e c Hac Hce Ha He Hfuel.
  - destruct (c =? a); lia.
  - destruct (data_at_in_range self c ltac:(lia)) as [ent Hent].
    cbn [binary_search]. rewrite Hent. cbv zeta.
    destruct (Z.eqb_spec (str_cmp k (key ent)) 0) as [Hz|Hnz].
    { eexists; split; [reflexivity|]. exists ent. auto. }
    destruct (Z.ltb_spec (str_cmp k (key ent)) 0) as [Hlt|Hge].
    + destruct (Z.eqb_spec (a + (c - a) ÷ 2) c) as [Hbc|Hbc].
      * assert (c = a) by lia. subst c.
        destruct (Z.ltb_spec (a + (a - a) ÷ 2 - 1) a); [|lia].
        eexists; split; [reflexivity|].
        destruct Ha as [->|(ent' & Hent' & Hpos)].
        -- split; [reflexivity|]. exists ent. auto.
        -- rewrite Hent in Hent'. injection Hent' as <-. lia.
      * destruct (Z.ltb_spec (a + (c - a) ÷ 2) a); [lia|].
        apply IH; try lia.
        -- assumption.
        -- right. exists ent. auto.
        -- destruct (a + (c - a) ÷ 2 =? a); destruct (c =? a); lia.
    + destruct (Z.eqb_spec (c + (e - c) ÷ 2) c) as [Hdc|Hdc].
      * assert (e = c + 1) by lia. subst e.
        destruct (Z.geb_spec (c + (c + 1 - c) ÷ 2 + 1) (c + 1)); [|lia].
        eexists; split; [reflexivity|]. split.
        -- exists ent. split; [assumption|lia].
        -- assumption.
      * destruct (Z.geb_spec (c + (e - c) ÷ 2) e); [lia|].
        apply IH; try lia.
        -- right. exists ent. split; [assumption|lia].
        -- assumption.
        -- destruct (Z.eqb_spec (c + (e - c) ÷ 2) c); [lia|].
           destruct (Z.eqb_spec c a); lia.
Qed.

Lemma search_starts :
  size self <> 0 ->
  exists v,
    binary_search (search_fuel self) self k 0 (size self) (size self ÷ 2) = Ret v
    /\ stops_well self k v.
Proof.
  intros Hn. pose proof (size_nonneg self).
  apply binary_search_stops; try lia; auto.
  unfold search_fuel, size in *.
  destruct (Z.of_nat (length self) ÷ 2 =? 0); lia.
Qed.
End SearchStops.

(** ** The binary search on a sorted dictionary *)

Section SearchSorted.
Context {V : Type}.
Variable self : list (dict_entry V).
Variable k : str_t.
Hypothesis Hsorted : ascending self.

Let before i j ei ej :
  data_at self i = Some ei -> data_at self j = Some ej -> i < j ->
  str_cmp (key ei) (key ej) < 0
  := ascending_index self Hsorted i j ei ej.

Lemma equal_sorts_at c :
  probe self k c (fun z => z = 0) -> sorts_at self k c.
Proof.
  intros (ec & Hc & Hz). pose proof (data_at_Some _ _ _ Hc).
  split; [lia|]. repeat split.
  - intros i ent Hi Hlt.
    rewrite (str_cmp_eq_compat_r (key ent) k (key ec) Hz). eauto.
  - intros i ent Hi ->. rewrite Hc in Hi. injection Hi as <-.
    rewrite str_cmp_antisym. lia.
  - intros i ent Hi Hlt. rewrite str_cmp_antisym.
    rewrite (str_cmp_eq_compat k (key ec) (key ent) Hz).
    pose proof (before c i ec ent Hc Hi Hlt). lia.
Qed.

Lemma lower_sorts_at :
  probe self k 0 (fun z => z < 0) -> sorts_at self k 0.
Proof.
  intros (e0 & H0 & Hz). pose proof (data_at_Some _ _ _ H0).
  split; [lia|]. repeat split.
  - intros i ent Hi Hlt. apply data_at_Some in Hi. lia.
  - intros i ent Hi ->. rewrite H0 in Hi. injection Hi as <-.
    rewrite str_cmp_antisym. lia.
  - intros i ent Hi Hlt. rewrite str_cmp_antisym.
    pose proof (before 0 i e0 ent H0 Hi Hlt).
    pose proof (str_cmp_trans k (key e0) (key ent) Hz). lia.
Qed.

Lemma bigger_sorts_at c :
  probe self k c (fun z => 0 < z) ->
  (c + 1 = size self \/ probe self k (c + 1) (fun z => z < 0)) ->
  sorts_at self k (c + 1).
Proof.
  intros (ec & Hc & Hz) Hnext. pose proof (data_at_Some _ _ _ Hc).
  assert (Hck : str_cmp (key ec) k < 0) by (rewrite str_cmp_antisym; lia).
  assert (Hafter : forall i ent, data_at self i = Some ent -> c + 1 <= i ->
                                 0 < str_cmp (key ent) k).
  { intros i ent Hi Hle. pose proof (data_at_Some _ _ _ Hi).
    destruct Hnext as [Hend|(en & Hn & Hnz)]; [lia|].
    rewrite str_cmp_antisym.
    destruct (Z.eq_dec i (c + 1)) as [->|Hne].
    - rewrite Hn in Hi. injection Hi as <-. lia.
    - pose proof (before (c + 1) i en ent Hn Hi ltac:(lia)).
      pose proof (str_cmp_trans k (key en) (key ent) Hnz). lia. }
  split; [lia|]. repeat split.
  - intros i ent Hi Hlt. destruct (Z.eq_dec i c) as [->|Hne].
    + rewrite Hc in Hi. injection Hi as <-. assumption.
    + eapply str_cmp_trans; [|exact Hck]. eapply (before i c); eauto. lia.
  - intros i ent Hi ->. specialize (Hafter _ _ Hi). lia.
  - intros i ent Hi Hlt. apply (Hafter _ _ Hi). lia.
Qed.

Lemma stops_well_sorts_at v :
  stops_well self k v ->
  sorts_at self k (match v with Equal c => c | Lower c => c | Bigger c => c + 1 end).
Proof.
  destruct v as [c|c|c]; simpl.
  - apply equal_sorts_at.
  - intros [-> H]. now apply lower_sorts_at.
  - intros [H1 H2]. now apply bigger_sorts_at.
Qed.

(** Where the search stops without an equal key, no entry has one. *)
Lemma stops_well_absent v :
  stops_well self k v ->
  match v with
  | Equal c => True
  | _ => ~ present self k
  end.
Proof.
  intros Hv. pose proof (stops_well_sorts_at v Hv) as (_ & Hlo & Hat & Hhi).
  destruct v as [c|c|c]; [exact I| |]; simpl in *;
    intros (ent & Hin & Heq); apply In_data_at in Hin as [i Hi].
  - destruct Hv as [-> (e0 & H0 & Hz)].
    destruct (Z.eq_dec i 0) as [->|Hne].
    + rewrite H0 in Hi. injection Hi as <-. rewrite str_cmp_antisym in Heq. lia.
    + pose proof (data_at_Some _ _ _ Hi). specialize (Hhi i ent Hi). lia.
  - destruct (Z.lt_trichotomy i (c + 1)) as [Hlt|[->|Hgt]].
    + specialize (Hlo i ent Hi Hlt). lia.
    + destruct Hv as [_ [Hend|(en & Hn & Hnz)]].
      * apply data_at_Some in Hi. lia.
      * rewrite Hn in Hi. injection Hi as <-. rewrite str_cmp_antisym in Heq. lia.
    + specialize (Hhi i ent Hi Hgt). lia.
Qed.
End SearchSorted.

(** The position at which a key sorts is the insertion index of the key
    sequence. *)
Lemma sorts_at_insertion_index {V : Type} (self : list (dict_entry V)) k :
  forall pos, sorts_at self k pos -> pos = insertion_index (keys self) k.
Proof.
  unfold keys.
  induction self as [|ent rest IH]; intros pos (Hr & Hlo & Hat & Hhi).
  - unfold size in Hr. simpl in *. lia.
  - cbn [insertion_index map]. rewrite size_cons in Hr.
    destruct (Z.ltb_spec (str_cmp (key ent) k) 0) as [Hlt|Hge].
    + destruct (Z.eq_dec pos 0) as [->|Hne].
      * specialize (Hat 0 ent (data_at_zero _ _) eq_refl). lia.
      * rewrite <- (IH (pos - 1)); [lia|].
        split; [lia|]. repeat split; intros i e Hi Hc;
          pose proof (data_at_Some _ _ _ Hi);
          rewrite <- (data_at_cons ent) in Hi by lia.
        -- apply (Hlo _ _ Hi). lia.
        -- apply (Hat _ _ Hi). lia.
        -- apply (Hhi _ _ Hi). lia.
    + destruct (Z.eq_dec pos 0) as [->|Hne]; [reflexivity|].
      specialize (Hlo 0 ent (data_at_zero _ _)). lia.
Qed.

(** The linear scan of [str_list_find] finds the slot of the equal key. *)
Lemma str_list_find_from_spec (ks : list str_t) k : forall base,
  (forall s, In s ks -> str_cmp s k <> 0) ->
  str_list_find_from base ks k = -1.
Proof.
  induction ks as [|s rest IH]; intros base Hno; simpl; [reflexivity|].
  destruct (Z.eqb_spec (str_cmp s k) 0) as [Hz|Hnz].
  - exfalso. apply (Hno s); simpl; auto.
  - apply IH. intros s' Hin. apply Hno. simpl. auto.
Qed.

Lemma str_list_find_from_hit {V : Type} (self : list (dict_entry V)) k :
  forall base c ent,
    data_at self c = Some ent -> str_cmp (key ent) k = 0 ->
    (forall i e, data_at self i = Some e -> i < c -> str_cmp (key e) k <> 0) ->
    str_list_find_from base (keys self) k = base + c.
Proof.
  induction self as [|e0 rest IH]; intros base c ent Hc Hz Hbefore.
  - apply data_at_Some in Hc. unfold size in Hc. simpl in Hc. lia.
  - pose proof (data_at_Some _ _ _ Hc) as Hr. simpl.
    destruct (Z.eq_dec c 0) as [->|Hne].
    + rewrite data_at_zero in Hc. injection Hc as <-.
      destruct (Z.eqb_spec (str_cmp (key e0) k) 0); lia.
    + destruct (Z.eqb_spec (str_cmp (key e0) k) 0) as [Hz0|Hnz0].
      * exfalso. apply (Hbefore 0 e0 (data_at_zero _ _)); [lia|assumption].
      * replace c with ((c - 1) + 1) in Hc by lia.
        rewrite data_at_cons in Hc by lia.
        rewrite (IH (base + 1) (c - 1) ent Hc Hz); [lia|].
        intros i e Hi Hlt. pose proof (data_at_Some _ _ _ Hi).
        rewrite <- (data_at_cons e0) in Hi by lia.
        apply (Hbefore _ _ Hi). lia.
Qed.

(** ** The contracts of the searches *)

Lemma dict_find_pos_sorts_at {V : Type} (self : list (dict_entry V)) k :
  ascending self ->
  exists pos, dict_find_pos self k = Ret pos /\ sorts_at self k pos.
Proof.
  intros Hs. unfold dict_find_pos.
  destruct (Z.eqb_spec (size self) 0) as [Hz|Hnz].
  - exists 0. split; [reflexivity|]. split; [lia|].
    repeat split; intros i ent Hi; apply data_at_Some in Hi; lia.
  - destruct (search_starts self k Hnz) as (v & -> & Hv).
    pose proof (stops_well_sorts_at self k Hs v Hv) as Hp.
    destruct v; simpl; eauto.
Qed.

(** The search for the insertion point returns whatever the array holds. *)
Lemma dict_find_pos_total {V : Type} (self : list (dict_entry V)) k :
  exists pos, dict_find_pos self k = Ret pos /\ 0 <= pos <= size self.
Proof.
  unfold dict_find_pos. pose proof (size_nonneg self).
  destruct (Z.eqb_spec (size self) 0) as [Hz|Hnz].
  - exists 0. split; [reflexivity|lia].
  - destruct (search_starts self k Hnz) as (v & -> & Hv).
    destruct v as [c|c|c]; simpl in *.
    + destruct Hv as (ent & Hc & _). apply data_at_Some in Hc.
      exists c. split; [reflexivity|lia].
    + destruct Hv as [-> _]. exists 0. split; [reflexivity|lia].
    + destruct Hv as [(ent & Hc & _) _]. apply data_at_Some in Hc.
      exists (c + 1). split; [reflexivity|lia].
Qed.

Lemma dict_find_total {V : Type} (self : list (dict_entry V)) k :
  exists i, dict_find self k = Ret i /\ -1 <= i < size self.
Proof.
  unfold dict_find. pose proof (size_nonneg self).
  destruct (Z.eqb_spec (size self) 0) as [Hz|Hnz].
  - exists (-1). split; [reflexivity|lia].
  - destruct (search_starts self k Hnz) as (v & -> & Hv).
    destruct v as [c|c|c]; simpl in *.
    + destruct Hv as (ent & Hc & _). apply data_at_Some in Hc.
      exists c. split; [reflexivity|lia].
    + exists (-1). split; [reflexivity|lia].
    + exists (-1). split; [reflexivity|lia].
Qed.

(** On ascending keys the exact search stops at the slot of an equal key,
    or returns [-1] and no key is equal. *)
Lemma dict_find_cases {V : Type} (self : list (dict_entry V)) (k : str_t) :
  ascending self ->
  (exists c ent,
      dict_find self k = Ret c
      /\ data_at self c = Some ent /\ str_cmp (key ent) k = 0
      /\ sorts_at self k c)
  \/ (dict_find self k = Ret (-1) /\ ~ present self k).
Proof.
  intros Hs. unfold dict_find.
  destruct (Z.eqb_spec (size self) 0) as [Hz|Hnz].
  - right. split; [reflexivity|].
    destruct self; [|rewrite size_cons in Hz; pose proof (size_nonneg self); lia].
    intros (ent & Hin & _). destruct Hin.
  - destruct (search_starts self k Hnz) as (v & -> & Hv).
    pose proof (stops_well_sorts_at self k Hs v Hv) as Hp.
    pose proof (stops_well_absent self k Hs v Hv) as Habs.
    destruct v as [c|c|c]; simpl in *; [left|right; auto|right; auto].
    destruct Hv as (ec & Hc & Hz). exists c, ec.
    split; [reflexivity|]. split; [assumption|]. split; [|assumption].
    rewrite str_cmp_antisym. lia.
Qed.

(** C2: on a dictionary whose keys are strictly ascending, the search for
    the insertion point ([ptr_dict_find_pos], [ptr_list_dict_find_pos] and
    the typed searches cast to them) returns the index at which the key
    sorts: the index of the equal key when there is one, else the index of
    the first strictly greater key; [0] on an empty dictionary and [size]
    when every key is below the given one. *)
Theorem find_insertion_pos_contract (V : Type) (self : list (dict_entry V))
    (k : str_t) :
  ascending self -> insertion_contract self k (dict_find_pos self k).
Proof.
  intros Hs. destruct (dict_find_pos_sorts_at self k Hs) as (pos & Hr & Hp).
  exists pos. split; [assumption|]. split; [|split; [assumption|split]].
  - now apply sorts_at_insertion_index.
  - intros ->. destruct Hp as (Hr' & _). unfold size in Hr'. simpl in Hr'. lia.
  - intros Hall. destruct Hp as (Hr' & _ & Hat & _).
    destruct (Z.eq_dec pos (size self)) as [|Hne]; [assumption|].
    destruct (data_at_in_range self pos ltac:(lia)) as [ent Hent].
    specialize (Hat pos ent Hent eq_refl).
    specialize (Hall ent (data_at_In _ _ _ Hent)). lia.
Qed.


Lemma find_insertion_pos_contract_witness :
  ascending sample_ptr_dict
  /\ insertion_contract sample_ptr_dict net_key
       (ptr_dict_find_pos sample_ptr_dict net_key).
Proof.
  split; [repeat constructor|].
  apply (find_insertion_pos_contract ptr_t sample_ptr_dict net_key).
  repeat constructor.
Defined.

(** C3: on a dictionary whose keys are strictly ascending, the exact search
    ([ptr_dict_find], [ptr_list_dict_find] and the typed searches cast to
    them) returns the index of the unique entry whose key equals the given
    one, and [-1] when no entry has that key; it agrees with the linear scan
    [str_list_find] over the keys. *)
Theorem find_exact_contract (V : Type) (self : list (dict_entry V))
    (k : str_t) :
  ascending self -> exact_contract self k (dict_find self k).
Proof.
  intros Hs. unfold exact_contract.
  assert (Hnone : ~ present self k -> str_list_find (keys self) k = -1).
  { intros Hno. apply str_list_find_from_spec. intros s Hin.
    unfold keys in Hin. apply in_map_iff in Hin as (ent & <- & Hin).
    intros Hz. apply Hno. exists ent. auto. }
  destruct (dict_find_cases self k Hs)
    as [(c & ec & -> & Hc & Hzc & Hr & Hlo & Hat & Hhi)|[-> Habs]].
  - assert (Huniq : forall j e, data_at self j = Some e ->
                                str_cmp (key e) k = 0 -> j = c).
    { intros j e Hj Hje.
      destruct (Z.lt_trichotomy j c) as [Hlt|[Heq|Hgt]]; [|assumption|].
      - specialize (Hlo j e Hj Hlt). lia.
      - specialize (Hhi j e Hj Hgt). lia. }
    exists c. split; [reflexivity|]. split; [|split].
    + unfold str_list_find.
      rewrite (str_list_find_from_hit self k 0 c ec Hc Hzc); [lia|].
      intros i e Hi Hlt. specialize (Hlo i e Hi Hlt). lia.
    + intros _. exists ec. auto.
    + intros Hno. exfalso. apply Hno. exists ec.
      split; [eapply data_at_In; eassumption|assumption].
  - exists (-1). split; [reflexivity|]. split; [|split].
    + symmetry. auto.
    + intros Hp. contradiction.
    + reflexivity.
Qed.


Lemma find_exact_contract_witness :
  ascending sample_ptr_dict
  /\ exact_contract sample_ptr_dict svc_key
       (ptr_dict_find sample_ptr_dict svc_key).
Proof.
  split; [repeat constructor|].
  apply (find_exact_contract ptr_t sample_ptr_dict svc_key).
  repeat constructor.
Defined.

(** ** Inserting into and removing from a sorted sequence *)

Lemma In_firstn_index {A : Type} (l : list A) n x :
  In x (firstn n l) -> exists i, (i < n)%nat /\ nth_error l i = Some x.
Proof.
  intros H. apply In_nth_error in H as [i Hi].
  assert (Hlt : (i < length (firstn n l))%nat).
  { apply nth_error_Some. congruence. }
  rewrite length_firstn in Hlt.
  rewrite nth_error_firstn in Hi.
  destruct (Nat.ltb_spec i n); [|discriminate]. eauto.
Qed.

Lemma In_skipn_index {A : Type} (l : list A) n x :
  In x (skipn n l) -> exists i, (n <= i)%nat /\ nth_error l i = Some x.
Proof.
  intros H. apply In_nth_error in H as [i Hi].
  rewrite nth_error_skipn in Hi. exists (n + i)%nat. split; [lia|assumption].
Qed.

Lemma In_firstn {A : Type} (l : list A) n x : In x (firstn n l) -> In x l.
Proof.
  intros H. apply In_firstn_index in H as (i & _ & Hi).
  eapply nth_error_In; eassumption.
Qed.

Lemma In_skipn {A : Type} (l : list A) n x : In x (skipn n l) -> In x l.
Proof.
  intros H. apply In_skipn_index in H as (i & _ & Hi).
  eapply nth_error_In; eassumption.
Qed.

Lemma strongly_sorted_insert (ks : list str_t) (k : str_t) : forall n,
  StronglySorted key_lt ks ->
  (forall s, In s (firstn n ks) -> key_lt s k) ->
  (forall s, In s (skipn n ks) -> key_lt k s) ->
  StronglySorted key_lt (firstn n ks ++ k :: skipn n ks).
Proof.
  induction ks as [|a r IH]; intros n Hs Hlo Hhi.
  - rewrite firstn_nil, skipn_nil. repeat constructor.
  - destruct n as [|n]; cbn [firstn skipn app] in *.
    + constructor; [assumption|]. apply Forall_forall. assumption.
    + apply StronglySorted_inv in Hs as [Hr Ha].
      rewrite Forall_forall in Ha.
      constructor.
      * apply IH; auto. intros s Hin. apply Hlo. now right.
      * apply Forall_forall. intros s Hin.
        apply in_app_or in Hin as [Hin|[<-|Hin]].
        -- apply Ha. eapply In_firstn; eassumption.
        -- apply Hlo. now left.
        -- apply Ha. eapply In_skipn; eassumption.
Qed.

Lemma strongly_sorted_remove (ks : list str_t) : forall n m,
  StronglySorted key_lt ks ->
  (n <= m)%nat ->
  StronglySorted key_lt (firstn n ks ++ skipn m ks).
Proof.
  induction ks as [|a r IH]; intros n m Hs Hnm.
  - rewrite firstn_nil, skipn_nil. constructor.
  - apply StronglySorted_inv in Hs as [Hr Ha]. rewrite Forall_forall in Ha.
    destruct n as [|n]; cbn [firstn app].
    + destruct m as [|m]; cbn [skipn].
      * constructor; [assumption|]. now apply Forall_forall.
      * apply (IH 0%nat m Hr). lia.
    + destruct m as [|m]; [lia|]. cbn [skipn]. constructor.
      * apply IH; [assumption|lia].
      * apply Forall_forall. intros s Hin.
        apply in_app_or in Hin as [Hin|Hin]; apply Ha;
          [eapply In_firstn|eapply In_skipn]; eassumption.
Qed.

Lemma keys_app {V : Type} (l1 l2 : list (dict_entry V)) :
  keys (l1 ++ l2) = keys l1 ++ keys l2.
Proof. apply map_app. Qed.

Lemma keys_firstn {V : Type} n (l : list (dict_entry V)) :
  keys (firstn n l) = firstn n (keys l).
Proof. symmetry. apply firstn_map. Qed.

Lemma keys_skipn {V : Type} n (l : list (dict_entry V)) :
  keys (skipn n l) = skipn n (keys l).
Proof. symmetry. apply skipn_map. Qed.

Lemma data_at_nth_error {A : Type} (l : list A) (n : nat) :
  data_at l (Z.of_nat n) = nth_error l n.
Proof.
  unfold data_at. destruct (Z.ltb_spec (Z.of_nat n) 0); [lia|].
  now rewrite Nat2Z.id.
Qed.

Lemma nth_error_keys {V : Type} (l : list (dict_entry V)) n s :
  nth_error (keys l) n = Some s ->
  exists ent, nth_error l n = Some ent /\ key ent = s.
Proof.
  unfold keys. rewrite nth_error_map.
  destruct (nth_error l n) as [ent|]; simpl; [|discriminate].
  intros [= <-]. eauto.
Qed.

Section SortedUpdates.
Context {V : Type}.
Variable self : list (dict_entry V).
Hypothesis Hsorted : ascending self.

(** Storing a new entry where its key sorts keeps the keys ascending. *)
Lemma insert_ascending k pos (ent : dict_entry V) :
  sorts_at self k pos -> ~ present self k -> key ent = k ->
  ascending (firstn (Z.to_nat pos) self ++ ent :: skipn (Z.to_nat pos) self).
Proof.
  intros (Hr & Hlo & Hat & Hhi) Habs Hk.
  unfold ascending. rewrite keys_app. cbn [keys map].
  fold (keys (firstn (Z.to_nat pos) self)) (keys (skipn (Z.to_nat pos) self)).
  rewrite keys_firstn, keys_skipn, Hk.
  apply StronglySorted_Sorted. apply strongly_sorted_insert.
  - now apply ascending_strongly.
  - intros s Hin. apply In_firstn_index in Hin as (i & Hi & Hn).
    apply nth_error_keys in Hn as (e & Hn & <-).
    rewrite <- data_at_nth_error in Hn. apply (Hlo _ _ Hn). lia.
  - intros s Hin. apply In_skipn_index in Hin as (i & Hi & Hn).
    apply nth_error_keys in Hn as (e & Hn & <-).
    rewrite <- data_at_nth_error in Hn.
    unfold key_lt. rewrite str_cmp_antisym.
    destruct (Z.eq_dec (Z.of_nat i) pos) as [Heq|Hne].
    + specialize (Hat _ _ Hn Heq).
      assert (str_cmp (key e) k <> 0); [|lia].
      intros Hz. apply Habs. exists e. split; [|assumption].
      eapply data_at_In; eassumption.
    + specialize (Hhi _ _ Hn). lia.
Qed.

(** Dropping one slot keeps the keys ascending. *)
Lemma remove_ascending pos : 0 <= pos -> ascending (remove_at self pos).
Proof.
  intros Hpos. unfold ascending, remove_at. rewrite keys_app, keys_firstn, keys_skipn.
  apply StronglySorted_Sorted. apply strongly_sorted_remove.
  - now apply ascending_strongly.
  - lia.
Qed.

(** Replacing the value of one slot keeps the keys as they are. *)
Lemma update_keys pos (ent : dict_entry V) (v : V) :
  data_at self pos = Some ent ->
  keys (firstn (Z.to_nat pos) self
          ++ {| key := key ent; value := v |} :: skipn (S (Z.to_nat pos)) self)
  = keys self.
Proof.
  intros Hent. pose proof (data_at_Some _ _ _ Hent).
  rewrite keys_app. cbn [keys map].
  fold (keys (firstn (Z.to_nat pos) self)) (keys (skipn (S (Z.to_nat pos)) self)).
  rewrite keys_firstn, keys_skipn. cbn [key].
  apply firstn_skipn_middle. unfold keys. rewrite nth_error_map.
  unfold data_at in Hent. destruct (Z.ltb_spec pos 0); [lia|].
  now rewrite Hent.
Qed.

(** The test behind the insertion point tells whether the key is there. *)
Lemma key_found_present k pos :
  sorts_at self k pos ->
  (exists ent, key_found self pos k = Ret true
               /\ data_at self pos = Some ent /\ str_cmp (key ent) k = 0)
  \/ (key_found self pos k = Ret false /\ ~ present self k).
Proof.
  intros (Hr & Hlo & Hat & Hhi). unfold key_found.
  destruct (Z.ltb_spec pos (size self)) as [Hlt|Hge].
  - destruct (data_at_in_range self pos ltac:(lia)) as [ent Hent].
    rewrite Hent. unfold str_equal.
    destruct (Z.eqb_spec (str_cmp (key ent) k) 0) as [Hz|Hnz].
    + left. eauto.
    + right. split; [reflexivity|].
      intros (e & Hin & Hz). apply In_data_at in Hin as [i Hi].
      destruct (Z.lt_trichotomy i pos) as [Hi1|[->|Hi1]].
      * specialize (Hlo _ _ Hi Hi1). lia.
      * rewrite Hent in Hi. injection Hi as <-. contradiction.
      * specialize (Hhi _ _ Hi Hi1). lia.
  - right. split; [reflexivity|].
    intros (e & Hin & Hz). apply In_data_at in Hin as [i Hi].
    pose proof (data_at_Some _ _ _ Hi). specialize (Hlo _ _ Hi). lia.
Qed.
End SortedUpdates.

(** ** Upserts *)

(** The typed containers seen as what they are made of. *)
Ltac plain_types :=
  unfold str_dict_t, str_dict_entry_t, str_list_dict_t, str_list_dict_entry_t,
    str_list_dict_dict_t, str_list_dict_dict_entry_t, ptr_dict_t,
    ptr_dict_entry_t, ptr_list_dict_t, ptr_list_dict_entry_t, str_list_t,
    ptr_list_t in *.

Lemma str_dup_id s : str_dup s = s.
Proof. destruct s; reflexivity. Qed.

Lemma map_str_dup l : map str_dup l = l.
Proof.
  induction l as [|s r IH]; simpl; [reflexivity|].
  now rewrite str_dup_id, IH.
Qed.

Lemma str_list_dup_id v : str_list_dup v = v.
Proof. destruct v as [l|]; simpl; [|reflexivity]. now rewrite map_str_dup. Qed.

Lemma str_list_dict_dup_id v : str_list_dict_dup v = v.
Proof.
  destruct v as [d|]; simpl; [|reflexivity]. f_equal.
  induction d as [|[k l] r IH]; simpl; [reflexivity|].
  now rewrite str_dup_id, map_str_dup, IH.
Qed.

Lemma str_list_adds_all_app old l : str_list_adds_all old (Some l) = old ++ l.
Proof.
  unfold str_list_adds_all. destruct (Z.eqb_spec (size l) 0) as [Hz|Hnz].
  - destruct l; [now rewrite app_nil_r|].
    rewrite size_cons in Hz. pose proof (size_nonneg l). lia.
  - reflexivity.
Qed.

Section Upsert.
Context {V : Type}.
Variable self : list (dict_entry V).
Variable k : str_t.
Variable on_found : V -> V.
Variable fresh : V.
Hypothesis Hsorted : ascending self.

(** The steps that all upserts share behind the test for a NULL key. *)
Lemma upsert_steps :
  exists self',
    (pos <- dict_find_pos self k ;;
     found <- key_found self pos k ;;
     if found then update_at self pos on_found
     else insert_at self pos {| key := str_dup k; value := fresh |})
    = Ret self'
    /\ upserted self k on_found fresh self'
    /\ ascending self'.
Proof.
  destruct (dict_find_pos_sorts_at self k Hsorted) as (pos & -> & Hp).
  cbn [bind].
  destruct (key_found_present self k pos Hp)
    as [(ent & -> & Hent & Hz)|[-> Habs]]; cbn [bind].
  - unfold update_at. rewrite Hent. eexists. split; [reflexivity|]. split.
    + left. exists pos, ent. auto.
    + unfold ascending. rewrite (update_keys self pos ent _ Hent). assumption.
  - unfold insert_at. destruct Hp as (Hr & Hrest).
    destruct (Z.leb_spec 0 pos); [|lia].
    destruct (Z.leb_spec pos (size self)); [|lia]. cbn [andb].
    rewrite str_dup_id.
    eexists. split; [reflexivity|]. split.
    + right. split; [assumption|]. exists pos. split; [split; assumption|reflexivity].
    + apply (insert_ascending self Hsorted k pos);
        [split; assumption|assumption|reflexivity].
Qed.
End Upsert.

(** The upserts on a sorted dictionary, for a key that is not NULL. *)

Lemma str_dict_adds_upserted (self : str_dict_t) s v :
  ascending self ->
  exists self',
    str_dict_adds self (Some s) v = Ret self'
    /\ upserted self (Some s) (fun old => str_sets old v) v self'
    /\ ascending self'.
Proof.
  intros Hs. unfold str_dict_adds, str_dict_find_pos. cbn [is_null].
  apply upsert_steps. assumption.
Qed.

Lemma str_list_dict_adds_upserted (self : str_list_dict_t) s l :
  ascending self ->
  exists self',
    str_list_dict_adds self (Some s) (Some l) = Ret self'
    /\ upserted self (Some s) (fun old => old ++ l) l self'
    /\ ascending self'.
Proof.
  intros Hs. unfold str_list_dict_adds, str_list_dict_find_pos. cbn [is_null].
  destruct (upsert_steps self (Some s) (fun old => str_list_adds_all old (Some l)) l Hs)
    as (self' & Hr & Hu & Ha).
  exists self'. split; [|split; [|assumption]].
  - exact Hr.
  - destruct Hu as [(pos & ent & H1 & H2 & ->)|H]; [left|right; exact H].
    exists pos, ent. rewrite str_list_adds_all_app. auto.
Qed.

Lemma str_list_dict_dict_adds_upserted (self : str_list_dict_dict_t) s d :
  ascending self ->
  exists self',
    str_list_dict_dict_adds self (Some s) (Some d) = Ret self'
    /\ upserted self (Some s) (fun _ => d) d self'
    /\ ascending self'.
Proof.
  intros Hs. unfold str_list_dict_dict_adds, str_list_dict_dict_find_pos.
  cbn [is_null].
  destruct (upsert_steps self (Some s)
              (fun old => fst (str_list_dict_sets old (Some d))) d Hs)
    as (self' & Hr & Hu & Ha).
  exists self'. split; [|split; [|assumption]].
  - exact Hr.
  - exact Hu.
Qed.

(** ** Lookup after an upsert *)

Lemma dict_get_app {V : Type} (l1 l2 : list (dict_entry V)) k :
  dict_get (l1 ++ l2) k
  = match dict_get l1 k with Some v => Some v | None => dict_get l2 k end.
Proof.
  induction l1 as [|ent r IH]; simpl; [reflexivity|].
  destruct (str_cmp (key ent) k =? 0); [reflexivity|apply IH].
Qed.

Lemma dict_get_absent {V : Type} (l : list (dict_entry V)) k :
  (forall ent, In ent l -> str_cmp (key ent) k <> 0) -> dict_get l k = None.
Proof.
  induction l as [|ent r IH]; intros Hno; simpl; [reflexivity|].
  destruct (Z.eqb_spec (str_cmp (key ent) k) 0) as [Hz|Hnz].
  - exfalso. apply (Hno ent); simpl; auto.
  - apply IH. intros e Hin. apply Hno. simpl. auto.
Qed.

Lemma dict_get_not_present {V : Type} (l : list (dict_entry V)) k :
  ~ present l k -> dict_get l k = None.
Proof.
  intros Hno. apply dict_get_absent. intros ent Hin Hz. apply Hno.
  exists ent. auto.
Qed.

Lemma dict_get_Some_present {V : Type} (l : list (dict_entry V)) k v :
  dict_get l k = Some v -> present l k.
Proof.
  induction l as [|ent r IH]; simpl; [discriminate|].
  destruct (Z.eqb_spec (str_cmp (key ent) k) 0) as [Hz|Hnz].
  - intros _. exists ent. simpl. auto.
  - intros H. destruct (IH H) as (e & Hin & Hz). exists e. simpl. auto.
Qed.

Lemma not_equal_other k k' s :
  str_cmp s k = 0 -> str_cmp k' k <> 0 -> str_cmp s k' <> 0.
Proof.
  intros Hz Hne. rewrite (str_cmp_eq_compat s k k' Hz).
  rewrite str_cmp_antisym. lia.
Qed.

Lemma count_key_app {V : Type} (l1 l2 : list (dict_entry V)) k :
  count_key (l1 ++ l2) k = (count_key l1 k + count_key l2 k)%nat.
Proof. unfold count_key. now rewrite filter_app, length_app. Qed.

Lemma count_key_absent {V : Type} (l : list (dict_entry V)) k :
  (forall ent, In ent l -> str_cmp (key ent) k <> 0) -> count_key l k = 0%nat.
Proof.
  unfold count_key. induction l as [|ent r IH]; intros Hno; simpl; [reflexivity|].
  unfold str_equal at 1.
  destruct (Z.eqb_spec (str_cmp (key ent) k) 0) as [Hz|Hnz].
  - exfalso. apply (Hno ent); simpl; auto.
  - apply IH. intros e Hin. apply Hno. simpl. auto.
Qed.

(** In a sorted dictionary a key that is present is there once. *)
Lemma count_key_sorted {V : Type} (l : list (dict_entry V)) k :
  ascending l -> present l k -> count_key l k = 1%nat.
Proof.
  induction l as [|ent r IH]; intros Hs (e & Hin & Hz).
  - destruct Hin.
  - change (ent :: r) with ([ent] ++ r). rewrite count_key_app.
    unfold count_key at 1. cbn [filter]. unfold str_equal at 1.
    destruct (Z.eqb_spec (str_cmp (key ent) k) 0) as [Hz0|Hnz0].
    + rewrite count_key_absent; [reflexivity|].
      intros e' Hin' Hz'. pose proof (ascending_head _ _ Hs e' Hin') as Hlt.
      rewrite (str_cmp_eq_compat (key ent) k (key e') Hz0) in Hlt.
      rewrite str_cmp_antisym in Hlt. lia.
    + simpl. apply IH; [eapply ascending_tail; eassumption|].
      destruct Hin as [<-|Hin]; [contradiction|]. exists e. auto.
Qed.

Section UpsertedFacts.
Context {V : Type}.
Variable self self' : list (dict_entry V).
Variable k : str_t.
Variable on_found : V -> V.
Variable fresh : V.
Hypothesis Hsorted : ascending self.
Hypothesis Hup : upserted self k on_found fresh self'.

Lemma sorted_before_absent pos ent :
  data_at self pos = Some ent -> str_cmp (key ent) k = 0 ->
  forall e, In e (firstn (Z.to_nat pos) self) -> str_cmp (key e) k <> 0.
Proof.
  intros Hent Hz e Hin. apply In_firstn_index in Hin as (i & Hi & Hn).
  rewrite <- data_at_nth_error in Hn.
  pose proof (data_at_Some _ _ _ Hent).
  pose proof (ascending_index self Hsorted _ _ _ _ Hn Hent ltac:(lia)) as Hlt.
  rewrite (str_cmp_eq_compat_r (key e) (key ent) k Hz) in Hlt. lia.
Qed.

Lemma split_at pos ent :
  data_at self pos = Some ent ->
  self = firstn (Z.to_nat pos) self ++ ent :: skipn (S (Z.to_nat pos)) self.
Proof.
  intros Hent. symmetry. apply firstn_skipn_middle.
  unfold data_at in Hent. destruct (pos <? 0); [discriminate|assumption].
Qed.

Lemma sorted_get pos ent :
  data_at self pos = Some ent -> str_cmp (key ent) k = 0 ->
  dict_get self k = Some (value ent).
Proof.
  intros Hent Hz. pose proof (sorted_before_absent pos ent Hent Hz) as Hno.
  rewrite (split_at pos ent Hent) at 1.
  rewrite dict_get_app, (dict_get_absent _ _ Hno). cbn [dict_get].
  destruct (Z.eqb_spec (str_cmp (key ent) k) 0); [reflexivity|contradiction].
Qed.

Lemma upserted_present : present self' k.
Proof.
  destruct Hup as [(pos & ent & Hent & Hz & ->)|(Habs & pos & Hp & ->)].
  - exists {| key := key ent; value := on_found (value ent) |}.
    split; [apply in_or_app; right; left; reflexivity|assumption].
  - exists {| key := k; value := fresh |}.
    split; [apply in_or_app; right; left; reflexivity|apply str_cmp_refl].
Qed.

Lemma upserted_once : ascending self' -> count_key self' k = 1%nat.
Proof. intros Hs'. apply count_key_sorted; [assumption|apply upserted_present]. Qed.

Lemma upserted_get :
  dict_get self' k
  = Some (match dict_get self k with Some old => on_found old | None => fresh end).
Proof.
  destruct Hup as [(pos & ent & Hent & Hz & ->)|(Habs & pos & Hp & ->)].
  - pose proof (sorted_before_absent pos ent Hent Hz) as Hno.
    rewrite (sorted_get pos ent Hent Hz).
    rewrite dict_get_app, (dict_get_absent _ _ Hno). cbn [dict_get key value].
    destruct (Z.eqb_spec (str_cmp (key ent) k) 0); [reflexivity|contradiction].
  - rewrite (dict_get_not_present self k Habs).
    rewrite dict_get_app, dict_get_absent.
    + cbn [dict_get key value]. now rewrite str_cmp_refl.
    + intros e Hin Hz. apply Habs. exists e.
      split; [eapply In_firstn; eassumption|assumption].
Qed.

Lemma upserted_others k' :
  str_cmp k' k <> 0 -> dict_get self' k' = dict_get self k'.
Proof.
  intros Hne.
  destruct Hup as [(pos & ent & Hent & Hz & ->)|(Habs & pos & Hp & ->)].
  - pose proof (not_equal_other k k' (key ent) Hz Hne).
    transitivity (dict_get (firstn (Z.to_nat pos) self
                              ++ ent :: skipn (S (Z.to_nat pos)) self) k').
    + rewrite !dict_get_app. cbn [dict_get key value].
      destruct (Z.eqb_spec (str_cmp (key ent) k') 0); [contradiction|reflexivity].
    + now rewrite <- (split_at pos ent Hent).
  - pose proof (not_equal_other k k' k (str_cmp_refl k) Hne).
    transitivity (dict_get (firstn (Z.to_nat pos) self
                              ++ skipn (Z.to_nat pos) self) k').
    + rewrite !dict_get_app. cbn [dict_get key value].
      destruct (Z.eqb_spec (str_cmp k k') 0); [contradiction|reflexivity].
    + now rewrite firstn_skipn.
Qed.

Lemma upserted_keys : present self k -> keys self' = keys self.
Proof.
  intros Hpres.
  destruct Hup as [(pos & ent & Hent & Hz & ->)|(Habs & _)]; [|contradiction].
  apply update_keys. assumption.
Qed.

Lemma upserted_size :
  size self'
  = size self + (match dict_get self k with Some _ => 0 | None => 1 end).
Proof.
  destruct Hup as [(pos & ent & Hent & Hz & ->)|(Habs & pos & Hp & ->)].
  - rewrite (sorted_get pos ent Hent Hz).
    assert (Hk := update_keys self pos ent (on_found (value ent)) Hent).
    apply (f_equal (@length _)) in Hk. unfold keys in Hk.
    rewrite !length_map in Hk. unfold size. rewrite Hk. lia.
  - rewrite (dict_get_not_present self k Habs).
    transitivity (size (firstn (Z.to_nat pos) self
                          ++ skipn (Z.to_nat pos) self) + 1).
    + rewrite !size_app, size_cons. lia.
    + now rewrite firstn_skipn.
Qed.
End UpsertedFacts.

(** ** What an upsert does at a key that is present *)

Lemma entry_eta {V : Type} (ent : dict_entry V) :
  {| key := key ent; value := value ent |} = ent.
Proof. destruct ent; reflexivity. Qed.

Lemma present_get {V : Type} (self : list (dict_entry V)) k :
  present self k -> exists old, dict_get self k = Some old.
Proof.
  intros Hp. destruct (dict_get self k) as [old|] eqn:E; [eauto|].
  exfalso. induction self as [|ent r IH]; simpl in *.
  - destruct Hp as (e & [] & _).
  - destruct (Z.eqb_spec (str_cmp (key ent) k) 0) as [Hz|Hnz]; [discriminate|].
    apply IH; [|assumption]. destruct Hp as (e & [<-|Hin] & Hz); [contradiction|].
    exists e. auto.
Qed.

(** An upsert with a NULL value at a present key changes nothing. *)
Lemma str_dict_adds_null_value (self : str_dict_t) s :
  ascending self -> present self (Some s) ->
  str_dict_adds self (Some s) None = Ret self.
Proof.
  intros Hs Hp.
  destruct (str_dict_adds_upserted self s None Hs) as (self' & -> & Hu & _).
  f_equal. destruct Hu as [(pos & ent & Hent & Hz & ->)|(Habs & _)]; [|contradiction].
  cbn [str_sets]. rewrite entry_eta. symmetry. now apply split_at.
Qed.

Lemma str_dict_adds_twice s v1 v :
  (m <- str_dict_adds [] (Some s) v1 ;; str_dict_adds m (Some s) (Some v))
  = Ret [ {| key := Some s; value := Some v |} ].
Proof.
  cbn. rewrite strcmp_refl. cbn. unfold str_equal. cbn.
  rewrite strcmp_refl. reflexivity.
Qed.

(** C5 (amended): in a string-valued flat dictionary whose keys are
    ascending, the upsert of a key that is present with a value that is not
    NULL leaves one entry at that key, holding the new value; the size, the
    keys and the values at the other keys stay as they were.  A NULL value
    leaves the old value in place.  Two upserts of one key on the empty
    dictionary leave one entry, which holds the second value. *)
Theorem flat_upsert_replaces (self : str_dict_t) (s v : list byte) :
  ascending self -> present self (Some s) ->
  (exists self',
      str_dict_adds self (Some s) (Some v) = Ret self'
      /\ str_dict_add self (Some s) (Some v) = Ret self'
      /\ size self' = size self
      /\ keys self' = keys self
      /\ count_key self' (Some s) = 1%nat
      /\ dict_get self' (Some s) = Some (Some v)
      /\ forall k', str_cmp k' (Some s) <> 0 ->
                    dict_get self' k' = dict_get self k')
  /\ str_dict_adds self (Some s) None = Ret self
  /\ forall v1,
      (m <- str_dict_adds [] (Some s) v1 ;; str_dict_adds m (Some s) (Some v))
      = Ret [ {| key := Some s; value := Some v |} ].
Proof.
  intros Hs Hp. split; [|split].
  - destruct (str_dict_adds_upserted self s (Some v) Hs) as (self' & Hr & Hu & Hs').
    plain_types.
    destruct (present_get self (Some s) Hp) as [old Hold].
    exists self'. split; [assumption|]. split.
    { unfold str_dict_add. now rewrite str_dup_id. }
    split; [|split; [|split; [|split]]].
    + pose proof (upserted_size self self' _ _ _ Hs Hu) as G.
      rewrite Hold in G. rewrite G. lia.
    + eapply upserted_keys; eassumption.
    + eapply upserted_once; eassumption.
    + plain_types. pose proof (upserted_get self self' _ _ _ Hs Hu) as G.
      rewrite Hold in G. exact G.
    + intros k' Hne. eapply upserted_others; eassumption.
  - now apply str_dict_adds_null_value.
  - intros v1. apply str_dict_adds_twice.
Qed.

Lemma flat_upsert_replaces_witness :
  ascending sample_str_dict /\ present sample_str_dict a_key
  /\ exists self',
      str_dict_adds sample_str_dict a_key (Some (lit "2"%string)) = Ret self'
      /\ dict_get self' a_key = Some (Some (lit "2"%string)).
Proof.
  assert (Hs : ascending sample_str_dict) by repeat constructor.
  assert (Hp : present sample_str_dict a_key).
  { eexists. split; [left; reflexivity|reflexivity]. }
  split; [exact Hs|]. split; [exact Hp|].
  destruct (flat_upsert_replaces sample_str_dict (lit "a"%string) (lit "2"%string) Hs Hp)
    as ((self' & Hr & _ & _ & _ & _ & Hg & _) & _).
  exists self'. split; assumption.
Defined.

(** C5, as stated, fails: [ptr_dict_adds] at a present key stores a second
    entry with that key, and [str_dict_adds] with a NULL value keeps the old
    value. *)
Lemma flat_upsert_counterexample :
  (exists self',
      ptr_dict_adds sample_ptr_dict db_key 7 = Ret self'
      /\ size self' = size sample_ptr_dict + 1
      /\ count_key self' db_key = 2%nat)
  /\ (exists self',
         str_dict_adds sample_str_dict a_key None = Ret self'
         /\ dict_get self' a_key = Some (Some (lit "1"%string))
         /\ dict_get self' a_key <> Some None).
Proof.
  split.
  - eexists. split; [reflexivity|]. split; reflexivity.
  - eexists. split; [reflexivity|]. split; [reflexivity|discriminate].
Qed.

(** C6: in a list dictionary whose keys are ascending, the upsert of a list
    at a key that is present appends the elements of the list, in order,
    behind the list that is there, so that the lists [a] and then [b]
    upserted at a key that was not there leave the list [a; b]; in a
    dictionary of list dictionaries the upsert of a dictionary at a key that
    is present puts that dictionary in the place of the one that is there.
    In both the keys and the values at the other keys stay as they were. *)
Theorem nested_upsert_merge_asymmetry :
  (forall (self : str_list_dict_t) s old l,
      ascending self -> str_list_dict_get self (Some s) = Some old ->
      exists self',
        str_list_dict_adds self (Some s) (Some l) = Ret self'
        /\ str_list_dict_add self (Some s) (Some l) = Ret self'
        /\ str_list_dict_get self' (Some s) = Some (old ++ l)
        /\ keys self' = keys self
        /\ forall k', str_cmp k' (Some s) <> 0 ->
                      str_list_dict_get self' k' = str_list_dict_get self k')
  /\ (forall (self : str_list_dict_t) s a b,
         ascending self -> ~ present self (Some s) ->
         exists self',
           (m <- str_list_dict_adds self (Some s) (Some [a]) ;;
            str_list_dict_adds m (Some s) (Some [b])) = Ret self'
           /\ str_list_dict_get self' (Some s) = Some [a; b])
  /\ (forall (self : str_list_dict_dict_t) s old d,
         ascending self -> str_list_dict_dict_get self (Some s) = Some old ->
         exists self',
           str_list_dict_dict_adds self (Some s) (Some d) = Ret self'
           /\ str_list_dict_dict_add self (Some s) (Some d) = Ret self'
           /\ str_list_dict_dict_get self' (Some s) = Some d
           /\ keys self' = keys self
           /\ forall k', str_cmp k' (Some s) <> 0 ->
                         str_list_dict_dict_get self' k'
                         = str_list_dict_dict_get self k').
Proof.
  unfold str_list_dict_get, str_list_dict_dict_get. plain_types. split; [|split].
  - intros self s old l Hs Hold.
    destruct (str_list_dict_adds_upserted self s l Hs) as (self' & Hr & Hu & Hs').
    exists self'. split; [assumption|]. split.
    { unfold str_list_dict_add. now rewrite str_list_dup_id. }
    split; [|split].
    + plain_types. pose proof (upserted_get self self' _ _ _ Hs Hu) as G.
      rewrite Hold in G. exact G.
    + eapply upserted_keys; try eassumption.
      eapply dict_get_Some_present; eassumption.
    + intros k' Hne. eapply upserted_others; eassumption.
  - intros self s a b Hs Habs.
    destruct (str_list_dict_adds_upserted self s [a] Hs) as (m & Hr & Hu & Hm).
    destruct (str_list_dict_adds_upserted m s [b] Hm) as (self' & Hr' & Hu' & Hs').
    exists self'. split; [eapply bind_Ret; eassumption|].
    plain_types.
    pose proof (upserted_get m self' _ _ _ Hm Hu') as G2.
    pose proof (upserted_get self m _ _ _ Hs Hu) as G1.
    rewrite (dict_get_not_present self _ Habs) in G1.
    rewrite G1 in G2. exact G2.
  - intros self s old d Hs Hold.
    destruct (str_list_dict_dict_adds_upserted self s d Hs)
      as (self' & Hr & Hu & Hs').
    exists self'. split; [assumption|]. split.
    { unfold str_list_dict_dict_add. now rewrite str_list_dict_dup_id. }
    split; [|split].
    + plain_types. pose proof (upserted_get self self' _ _ _ Hs Hu) as G.
      rewrite Hold in G. exact G.
    + eapply upserted_keys; try eassumption.
      eapply dict_get_Some_present; eassumption.
    + intros k' Hne. eapply upserted_others; eassumption.
Qed.

Lemma nested_upsert_merge_asymmetry_witness :
  ascending sample_list_dict
  /\ str_list_dict_get sample_list_dict svc_key = Some [Some (lit "start"%string)]
  /\ exists self',
      str_list_dict_adds sample_list_dict svc_key (Some [Some (lit "stop"%string)])
      = Ret self'
      /\ str_list_dict_get self' svc_key
         = Some [Some (lit "start"%string); Some (lit "stop"%string)].
Proof.
  assert (Hs : ascending sample_list_dict) by repeat constructor.
  split; [exact Hs|]. split; [reflexivity|].
  destruct (proj1 nested_upsert_merge_asymmetry sample_list_dict
              (lit "svc"%string) [Some (lit "start"%string)]
              [Some (lit "stop"%string)] Hs eq_refl)
    as (self' & Hr & _ & Hg & _).
  exists self'. split; assumption.
Defined.

(** The scenario of the specification: ["svc"] with [start], ["svc"] with
    [stop] and ["db"] with [init] leave the keys ["db"], ["svc"] and the
    list [start; stop] at ["svc"]. *)
Example end_to_end_scenario :
  exists self,
    run str_list_dict_step
      [ LAdds svc_key [Some (lit "start"%string)];
        LAdds svc_key [Some (lit "stop"%string)];
        LAdds db_key [Some (lit "init"%string)] ]
      str_list_dict_NULL = Ret self
    /\ keys self = [db_key; svc_key]
    /\ str_list_dict_get self svc_key
       = Some [Some (lit "start"%string); Some (lit "stop"%string)].
Proof. eexists. repeat split. Qed.

(** ** The invariant along sequences of operations *)

Lemma keys_present_firstn {V : Type} n (l : list (dict_entry V)) :
  keys_present l -> keys_present (firstn n l).
Proof.
  unfold keys_present. rewrite !Forall_forall. intros H e Hin.
  apply H. eapply In_firstn; eassumption.
Qed.

Lemma keys_present_skipn {V : Type} n (l : list (dict_entry V)) :
  keys_present l -> keys_present (skipn n l).
Proof.
  unfold keys_present. rewrite !Forall_forall. intros H e Hin.
  apply H. eapply In_skipn; eassumption.
Qed.

Lemma upserted_keys_present {V : Type} (self self' : list (dict_entry V))
    s on_found fresh :
  keys_present self -> upserted self (Some s) on_found fresh self' ->
  keys_present self'.
Proof.
  intros Hk [(pos & ent & Hent & Hz & ->)|(Habs & pos & Hp & ->)];
    apply Forall_app; split;
    try (now apply keys_present_firstn);
    constructor; try (now apply keys_present_skipn).
  - cbn [key]. unfold keys_present in Hk. rewrite Forall_forall in Hk.
    apply Hk. eapply data_at_In; eassumption.
  - cbn [key]. discriminate.
Qed.

Lemma well_kept_nil {V : Type} : well_kept (@nil (dict_entry V)).
Proof. split; constructor. Qed.

Lemma str_dict_adds_kept (self : str_dict_t) k v :
  well_kept self ->
  exists self', str_dict_adds self k v = Ret self' /\ well_kept self'.
Proof.
  intros [Hs Hk]. destruct k as [s|].
  - destruct (str_dict_adds_upserted self s v Hs) as (self' & Hr & Hu & Hs').
    exists self'. split; [assumption|]. split; [assumption|].
    eapply upserted_keys_present; eassumption.
  - exists self. split; [reflexivity|]. split; assumption.
Qed.

Lemma str_list_dict_adds_kept (self : str_list_dict_t) k l :
  well_kept self ->
  exists self', str_list_dict_adds self k (Some l) = Ret self' /\ well_kept self'.
Proof.
  intros [Hs Hk]. destruct k as [s|].
  - destruct (str_list_dict_adds_upserted self s l Hs) as (self' & Hr & Hu & Hs').
    exists self'. split; [assumption|]. split; [assumption|].
    eapply upserted_keys_present; eassumption.
  - exists self. split; [reflexivity|]. split; assumption.
Qed.

Lemma str_list_dict_dict_adds_kept (self : str_list_dict_dict_t) k d :
  well_kept self ->
  exists self',
    str_list_dict_dict_adds self k (Some d) = Ret self' /\ well_kept self'.
Proof.
  intros [Hs Hk]. destruct k as [s|].
  - destruct (str_list_dict_dict_adds_upserted self s d Hs)
      as (self' & Hr & Hu & Hs').
    exists self'. split; [assumption|]. split; [assumption|].
    eapply upserted_keys_present; eassumption.
  - exists self. split; [reflexivity|]. split; assumption.
Qed.

(** [str_dict_del] on a sorted dictionary: nothing happens for a key that
    is not there; for a key that is there the released object is written. *)
Lemma str_dict_del_absent (self : str_dict_t) k :
  ascending self -> ~ present self k -> str_dict_del self k = Ret self.
Proof.
  intros Hs Habs. unfold str_dict_del, str_dict_find.
  destruct (dict_find_cases self k Hs)
    as [(c & ec & _ & Hc & Hzc & _)|[-> _]]; [|reflexivity].
  exfalso. apply Habs. exists ec.
  split; [eapply data_at_In; eassumption|assumption].
Qed.

Lemma str_dict_del_present (self : str_dict_t) k :
  ascending self -> present self k -> str_dict_del self k = Undefined.
Proof.
  intros Hs Hp. unfold str_dict_del, str_dict_find.
  destruct (dict_find_cases self k Hs)
    as [(c & ec & -> & Hc & _)|[_ Habs]]; [|contradiction].
  apply data_at_Some in Hc.
  cbn [bind]. destruct (Z.geb_spec c 0); [reflexivity|lia].
Qed.

Lemma str_dict_del_Ret (self self' : str_dict_t) k :
  str_dict_del self k = Ret self' -> self' = self.
Proof.
  unfold str_dict_del. intros H. apply bind_Ret_inv in H as (pos & _ & H).
  destruct (pos >=? 0); [discriminate|]. now injection H.
Qed.

(** What the copy loops of [str_dict_del] compute from the old array. *)
Lemma remove_at_spec {V : Type} (self : list (dict_entry V)) k pos ent :
  ascending self ->
  data_at self pos = Some ent -> str_cmp (key ent) k = 0 ->
  ascending (remove_at self pos)
  /\ size (remove_at self pos) = size self - 1
  /\ dict_get (remove_at self pos) k = None
  /\ forall k', str_cmp k' k <> 0 ->
                dict_get (remove_at self pos) k' = dict_get self k'.
Proof.
  intros Hs Hent Hz. pose proof (data_at_Some _ _ _ Hent) as Hr.
  pose proof (split_at self pos ent Hent) as Hsplit.
  assert (Hrm : remove_at self pos
                = firstn (Z.to_nat pos) self ++ skipn (S (Z.to_nat pos)) self).
  { unfold remove_at. do 2 f_equal. lia. }
  split; [apply remove_ascending; [assumption|lia]|].
  rewrite Hrm. split; [|split].
  - rewrite Hsplit at 3. rewrite !size_app, size_cons. lia.
  - apply dict_get_absent. intros e Hin Hze.
    apply in_app_or in Hin as [Hin|Hin].
    + exact (sorted_before_absent self k Hs pos ent Hent Hz e Hin Hze).
    + apply In_skipn_index in Hin as (i & Hi & Hn).
      rewrite <- data_at_nth_error in Hn.
      pose proof (ascending_index self Hs _ _ _ _ Hent Hn ltac:(lia)) as Hlt.
      rewrite (str_cmp_eq_compat (key ent) k (key e) Hz) in Hlt.
      rewrite str_cmp_antisym in Hlt. lia.
  - intros k' Hne. pose proof (not_equal_other k k' (key ent) Hz Hne).
    transitivity (dict_get (firstn (Z.to_nat pos) self
                              ++ ent :: skipn (S (Z.to_nat pos)) self) k').
    + rewrite !dict_get_app. cbn [dict_get].
      destruct (Z.eqb_spec (str_cmp (key ent) k') 0); [contradiction|reflexivity].
    + now rewrite <- Hsplit.
Qed.

Lemma str_dict_step_kept (self self' : str_dict_t) op :
  well_kept self -> str_dict_step self op = Ret self' -> well_kept self'.
Proof.
  intros Hw. destruct op as [k v|k v|k]; cbn [str_dict_step].
  - destruct (str_dict_adds_kept self k v Hw) as (x & -> & Hx). now intros [= <-].
  - unfold str_dict_add.
    destruct (str_dict_adds_kept self k (str_dup v) Hw) as (x & -> & Hx).
    now intros [= <-].
  - intros H. apply str_dict_del_Ret in H. now subst.
Qed.

Lemma str_list_dict_step_kept (self : str_list_dict_t) op :
  well_kept self ->
  exists self', str_list_dict_step self op = Ret self' /\ well_kept self'.
Proof.
  intros Hw. destruct op as [k l|k l]; cbn [str_list_dict_step].
  - now apply str_list_dict_adds_kept.
  - unfold str_list_dict_add. cbn [str_list_dup].
    now apply str_list_dict_adds_kept.
Qed.

Lemma str_list_dict_dict_step_kept (self : str_list_dict_dict_t) op :
  well_kept self ->
  exists self', str_list_dict_dict_step self op = Ret self' /\ well_kept self'.
Proof.
  intros Hw. destruct op as [k d|k d]; cbn [str_list_dict_dict_step].
  - now apply str_list_dict_dict_adds_kept.
  - unfold str_list_dict_dict_add, str_list_dict_dup.
    now apply str_list_dict_dict_adds_kept.
Qed.

Section Runs.
Context {S O : Type}.
Variable step : S -> O -> outcome S.
Variable Inv : S -> Prop.

(** An invariant that every step keeps holds wherever a run arrives. *)
Lemma run_invariant :
  (forall self self' op, Inv self -> step self op = Ret self' -> Inv self') ->
  forall ops self self',
    Inv self -> run step ops self = Ret self' -> Inv self'.
Proof.
  intros Hstep. induction ops as [|op rest IH]; intros self self' Hi Hr.
  - simpl in Hr. now injection Hr as <-.
  - simpl in Hr. apply bind_Ret_inv in Hr as (m & Hm & Hr).
    eapply IH; [|eassumption]. eapply Hstep; eassumption.
Qed.

(** When, moreover, the steps allowed by [ok] never fail from a state
    that satisfies the invariant, a run of such steps arrives. *)
Lemma run_total (ok : O -> Prop) :
  (forall self op, Inv self -> ok op ->
                   exists self', step self op = Ret self' /\ Inv self') ->
  forall ops self,
    Inv self -> Forall ok ops ->
    exists self', run step ops self = Ret self' /\ Inv self'.
Proof.
  intros Hstep. induction ops as [|op rest IH]; intros self Hi Hok.
  - exists self. split; [reflexivity|assumption].
  - inversion Hok as [|? ? Hop Hrest]; subst.
    destruct (Hstep self op Hi Hop) as (m & Hm & Him).
    destruct (IH m Him Hrest) as (self' & Hr & Hi').
    exists self'. split; [|assumption].
    simpl. eapply bind_Ret; eassumption.
Qed.
End Runs.

(** Sequences of upserts from the empty dictionary arrive at a dictionary
    whose keys are strictly ascending, without duplicates and without a NULL
    key. *)
Lemma upserts_keep_sorted :
  (forall ops, Forall is_upsert ops ->
     exists self,
       run str_dict_step ops str_dict_NULL = Ret self
       /\ ascending self /\ NoDup (keys self) /\ keys_present self)
  /\ (forall ops,
        exists self,
          run str_list_dict_step ops str_list_dict_NULL = Ret self
          /\ ascending self /\ NoDup (keys self) /\ keys_present self)
  /\ (forall ops,
        exists self,
          run str_list_dict_dict_step ops str_list_dict_dict_NULL = Ret self
          /\ ascending self /\ NoDup (keys self) /\ keys_present self).
Proof.
  split; [|split].
  - intros ops Hops.
    destruct (run_total str_dict_step well_kept is_upsert) with (ops := ops)
      (self := str_dict_NULL) as (self & Hr & Hs & Hk).
    + intros self [k v|k v|k] Hw Hok; cbn [str_dict_step].
      * now apply str_dict_adds_kept.
      * now apply str_dict_adds_kept.
      * destruct Hok.
    + apply well_kept_nil.
    + assumption.
    + exists self. repeat split; try assumption. now apply ascending_NoDup.
  - intros ops.
    destruct (run_total str_list_dict_step well_kept (fun _ => True))
      with (ops := ops) (self := str_list_dict_NULL) as (self & Hr & Hs & Hk).
    + intros self op Hw _. now apply str_list_dict_step_kept.
    + apply well_kept_nil.
    + apply Forall_forall. trivial.
    + exists self. repeat split; try assumption. now apply ascending_NoDup.
  - intros ops.
    destruct (run_total str_list_dict_dict_step well_kept (fun _ => True))
      with (ops := ops) (self := str_list_dict_dict_NULL)
      as (self & Hr & Hs & Hk).
    + intros self op Hw _. now apply str_list_dict_dict_step_kept.
    + apply well_kept_nil.
    + apply Forall_forall. trivial.
    + exists self. repeat split; try assumption. now apply ascending_NoDup.
Qed.

(** ** Removal, NULL keys and the sortedness of what the operations reach *)

Lemma reached_well_kept :
  (forall ops self,
      run str_dict_step ops str_dict_NULL = Ret self -> well_kept self)
  /\ (forall ops self,
         run str_list_dict_step ops str_list_dict_NULL = Ret self ->
         well_kept self)
  /\ (forall ops self,
         run str_list_dict_dict_step ops str_list_dict_dict_NULL = Ret self ->
         well_kept self).
Proof.
  split; [|split]; intros ops self Hr.
  - eapply (run_invariant str_dict_step well_kept);
      [|apply well_kept_nil|exact Hr].
    intros m m' op Hw Hm. eapply str_dict_step_kept; eassumption.
  - eapply (run_invariant str_list_dict_step well_kept);
      [|apply well_kept_nil|exact Hr].
    intros m m' op Hw Hm.
    destruct (str_list_dict_step_kept m op Hw) as (x & Hx & Hwx).
    rewrite Hx in Hm. now injection Hm as <-.
  - eapply (run_invariant str_list_dict_dict_step well_kept);
      [|apply well_kept_nil|exact Hr].
    intros m m' op Hw Hm.
    destruct (str_list_dict_dict_step_kept m op Hw) as (x & Hx & Hwx).
    rewrite Hx in Hm. now injection Hm as <-.
Qed.

(** C1 (the code departs from it): along every sequence of upserts from the
    empty dictionary, for the dictionaries of strings, of lists and of list
    dictionaries, every operation returns and leaves the keys strictly
    ascending without duplicates, and every dictionary that a sequence of
    upserts and removals arrives at has such keys; but the removal of a key
    that is present does not return a dictionary: after the upsert of
    ["a"], the removal of ["a"] writes through the released object.  In the
    dictionary of pointers two upserts of one key leave the key twice. *)
Theorem sortedness_under_upsert_and_remove :
  (forall ops, Forall is_upsert ops ->
     exists self,
       run str_dict_step ops str_dict_NULL = Ret self
       /\ ascending self /\ NoDup (keys self))
  /\ (forall ops,
        exists self,
          run str_list_dict_step ops str_list_dict_NULL = Ret self
          /\ ascending self /\ NoDup (keys self))
  /\ (forall ops,
        exists self,
          run str_list_dict_dict_step ops str_list_dict_dict_NULL = Ret self
          /\ ascending self /\ NoDup (keys self))
  /\ (forall ops self,
        run str_dict_step ops str_dict_NULL = Ret self ->
        ascending self /\ NoDup (keys self))
  /\ run str_dict_step [Adds a_key one_string; Del a_key] str_dict_NULL
     = Undefined
  /\ (exists self,
         (m <- ptr_dict_adds [] a_key 1 ;; ptr_dict_adds m a_key 2) = Ret self
         /\ keys self = [a_key; a_key]
         /\ ~ ascending self /\ ~ NoDup (keys self)).
Proof.
  destruct upserts_keep_sorted as (H1 & H2 & H3).
  split; [|split; [|split; [|split; [|split]]]].
  - intros ops Hops. destruct (H1 ops Hops) as (self & Hr & Hs & Hn & _). eauto.
  - intros ops. destruct (H2 ops) as (self & Hr & Hs & Hn & _). eauto.
  - intros ops. destruct (H3 ops) as (self & Hr & Hs & Hn & _). eauto.
  - intros ops self Hr. destruct (proj1 reached_well_kept ops self Hr) as [Hs _].
    split; [assumption|now apply ascending_NoDup].
  - reflexivity.
  - eexists. split; [reflexivity|]. split; [reflexivity|].
    assert (Hdup : ~ NoDup [a_key; a_key]).
    { intros H. inversion H as [|? ? Hin _]; subst. apply Hin. now left. }
    split; [|exact Hdup].
    intros Hs. apply Hdup. exact (ascending_NoDup _ Hs).
Qed.

Lemma sortedness_under_upsert_and_remove_witness :
  Forall is_upsert [Adds svc_key one_string; Add db_key one_string]
  /\ exists self,
      run str_dict_step [Adds svc_key one_string; Add db_key one_string]
        str_dict_NULL = Ret self
      /\ ascending self /\ NoDup (keys self).
Proof.
  assert (Hops : Forall is_upsert [Adds svc_key one_string; Add db_key one_string]).
  { repeat constructor. }
  split; [exact Hops|].
  exact (proj1 sortedness_under_upsert_and_remove _ Hops).
Defined.

(** C7 (the code departs from it): on a dictionary whose keys are
    ascending, the removal of a key that is not present returns the
    dictionary as it is; the removal of a key that is present releases the
    dictionary object and then writes through it, so that no dictionary
    comes back, as for the key ["a"] in the dictionary that holds only it. *)
Theorem remove_absent_noop_present_undefined :
  (forall (self : str_dict_t) k,
      ascending self -> ~ present self k -> str_dict_del self k = Ret self)
  /\ (forall (self : str_dict_t) k,
         ascending self -> present self k -> str_dict_del self k = Undefined)
  /\ str_dict_del sample_str_dict a_key = Undefined.
Proof.
  split; [|split].
  - apply str_dict_del_absent.
  - apply str_dict_del_present.
  - reflexivity.
Qed.

Lemma remove_absent_noop_present_undefined_witness :
  ascending sample_str_dict /\ ~ present sample_str_dict db_key
  /\ str_dict_del sample_str_dict db_key = Ret sample_str_dict.
Proof.
  assert (Hs : ascending sample_str_dict) by repeat constructor.
  assert (Hn : ~ present sample_str_dict db_key).
  { intros (e & [<-|[]] & Hz). discriminate Hz. }
  split; [exact Hs|]. split; [exact Hn|].
  exact (proj1 remove_absent_noop_present_undefined sample_str_dict db_key Hs Hn).
Defined.

(** C10 (the code departs from it): an upsert with a NULL key returns the
    dictionary as it is, in the dictionaries of strings, of lists and of
    list dictionaries, for the variants that take the value over and for
    those that copy it; the value taken over, or the copy, is released when
    it is not NULL; and no dictionary that a sequence of operations arrives
    at from the empty one holds a NULL key.  The dictionary of pointers
    does the same for a value that is NULL or a block of [malloc], but it
    hands every other pointer to [free] of the C library, which is not
    defined for it; its copying variant reads the value as a string. *)
Theorem upsert_null_key_noop :
  (forall (self : str_dict_t) v,
      str_dict_adds self None v = Ret self
      /\ str_dict_add self None v = Ret self
      /\ str_dict_adds_value self None v
         = Ret (match v with Some _ => Some Freed | None => None end)
      /\ str_dict_adds_value self None (str_dup v)
         = Ret (match v with Some _ => Some Freed | None => None end))
  /\ (forall (self : str_list_dict_t) v,
         str_list_dict_adds self None v = Ret self
         /\ str_list_dict_add self None v = Ret self
         /\ str_list_dict_adds_value self None v
            = Ret (match v with Some _ => Some Freed | None => None end)
         /\ str_list_dict_adds_value self None (str_list_dup v)
            = Ret (match v with Some _ => Some Freed | None => None end))
  /\ (forall (self : str_list_dict_dict_t) v,
         str_list_dict_dict_adds self None v = Ret self
         /\ str_list_dict_dict_add self None v = Ret self
         /\ str_list_dict_dict_adds_value self None v
            = Ret (match v with Some _ => Some Freed | None => None end)
         /\ str_list_dict_dict_adds_value self None (str_list_dict_dup v)
            = Ret (match v with Some _ => Some Freed | None => None end))
  /\ (forall (self : ptr_dict_t) addr text,
         ptr_dict_adds self None Null = Ret self
         /\ ptr_dict_adds_value self None Null = Ret None
         /\ ptr_dict_adds self None (Block addr text) = Ret self
         /\ ptr_dict_adds_value self None (Block addr text) = Ret (Some Freed)
         /\ ptr_dict_adds self None (Other addr text) = Undefined
         /\ ptr_dict_adds_value self None (Other addr text) = Undefined)
  /\ (forall (self : ptr_dict_t) copy addr l,
         ptr_dict_add copy self None Null = Ret self
         /\ ptr_dict_add copy self None (Block addr (Some l)) = Ret self
         /\ ptr_dict_add copy self None (Other addr (Some l)) = Ret self
         /\ ptr_dict_add copy self None (Block addr None) = Undefined
         /\ ptr_dict_add copy self None (Other addr None) = Undefined)
  /\ (forall ops self,
         run str_dict_step ops str_dict_NULL = Ret self -> keys_present self)
  /\ (forall ops self,
         run str_list_dict_step ops str_list_dict_NULL = Ret self ->
         keys_present self)
  /\ (forall ops self,
         run str_list_dict_dict_step ops str_list_dict_dict_NULL = Ret self ->
         keys_present self).
Proof.
  destruct reached_well_kept as (H1 & H2 & H3).
  split; [|split; [|split; [|split; [|split; [|split; [|split]]]]]].
  - intros self [l|]; repeat split.
  - intros self [l|]; repeat split.
  - intros self [d|]; repeat split.
  - intros self addr text. repeat split.
  - intros self copy addr l.
    unfold ptr_dict_add, ptr_dup. destruct (copy =? 0); repeat split.
  - intros ops self Hr. apply (H1 ops self Hr).
  - intros ops self Hr. apply (H2 ops self Hr).
  - intros ops self Hr. apply (H3 ops self Hr).
Qed.

Lemma upsert_null_key_noop_witness :
  run str_dict_step [Adds None one_string; Adds a_key one_string] str_dict_NULL
  = Ret sample_str_dict
  /\ keys_present sample_str_dict.
Proof.
  split; [reflexivity|].
  apply (proj1 (proj2 (proj2 (proj2 (proj2 (proj2 upsert_null_key_noop)))))
           [Adds None one_string; Adds a_key one_string] sample_str_dict).
  reflexivity.
Defined.

(** ** The comparison *)

(** Whatever [strcmp] the library has, [str_cmp] has the sign that it has
    with the comparison of bytes. *)
Lemma str_cmp_with_sign libc_strcmp a b :
  strcmp_conforms libc_strcmp ->
  Z.sgn (str_cmp_with libc_strcmp a b) = Z.sgn (str_cmp a b).
Proof.
  intros H. destruct a as [s1|], b as [s2|]; cbn; try reflexivity. apply H.
Qed.

Lemma str_cmp_with_negative libc_strcmp a b :
  strcmp_conforms libc_strcmp ->
  (str_cmp_with libc_strcmp a b < 0 <-> str_cmp a b < 0).
Proof.
  intros H. rewrite <- !Z.sgn_neg_iff. now rewrite (str_cmp_with_sign _ a b H).
Qed.

(** C4 (amended): with every [strcmp] that the C standard allows, the
    comparison returns an integer whose sign orders the strings: zero for a
    string against itself, opposite signs for the two orders of a pair, and
    "before" is transitive; for two strings that are present it is the
    result of the library's [strcmp], unchanged; a NULL string orders
    behind every string that is present: NULL against a string gives [1],
    a string against NULL gives [-1], NULL against NULL gives [0].  The
    sign is the one of [str_cmp], which compares with the difference of
    bytes. *)
Theorem compare_contract (libc_strcmp : list byte -> list byte -> Z) :
  strcmp_conforms libc_strcmp ->
  let cmp := str_cmp_with libc_strcmp in
  cmp None None = 0
  /\ (forall s, cmp None (Some s) = 1 /\ cmp (Some s) None = -1)
  /\ (forall s1 s2, cmp (Some s1) (Some s2) = libc_strcmp s1 s2)
  /\ (forall a, cmp a a = 0)
  /\ (forall a b, Z.sgn (cmp b a) = - Z.sgn (cmp a b))
  /\ (forall a b c, cmp a b < 0 -> cmp b c < 0 -> cmp a c < 0)
  /\ (forall a b, Z.sgn (cmp a b) = Z.sgn (str_cmp a b))
  /\ (forall a b, str_cmp_with strcmp a b = str_cmp a b).
Proof.
  intros H cmp. unfold cmp.
  split; [reflexivity|]. split; [intros s; split; reflexivity|].
  split; [reflexivity|]. split; [|split; [|split; [|split]]].
  - intros a. apply Z.sgn_null_iff.
    rewrite (str_cmp_with_sign _ a a H), str_cmp_refl. reflexivity.
  - intros a b. rewrite !(str_cmp_with_sign _ _ _ H), str_cmp_antisym.
    apply Z.sgn_opp.
  - intros a b c Hab Hbc.
    apply (str_cmp_with_negative _ _ _ H) in Hab, Hbc.
    apply (str_cmp_with_negative _ _ _ H).
    exact (str_cmp_trans a b c Hab Hbc).
  - intros a b. now apply str_cmp_with_sign.
  - intros a b. reflexivity.
Qed.

Lemma compare_contract_witness :
  strcmp_conforms (fun s1 s2 => Z.sgn (strcmp s1 s2))
  /\ str_cmp_with (fun s1 s2 => Z.sgn (strcmp s1 s2)) a_key c_key = -1
  /\ str_cmp_with (fun s1 s2 => Z.sgn (strcmp s1 s2)) None a_key = 1
  /\ Z.sgn (str_cmp_with (fun s1 s2 => Z.sgn (strcmp s1 s2)) a_key c_key)
     = Z.sgn (str_cmp a_key c_key).
Proof.
  assert (H : strcmp_conforms (fun s1 s2 => Z.sgn (strcmp s1 s2))).
  { intros s1 s2. apply Z.sgn_sgn. }
  split; [exact H|].
  pose proof (compare_contract _ H) as (_ & Hnull & Hlib & _ & _ & _ & Hsign & _).
  split; [exact (Hlib (lit "a"%string) (lit "c"%string))|].
  split; [exact (proj1 (Hnull (lit "a"%string)))|].
  exact (Hsign a_key c_key).
Defined.

(** C4, as stated, fails: NULL against ["a"] is [1], not [-1], and ["a"]
    against NULL is [-1], not [1], with every [strcmp]. *)
Lemma compare_contract_counterexample :
  str_cmp None a_key <> -1
  /\ str_cmp a_key None <> 1
  /\ forall libc_strcmp,
      str_cmp_with libc_strcmp None a_key = 1
      /\ str_cmp_with libc_strcmp a_key None = -1.
Proof.
  split; [discriminate|]. split; [discriminate|].
  intros libc_strcmp. split; reflexivity.
Qed.

(** ** Buffers and strings *)

Lemma is_string_cons c l : is_string (c :: l) -> c <> x00 /\ is_string l.
Proof.
  unfold is_string. simpl. intros H. split; intros H'; apply H; auto.
Qed.

Lemma is_string_app l1 l2 : is_string (l1 ++ l2) <-> is_string l1 /\ is_string l2.
Proof.
  unfold is_string. rewrite in_app_iff. tauto.
Qed.

Lemma is_string_firstn n l : is_string l -> is_string (firstn n l).
Proof. unfold is_string. intros H Hin. apply H. eapply In_firstn; eassumption. Qed.

Lemma is_string_skipn n l : is_string l -> is_string (skipn n l).
Proof. unfold is_string. intros H Hin. apply H. eapply In_skipn; eassumption. Qed.

(** A buffer that holds the bytes of a string and then a terminator holds
    that string, whatever follows. *)
Lemma c_str_spec l rest :
  is_string l -> c_str (map Some l ++ Some x00 :: rest) = Ret l.
Proof.
  induction l as [|c r IH]; intros Hl; simpl; [reflexivity|].
  apply is_string_cons in Hl as [Hc Hr].
  destruct (Byte.eqb c x00) eqn:E.
  - apply Byte.byte_dec_bl in E. contradiction.
  - rewrite (IH Hr). reflexivity.
Qed.

Lemma skipn_repeat {A : Type} (x : A) n m :
  skipn n (repeat x m) = repeat x (m - n).
Proof.
  revert m. induction n as [|n IH]; intros m.
  - now rewrite Nat.sub_0_r.
  - destruct m as [|m]; simpl; [reflexivity|apply IH].
Qed.

Lemma size_malloc n : 0 <= n -> size (malloc n) = n.
Proof. intros H. unfold size, malloc. rewrite repeat_length. lia. Qed.

Lemma size_map {A B : Type} (f : A -> B) l : size (map f l) = size l.
Proof. unfold size. now rewrite length_map. Qed.

Lemma size_block l : size (block l) = size l + 1.
Proof. unfold block. rewrite size_app. reflexivity. Qed.

(** A fresh block of [n + 1] bytes filled with [n] bytes of [src] from
    [off] on and closed by a terminator. *)
Lemma fresh_copy (src : list byte) off n :
  0 <= off -> 0 <= n -> off + n <= size src ->
  (res <- memcpy (malloc (n + 1)) 0 src off n ;; store res n x00)
  = Ret (map Some (firstn (Z.to_nat n) (skipn (Z.to_nat off) src)) ++ [Some x00]).
Proof.
  intros Hoff Hn Hsrc.
  assert (Hlen : length (firstn (Z.to_nat n) (skipn (Z.to_nat off) src))
                 = Z.to_nat n).
  { rewrite length_firstn, length_skipn. unfold size in Hsrc. lia. }
  unfold memcpy. rewrite size_malloc by lia.
  destruct (Z.leb_spec 0 0); [|lia]. destruct (Z.leb_spec 0 off); [|lia].
  destruct (Z.leb_spec 0 n); [|lia].
  destruct (Z.leb_spec (off + n) (size src)); [|lia].
  destruct (Z.leb_spec (0 + n) (n + 1)); [|lia].
  cbn [andb bind firstn Z.to_nat app].
  unfold malloc. rewrite skipn_repeat.
  replace (Z.to_nat (n + 1) - Z.to_nat (0 + n))%nat with 1%nat by lia.
  cbn [repeat]. unfold store.
  set (body := map Some (firstn (Z.to_nat n) (skipn (Z.to_nat off) src))).
  assert (Hbody : length body = Z.to_nat n).
  { unfold body. now rewrite length_map. }
  assert (Hsize : size (body ++ [None]) = n + 1).
  { unfold size. rewrite length_app, Hbody. simpl. lia. }
  rewrite Hsize.
  destruct (Z.leb_spec 0 n); [|lia]. destruct (Z.ltb_spec n (n + 1)); [|lia].
  cbn [andb]. f_equal.
  rewrite firstn_app, skipn_app, Hbody.
  rewrite firstn_all2 by lia. rewrite (skipn_all2 body) by lia.
  replace (Z.to_nat n - Z.to_nat n)%nat with 0%nat by lia.
  replace (S (Z.to_nat n) - Z.to_nat n)%nat with 1%nat by lia.
  cbn [firstn skipn app]. now rewrite app_nil_r.
Qed.

(** ** Cut *)

(** [str_cut] between two indexes inside the string. *)
Lemma str_cut_inside text a b :
  is_string text -> 0 <= a < size text -> a <= b ->
  str_cut (Some text) a b
  = Ret (Some (slice text a (Z.min b (size text)))).
Proof.
  intros Ht Ha Hb. unfold str_cut. cbn [str_len]. fold (size text).
  assert (E1 : (a <? 0) = false) by (apply Z.ltb_ge; lia).
  assert (E2 : (b <? 0) = false) by (apply Z.ltb_ge; lia).
  assert (E3 : (a >=? size text) = false) by (rewrite Z.geb_leb; apply Z.leb_gt; lia).
  assert (E4 : (b <? a) = false) by (apply Z.ltb_ge; lia).
  rewrite !E1, !E2, !E3, !E4. cbn [orb]. cbv zeta.
  destruct (Z.geb_spec b (size text)) as [Hge|Hlt].
  - pose proof (fresh_copy (block text) a (size text + 1 - a)) as Hc.
    rewrite size_block in Hc. specialize (Hc ltac:(lia) ltac:(lia) ltac:(lia)).
    destruct (memcpy (malloc (size text + 1 - a + 1)) 0 (block text) a
                (size text + 1 - a)) as [buf| |]; try discriminate Hc.
    cbn [bind] in *. rewrite Hc. clear Hc. cbn [bind].
    assert (Hsub : firstn (Z.to_nat (size text + 1 - a))
                     (skipn (Z.to_nat a) (block text))
                   = skipn (Z.to_nat a) text ++ [x00]).
    { unfold block. rewrite skipn_app.
      replace (Z.to_nat a - length text)%nat with 0%nat by (unfold size in *; lia).
      cbn [skipn]. apply firstn_all2.
      rewrite length_app, length_skipn. unfold size in *. simpl. lia. }
    rewrite Hsub, map_app, <- app_assoc. cbn [map app].
    rewrite c_str_spec by now apply is_string_skipn.
    cbn [bind]. do 2 f_equal. unfold slice.
    rewrite Z.min_r by lia. symmetry. apply firstn_all2.
    rewrite length_skipn. unfold size. lia.
  - pose proof (fresh_copy (block text) a (b - a)) as Hc.
    rewrite size_block in Hc. specialize (Hc ltac:(lia) ltac:(lia) ltac:(lia)).
    destruct (memcpy (malloc (b - a + 1)) 0 (block text) a (b - a))
      as [buf| |]; try discriminate Hc.
    cbn [bind] in *. rewrite Hc. clear Hc. cbn [bind].
    assert (Hsub : firstn (Z.to_nat (b - a)) (skipn (Z.to_nat a) (block text))
                   = firstn (Z.to_nat (b - a)) (skipn (Z.to_nat a) text)).
    { unfold block. rewrite skipn_app, firstn_app.
      rewrite length_skipn.
      replace (Z.to_nat (b - a) - (length text - Z.to_nat a))%nat with 0%nat
        by (unfold size in *; lia).
      cbn [firstn]. now rewrite app_nil_r. }
    rewrite Hsub.
    rewrite c_str_spec by (apply is_string_firstn; now apply is_string_skipn).
    cbn [bind]. do 2 f_equal. unfold slice. now rewrite Z.min_l by lia.
Qed.

(** The indexes are first counted from the end where they are negative. *)
Lemma str_cut_from_end text a b :
  str_cut (Some text) a b
  = if (from_end (size text) a <? 0) || (from_end (size text) b <? 0)
       || (from_end (size text) a >=? size text)
       || (from_end (size text) b <? from_end (size text) a)
    then Ret (Some [])
    else str_cut (Some text) (from_end (size text) a) (from_end (size text) b).
Proof.
  unfold str_cut. cbn [str_len]. fold (size text).
  fold (from_end (size text) a) (from_end (size text) b).
  set (a' := from_end (size text) a). set (b' := from_end (size text) b).
  destruct ((a' <? 0) || (b' <? 0) || (a' >=? size text) || (b' <? a')) eqn:E;
    [reflexivity|].
  apply orb_false_iff in E as [E E4]. apply orb_false_iff in E as [E E3].
  apply orb_false_iff in E as [E1 E2].
  rewrite !E1, !E2, E3, E4. reflexivity.
Qed.

(** C9: [str_cut] counts a negative start or end from the end of the
    string; a start outside the string, an end before the start and an empty
    range give the empty string; an end behind the last byte stops at the
    last byte; otherwise the bytes from the start up to the end come back.
    So ["hello"] cut at [-3], [-1] is ["ll"], at [1], [100] is ["ello"] and
    at [3], [1] is the empty string. *)
Theorem cut_slice_semantics :
  (forall text a b,
      is_string text ->
      let n := size text in
      let a' := from_end n a in
      let b' := from_end n b in
      str_cut (Some text) a b
      = Ret (Some (if (a' <? 0) || (b' <? 0) || (a' >=? n) || (b' <? a')
                   then []
                   else slice text a' (Z.min b' n))))
  /\ (forall a b, str_cut None a b = Ret None)
  /\ str_cut hello (-3) (-1) = Ret (Some (lit "ll"%string))
  /\ str_cut hello 1 100 = Ret (Some (lit "ello"%string))
  /\ str_cut hello 3 1 = Ret (Some []).
Proof.
  split; [|repeat split; reflexivity].
  intros text a b Ht. cbv zeta. rewrite str_cut_from_end.
  set (a' := from_end (size text) a). set (b' := from_end (size text) b).
  destruct ((a' <? 0) || (b' <? 0) || (a' >=? size text) || (b' <? a')) eqn:E;
    [reflexivity|].
  apply orb_false_iff in E as [E E4]. apply orb_false_iff in E as [E E3].
  apply orb_false_iff in E as [E1 E2].
  apply Z.ltb_ge in E1, E2, E4. rewrite Z.geb_leb in E3. apply Z.leb_gt in E3.
  apply str_cut_inside; [assumption|lia|lia].
Qed.

Lemma cut_slice_semantics_witness :
  is_string (lit "hello"%string)
  /\ str_cut hello (-4) 9 = Ret (Some (lit "ello"%string)).
Proof.
  assert (Hs : is_string (lit "hello"%string)).
  { unfold is_string. cbn. intuition discriminate. }
  split; [exact Hs|].
  exact (proj1 cut_slice_semantics (lit "hello"%string) (-4) 9 Hs).
Defined.

(** ** Tokens and fields *)

Lemma fields_not_nil d s : fields d s <> [].
Proof.
  destruct s as [|c r]; simpl; [discriminate|].
  destruct (Byte.eqb c d); [discriminate|].
  destruct (fields d r); discriminate.
Qed.

Lemma eqb_refl c : Byte.eqb c c = true.
Proof. now apply Byte.byte_dec_lb. Qed.

Lemma eqb_neq c d : c <> d -> Byte.eqb c d = false.
Proof.
  intros H. destruct (Byte.eqb c d) eqn:E; [|reflexivity].
  apply Byte.byte_dec_bl in E. contradiction.
Qed.

(** The first field is the longest prefix without a delimiter. *)
Lemma fields_run d s :
  let k := run_length (fun c => negb (Byte.eqb c d)) s in
  fields d s
  = match skipn k s with
    | [] => [firstn k s]
    | _ :: rest => firstn k s :: fields d rest
    end.
Proof.
  induction s as [|c r IH]; cbn [run_length fields]; [reflexivity|].
  destruct (Byte.eqb c d); cbn [negb]; [reflexivity|].
  cbv zeta in IH. rewrite IH. cbn [skipn firstn].
  destruct (skipn _ r); reflexivity.
Qed.

Lemma tokens_delim d r : tokens d (d :: r) = tokens d r.
Proof. unfold tokens. cbn [fields]. now rewrite eqb_refl. Qed.

(** Leading delimiters bring no token. *)
Lemma tokens_skip d s :
  tokens d s = tokens d (skipn (run_length (fun c => Byte.eqb c d) s) s).
Proof.
  induction s as [|c r IH]; cbn [run_length]; [reflexivity|].
  destruct (Byte.eqb c d) eqn:E; [|reflexivity].
  apply Byte.byte_dec_bl in E. subst c. cbn [skipn]. now rewrite tokens_delim.
Qed.

(** A string that starts with a byte other than the delimiter starts with
    a token, which ends at the next delimiter or at the end. *)
Lemma tokens_run d c r :
  c <> d ->
  let k := run_length (fun c => negb (Byte.eqb c d)) (c :: r) in
  tokens d (c :: r)
  = firstn k (c :: r)
      :: match skipn k (c :: r) with
         | [] => []
         | _ :: rest => tokens d rest
         end.
Proof.
  intros Hc k. unfold tokens. rewrite (fields_run d (c :: r)). fold k.
  assert (Hk : exists k', k = S k').
  { unfold k. cbn [run_length]. rewrite (eqb_neq c d Hc). cbn [negb]. eauto. }
  destruct Hk as [k' ->]. cbn [firstn skipn].
  destruct (skipn k' r); reflexivity.
Qed.

Lemma run_length_le p l : (run_length p l <= length l)%nat.
Proof.
  induction l as [|c r IH]; simpl; [lia|]. destruct (p c); simpl; lia.
Qed.

Lemma run_length_stop p l :
  match skipn (run_length p l) l with
  | [] => True
  | c :: _ => p c = false
  end.
Proof.
  induction l as [|c r IH]; simpl; [exact I|].
  destruct (p c) eqn:E; simpl; assumption.
Qed.

(** ** The loops of [str_split] *)

Lemma char_at_middle pre c suf :
  char_at (Some (pre ++ c :: suf)) (size pre) = Some c.
Proof.
  unfold char_at, block, data_at, size.
  destruct (Z.ltb_spec (Z.of_nat (length pre)) 0); [lia|].
  rewrite Nat2Z.id, <- app_assoc. rewrite nth_error_app2 by lia.
  now rewrite Nat.sub_diag.
Qed.

Lemma size_snoc {A : Type} (l : list A) x : size (l ++ [x]) = size l + 1.
Proof. rewrite size_app. reflexivity. Qed.

Section SplitLoops.
Variable d : byte.

Lemma inner_loop_spec (p : byte -> bool)
    (loop : nat -> str_t -> byte -> Z -> Z -> outcome Z) :
  (forall fuel text n x,
      loop (S fuel) text d n x
      = if x <? n then
          match char_at text x with
          | None => Undefined
          | Some c => if negb (p c) then Ret x else loop fuel text d n (x + 1)
          end
        else Ret x) ->
  forall suf pre fuel n,
    n = size pre + size suf ->
    (length suf < fuel)%nat ->
    loop fuel (Some (pre ++ suf)) d n (size pre)
    = Ret (size pre + Z.of_nat (run_length p suf)).
Proof.
  intros Hloop. induction suf as [|c r IH]; intros pre fuel n Hn Hfuel;
    (destruct fuel as [|fuel]; [simpl in Hfuel; lia|]); rewrite Hloop.
  - cbn in Hn. destruct (Z.ltb_spec (size pre) n); [lia|].
    simpl. f_equal. lia.
  - rewrite size_cons in Hn. pose proof (size_nonneg r).
    destruct (Z.ltb_spec (size pre) n); [|lia].
    rewrite char_at_middle. cbn [run_length].
    destruct (p c); cbn [negb]; [|f_equal; lia].
    replace (pre ++ c :: r) with ((pre ++ [c]) ++ r)
      by (now rewrite <- app_assoc).
    rewrite <- (size_snoc pre c).
    rewrite IH; [f_equal; rewrite size_snoc; lia| |simpl in Hfuel; lia].
    rewrite size_snoc. lia.
Qed.
End SplitLoops.

Lemma skip_delim_spec d text suf pre fuel :
  text = pre ++ suf -> (length suf < fuel)%nat ->
  skip_delim fuel (Some text) d (size text) (size pre)
  = Ret (size pre + Z.of_nat (run_length (fun c => Byte.eqb c d) suf)).
Proof.
  intros -> Hfuel.
  apply (inner_loop_spec d (fun c => Byte.eqb c d) skip_delim);
    [reflexivity|apply size_app|assumption].
Qed.

Lemma scan_token_spec d text suf pre fuel :
  text = pre ++ suf -> (length suf < fuel)%nat ->
  scan_token fuel (Some text) d (size text) (size pre)
  = Ret (size pre + Z.of_nat (run_length (fun c => negb (Byte.eqb c d)) suf)).
Proof.
  intros -> Hfuel.
  apply (inner_loop_spec d (fun c => negb (Byte.eqb c d)) scan_token);
    [|apply size_app|assumption].
  intros fuel' text n x. cbn [scan_token].
  destruct (x <? n); [|reflexivity].
  destruct (char_at text x) as [c|]; [|reflexivity].
  now rewrite negb_involutive.
Qed.

Lemma slice_middle (pre suf : list byte) k :
  slice (pre ++ suf) (size pre) (size pre + Z.of_nat k) = firstn k suf.
Proof.
  unfold slice, size. rewrite Nat2Z.id.
  replace (Z.to_nat (Z.of_nat (length pre) + Z.of_nat k - Z.of_nat (length pre)))
    with k by lia.
  rewrite skipn_app, Nat.sub_diag, skipn_all. reflexivity.
Qed.

(** The outer loop of [str_split] appends the tokens of what is left of
    the text. *)
Lemma str_split_loop_spec d : forall fuel suf pre res text,
  text = pre ++ suf -> is_string text -> (length suf < fuel)%nat ->
  str_split_loop fuel (Some text) d (size text) (size pre) res
  = Ret (res ++ map Some (tokens d suf)).
Proof.
  induction fuel as [|fuel IH]; intros suf pre res text Htext Hstr Hfuel;
    [lia|].
  assert (Hn : size text = size pre + size suf) by (subst; apply size_app).
  pose proof (size_nonneg suf) as Hsuf. pose proof (size_nonneg pre) as Hpre.
  cbn [str_split_loop].
  destruct (Nat.eq_dec (length suf) 0) as [Hempty|Hfull].
  { apply length_zero_iff_nil in Hempty. subst suf. cbn in Hn.
    destruct (Z.ltb_spec (size pre) (size text)); [lia|].
    cbn. now rewrite app_nil_r. }
  destruct (Z.ltb_spec (size pre) (size text));
    [|unfold size in *; lia].
  rewrite (skip_delim_spec d text suf pre)
    by (try assumption; unfold size in *; lia).
  cbn [bind].
  set (k1 := run_length (fun c => Byte.eqb c d) suf).
  pose proof (run_length_le (fun c => Byte.eqb c d) suf) as Hk1. fold k1 in Hk1.
  pose proof (run_length_stop (fun c => Byte.eqb c d) suf) as Hstop1.
  fold k1 in Hstop1.
  rewrite (tokens_skip d suf). fold k1.
  assert (Hsplit1 : suf = firstn k1 suf ++ skipn k1 suf)
    by (symmetry; apply firstn_skipn).
  assert (Hlen1 : length (firstn k1 suf) = k1) by (rewrite length_firstn; lia).
  assert (Hlens : length suf = (k1 + length (skipn k1 suf))%nat)
    by (rewrite length_skipn; lia).
  destruct (skipn k1 suf) as [|c1 r1] eqn:Hsuf1.
  { assert (size pre + Z.of_nat k1 = size text)
      by (unfold size in *; simpl length in *; lia).
    destruct (Z.eqb_spec (size pre + Z.of_nat k1) (size text)); [|lia].
    cbn. now rewrite app_nil_r. }
  assert (Hc1 : c1 <> d).
  { intros ->. now rewrite eqb_refl in Hstop1. }
  destruct (Z.eqb_spec (size pre + Z.of_nat k1) (size text)) as [Heq|_].
  { exfalso. unfold size in *. simpl length in *. lia. }
  set (pre1 := pre ++ firstn k1 suf).
  assert (Hpre1 : size pre + Z.of_nat k1 = size pre1).
  { unfold pre1. rewrite size_app. unfold size. now rewrite Hlen1. }
  assert (Htext1 : text = pre1 ++ c1 :: r1).
  { unfold pre1. rewrite <- app_assoc, <- Hsplit1. assumption. }
  rewrite Hpre1.
  rewrite (scan_token_spec d text (c1 :: r1) pre1)
    by (try assumption; unfold size in *; simpl length in *; lia).
  cbn [bind].
  set (k2 := run_length (fun c => negb (Byte.eqb c d)) (c1 :: r1)).
  pose proof (run_length_le (fun c => negb (Byte.eqb c d)) (c1 :: r1)) as Hk2.
  fold k2 in Hk2.
  pose proof (run_length_stop (fun c => negb (Byte.eqb c d)) (c1 :: r1)) as Hstop2.
  fold k2 in Hstop2.
  assert (Hk2pos : (1 <= k2)%nat).
  { unfold k2. cbn [run_length]. rewrite (eqb_neq c1 d Hc1). cbn. lia. }
  rewrite (tokens_run d c1 r1 Hc1). fold k2.
  assert (Hsize1 : size text = size pre1 + Z.of_nat (length (c1 :: r1))).
  { rewrite Htext1, size_app. reflexivity. }
  rewrite (str_cut_inside text (size pre1) (size pre1 + Z.of_nat k2) Hstr)
    by (pose proof (size_nonneg pre1); lia).
  cbn [bind].
  rewrite Z.min_l by lia.
  assert (Hslice : slice text (size pre1) (size pre1 + Z.of_nat k2)
                   = firstn k2 (c1 :: r1)).
  { rewrite Htext1. apply slice_middle. }
  rewrite Hslice.
  set (tok := firstn k2 (c1 :: r1)).
  assert (Hlen2 : length tok = k2) by (unfold tok; rewrite length_firstn; lia).
  assert (Hsplit2 : c1 :: r1 = tok ++ skipn k2 (c1 :: r1))
    by (symmetry; apply firstn_skipn).
  assert (Hlens2 : length (c1 :: r1) = (k2 + length (skipn k2 (c1 :: r1)))%nat)
    by (rewrite length_skipn; lia).
  unfold str_list_adds.
  destruct (skipn k2 (c1 :: r1)) as [|c2 r2] eqn:Hrest.
  - destruct fuel as [|fuel]; [exfalso; lia|].
    cbn [str_split_loop].
    destruct (Z.ltb_spec (size pre1 + Z.of_nat k2 + 1) (size text));
      [exfalso; cbn [length] in Hlens2, Hsize1; lia|].
    reflexivity.
  - set (pre2 := pre1 ++ tok ++ [c2]).
    assert (Hpre2 : size pre1 + Z.of_nat k2 + 1 = size pre2).
    { unfold pre2. rewrite !size_app. unfold size. rewrite Hlen2. simpl. lia. }
    assert (Htext2 : text = pre2 ++ r2).
    { unfold pre2. rewrite Htext1, Hsplit2. now rewrite <- !app_assoc. }
    rewrite Hpre2.
    rewrite (IH r2 pre2 _ text Htext2 Hstr)
      by (unfold size in *; simpl length in *; lia).
    now rewrite <- app_assoc.
Qed.

Lemma str_split_tokens d text :
  is_string text -> str_split (Some text) d = Ret (map Some (tokens d text)).
Proof.
  intros Hstr. unfold str_split. cbn [str_len]. fold (size text).
  change 0 with (size (@nil byte)).
  rewrite (str_split_loop_spec d _ text [] str_list_NULL text);
    [reflexivity|reflexivity|assumption|].
  unfold size. lia.
Qed.

(** ** Join *)

Lemma total_length ps : forall z,
  fold_left (fun acc s => acc + str_len s) (map Some ps) z
  = z + size (concat ps).
Proof.
  induction ps as [|l r IH]; intros z; cbn [map fold_left concat].
  - cbn. lia.
  - rewrite IH, size_app. cbn [str_len]. unfold size. lia.
Qed.

Lemma size_concat_nonneg (ps : list (list byte)) : 0 <= size (concat ps).
Proof. apply size_nonneg. Qed.

Lemma size_repeat {A : Type} (x : A) n : size (repeat x n) = Z.of_nat n.
Proof. unfold size. now rewrite repeat_length. Qed.

(** The copy loop writes the strings one behind the other; the byte behind
    them is a terminator as soon as one string was copied. *)
Lemma str_copy_loop_spec ps : forall w t m,
  size (concat ps) <= m ->
  str_copy_loop (map Some w ++ t :: repeat None (Z.to_nat m)) (size w) (map Some ps)
  = Ret (map Some (w ++ concat ps)
           ++ match ps with [] => t | _ :: _ => Some x00 end
           :: repeat None (Z.to_nat (m - size (concat ps)))).
Proof.
  induction ps as [|l r IH]; intros w t m Hm; cbn [map str_copy_loop concat].
  - rewrite app_nil_r. cbn. now rewrite Z.sub_0_r.
  - cbn [concat] in Hm. rewrite size_app in Hm.
    pose proof (size_nonneg (concat r)).
    pose proof (size_nonneg l). pose proof (size_nonneg w).
    unfold str_cpy, memcpy.
    rewrite size_block, size_app, size_map, size_cons, size_repeat.
    destruct (Z.leb_spec 0 (size w)); [|lia].
    destruct (Z.leb_spec 0 0); [|lia].
    destruct (Z.leb_spec 0 (size l + 1)); [|lia].
    destruct (Z.leb_spec (0 + (size l + 1)) (size l + 1)); [|lia].
    destruct (Z.leb_spec (size w + (size l + 1))
                (size w + (1 + Z.of_nat (Z.to_nat m)))); [|lia].
    cbn [andb bind skipn Z.to_nat].
    assert (Hw : length (map Some w) = Z.to_nat (size w)).
    { rewrite length_map. unfold size. lia. }
    rewrite firstn_app, <- Hw, firstn_all, Nat.sub_diag. cbn [firstn].
    rewrite app_nil_r.
    rewrite firstn_all2 by (unfold block, size; rewrite length_app; simpl; lia).
    rewrite skipn_app.
    rewrite (skipn_all2 (map Some w)) by (unfold size in *; lia).
    replace (Z.to_nat (size w + (size l + 1)) - length (map Some w))%nat
      with (S (Z.to_nat (size l))) by (unfold size in *; lia).
    cbn [skipn app]. rewrite skipn_repeat.
    replace (Z.to_nat m - Z.to_nat (size l))%nat with (Z.to_nat (m - size l))
      by lia.
    unfold block. rewrite map_app. cbn [map str_len].
    replace (map Some w ++ (map Some l ++ [Some x00]) ++ repeat None (Z.to_nat (m - size l)))
      with (map Some (w ++ l) ++ Some x00 :: repeat None (Z.to_nat (m - size l)))
      by (rewrite map_app, <- !app_assoc; reflexivity).
    fold (size l). rewrite <- size_app.
    rewrite IH by lia.
    rewrite <- app_assoc, (size_app l (concat r)).
    replace (m - size l - size (concat r)) with (m - (size l + size (concat r)))
      by lia.
    destruct r; reflexivity.
Qed.

Lemma str_copy_str_list_spec ps :
  str_copy_str_list (map Some ps)
  = Ret (map Some (concat ps)
           ++ [match ps with [] => None | _ :: _ => Some x00 end]).
Proof.
  unfold str_copy_str_list. rewrite total_length. cbn [Z.add].
  pose proof (size_nonneg (concat ps)).
  replace (malloc (size (concat ps) + 1))
    with (map Some (@nil byte) ++ None :: repeat None (Z.to_nat (size (concat ps)))).
  - change 0 with (size (@nil byte)).
    rewrite str_copy_loop_spec by lia.
    rewrite Z.sub_diag. cbn [Z.to_nat repeat app]. reflexivity.
  - unfold malloc. cbn [map app].
    replace (Z.to_nat (size (concat ps) + 1))
      with (S (Z.to_nat (size (concat ps)))) by lia.
    reflexivity.
Qed.

Lemma str_list_join_loop_spec ds toks : forall acc,
  str_list_join_loop acc (map Some toks) (Some ds)
  = acc ++ map Some (pieces (size acc =? 0) ds toks).
Proof.
  induction toks as [|t r IH]; intros acc; cbn [map str_list_join_loop pieces].
  - now rewrite app_nil_r.
  - cbn [is_null negb str_dup]. rewrite IH.
    assert (Hne : forall l : str_list_t, (size (l ++ [Some t]) =? 0) = false).
    { intros l. rewrite size_snoc. pose proof (size_nonneg l).
      apply Z.eqb_neq. lia. }
    rewrite Hne.
    destruct (size acc =? 0); cbn [negb app map];
      rewrite <- !app_assoc; reflexivity.
Qed.

Lemma concat_pieces ds t r :
  concat (pieces true ds (t :: r)) = joined ds (t :: r).
Proof.
  revert t. induction r as [|t' r IH]; intros t.
  - cbn. now rewrite app_nil_r.
  - cbn [pieces app concat joined] in *. now rewrite IH.
Qed.

Lemma is_string_joined ds ps :
  is_string ds -> Forall is_string ps -> is_string (joined ds ps).
Proof.
  intros Hds Hps. induction Hps as [|p r Hp Hr IH]; cbn [joined].
  - intros [].
  - destruct r; [assumption|].
    apply is_string_app. split; [assumption|].
    apply is_string_app. split; assumption.
Qed.

(** [str_list_join] of parts that exist, of which there is at least one. *)
Lemma str_list_join_parts ds t r :
  is_string ds -> Forall is_string (t :: r) ->
  str_list_join (map Some (t :: r)) (Some ds) = Ret (Some (joined ds (t :: r))).
Proof.
  intros Hds Hps. unfold str_list_join.
  rewrite (str_list_join_loop_spec ds (t :: r) []).
  cbn [size length Z.of_nat Z.eqb app].
  rewrite str_copy_str_list_spec. cbn [bind].
  rewrite concat_pieces.
  assert (Hne : exists p ps, pieces true ds (t :: r) = p :: ps).
  { cbn. eauto. }
  destruct Hne as (p & ps & ->).
  rewrite c_str_spec by now apply is_string_joined.
  reflexivity.
Qed.

(** Without a part nothing is copied: the byte of the block stays as
    [malloc] left it. *)
Lemma str_list_join_nothing delim : str_list_join [] delim = Undefined.
Proof. reflexivity. Qed.

(** ** Split and join *)

Lemma joined_fields d s : joined [d] (fields d s) = s.
Proof.
  induction s as [|c r IH]; cbn [fields]; [reflexivity|].
  pose proof (fields_not_nil d r) as Hne.
  destruct (Byte.eqb c d) eqn:E.
  - apply Byte.byte_dec_bl in E. subst c. cbn [joined].
    destruct (fields d r) as [|f fs]; [contradiction|].
    rewrite IH. reflexivity.
  - destruct (fields d r) as [|f fs]; [contradiction|].
    cbn [joined] in *. destruct fs; rewrite <- IH; reflexivity.
Qed.

Lemma fields_no_delim d s : ~ In d s -> fields d s = [s].
Proof.
  induction s as [|c r IH]; intros Hd; cbn [fields]; [reflexivity|].
  rewrite eqb_neq by (intros ->; apply Hd; now left).
  rewrite IH by (intros H; apply Hd; now right). reflexivity.
Qed.

Lemma is_string_char_string d : is_string (char_string d).
Proof.
  unfold char_string, is_string. destruct (Byte.eqb d x00) eqn:E; [intros []|].
  intros [->|[]]. now rewrite eqb_refl in E.
Qed.

Lemma joined_char_fields d s :
  is_string s -> joined (char_string d) (fields d s) = s.
Proof.
  intros Hs. unfold char_string. destruct (Byte.eqb d x00) eqn:E.
  - apply Byte.byte_dec_bl in E. subst d. now rewrite fields_no_delim.
  - apply joined_fields.
Qed.

(** The bytes of every field are bytes of the string, and none of them is
    the delimiter. *)
Lemma fields_bytes d s :
  Forall (fun f => (forall c, In c f -> In c s) /\ ~ In d f) (fields d s).
Proof.
  induction s as [|c r IH]; cbn [fields].
  - constructor; [|constructor]. split; [trivial|intros []].
  - destruct (Byte.eqb c d) eqn:E.
    + constructor.
      * split; [intros ? []|intros []].
      * eapply Forall_impl; [|exact IH]. cbn. intros f [H1 H2].
        split; [|assumption]. intros x Hx. right. auto.
    + pose proof (fields_not_nil d r) as Hne.
      destruct (fields d r) as [|f fs]; [contradiction|].
      inversion IH as [|? ? [Hf1 Hf2] Hfs]; subst. constructor.
      * split.
        -- intros x [<-|Hx]; [now left|right; auto].
        -- intros [<-|Hx]; [now rewrite eqb_refl in E|contradiction].
      * eapply Forall_impl; [|exact Hfs]. cbn. intros g [H1 H2].
        split; [|assumption]. intros x Hx. right. auto.
Qed.

(** The tokens are not empty, hold no delimiter and are made of bytes of
    the string. *)
Lemma tokens_bytes d s :
  Forall (fun t => t <> [] /\ ~ In d t /\ forall c, In c t -> In c s)
    (tokens d s).
Proof.
  unfold tokens. apply Forall_forall. intros t Ht.
  apply filter_In in Ht as [Hin Hne].
  pose proof (fields_bytes d s) as Hf. rewrite Forall_forall in Hf.
  destruct (Hf t Hin) as [H1 H2].
  split; [|split; assumption]. intros ->. discriminate Hne.
Qed.

Lemma tokens_is_string d s : is_string s -> Forall is_string (tokens d s).
Proof.
  intros Hs. eapply Forall_impl; [|apply tokens_bytes].
  cbn. intros t (_ & _ & Hsub) Hin. apply Hs. auto.
Qed.

(** In a string without leading, trailing and doubled delimiters no field
    is empty. *)
Lemma fields_tidy d : forall n s c,
  (length s <= n)%nat -> c <> d ->
  no_trailing d (c :: s) -> no_doubled d (c :: s) ->
  Forall (fun f => negb (is_empty f) = true) (fields d (c :: s)).
Proof.
  induction n as [|n IH]; intros s c Hn Hc Ht Hd.
  - destruct s; [|simpl in Hn; lia]. cbn [fields]. rewrite (eqb_neq c d Hc).
    repeat constructor.
  - destruct s as [|c2 r2].
    { cbn [fields]. rewrite (eqb_neq c d Hc). repeat constructor. }
    cbn [fields] in *. rewrite (eqb_neq c d Hc).
    cbn [no_trailing] in Ht. cbn [no_doubled] in Hd. destruct Hd as [Hd1 Hd2].
    destruct (Byte.eqb c2 d) eqn:E2.
    + apply Byte.byte_dec_bl in E2. subst c2.
      constructor; [reflexivity|].
      destruct r2 as [|c3 r3]; [exfalso; now apply Ht|].
      destruct Hd2 as [Hd2 Hd3].
      assert (Hc3 : c3 <> d) by (intros ->; apply Hd2; auto).
      apply (IH r3 c3); [simpl in Hn; lia|assumption|exact Ht|exact Hd3].
    + assert (Hc2 : c2 <> d) by (intros ->; now rewrite eqb_refl in E2).
      pose proof (IH r2 c2 ltac:(simpl in Hn; lia) Hc2 Ht Hd2) as Hall.
      cbn [fields] in Hall. rewrite E2 in Hall.
      pose proof (fields_not_nil d r2) as Hne.
      destruct (fields d r2) as [|f fs]; [contradiction|].
      inversion Hall; subst. constructor; [reflexivity|assumption].
Qed.

Lemma filter_all {A : Type} (p : A -> bool) l :
  Forall (fun x => p x = true) l -> filter p l = l.
Proof.
  induction 1 as [|x r Hx Hr IH]; cbn [filter]; [reflexivity|].
  now rewrite Hx, IH.
Qed.

Lemma tokens_tidy d s : s <> [] -> tidy d s -> tokens d s = fields d s.
Proof.
  intros Hne (Hl & Ht & Hd). destruct s as [|c r]; [contradiction|].
  unfold tokens. apply filter_all.
  apply (fields_tidy d (length r) r c); [lia|exact Hl|exact Ht|exact Hd].
Qed.

(** Splitting and joining again gives back a string that is not empty and
    has no leading, trailing or doubled delimiter. *)
Lemma split_join_tidy s d :
  is_string s -> s <> [] -> tidy d s -> split_join s d = Ret (Some s).
Proof.
  intros Hs Hne Ht. unfold split_join.
  rewrite (str_split_tokens d s Hs). cbn [bind].
  pose proof (tokens_is_string d s Hs) as Htoks.
  rewrite (tokens_tidy d s Hne Ht) in *.
  pose proof (fields_not_nil d s) as Hf.
  destruct (fields d s) as [|t r] eqn:E; [contradiction|].
  rewrite (str_list_join_parts _ t r (is_string_char_string d) Htoks).
  rewrite <- E, joined_char_fields by assumption. reflexivity.
Qed.

(** The empty string splits into no part, and the join of no part returns
    a block that was never written. *)
Lemma split_join_empty d : split_join [] d = Undefined.
Proof. reflexivity. Qed.

(** C8 (the code departs from it): [str_split] returns the non-empty
    maximal runs of bytes other than the delimiter, in order, and joining
    them with the delimiter gives back every string that is not empty and
    has no leading, trailing or doubled delimiter; but for the empty string,
    which has none either, the join of the empty list returns a block of
    which no byte was written, not the empty string. *)
Theorem split_join_round_trip :
  (forall s d,
      is_string s ->
      str_split (Some s) d = Ret (map Some (tokens d s))
      /\ Forall (fun t => t <> [] /\ ~ In d t) (tokens d s))
  /\ (forall s d,
         is_string s -> s <> [] -> tidy d s -> split_join s d = Ret (Some s))
  /\ (forall d, tidy d [] /\ split_join [] d = Undefined).
Proof.
  split; [|split].
  - intros s d Hs. split; [now apply str_split_tokens|].
    eapply Forall_impl; [|apply tokens_bytes]. cbn. tauto.
  - apply split_join_tidy.
  - intros d. split; [repeat split|reflexivity].
Qed.

Lemma split_join_round_trip_witness :
  is_string (lit "a,bc"%string) /\ lit "a,bc"%string <> [] /\
  tidy comma (lit "a,bc"%string) /\
  split_join (lit "a,bc"%string) comma = Ret (Some (lit "a,bc"%string)).
Proof.
  assert (Hs : is_string (lit "a,bc"%string)).
  { unfold is_string. cbn. intuition discriminate. }
  assert (Hne : lit "a,bc"%string <> []) by discriminate.
  assert (Ht : tidy comma (lit "a,bc"%string)).
  { unfold tidy. cbn. intuition discriminate. }
  split; [exact Hs|]. split; [exact Hne|]. split; [exact Ht|].
  exact (proj1 (proj2 split_join_round_trip) _ comma Hs Hne Ht).
Defined.

(** * More properties *)

(** ** The searches on any array *)

(** X1: on every array, sorted or not, the two binary searches stop and
    read only slots of the array: the exact search returns [-1] or the index
    of a slot whose key compares equal to the key sought, the search for the
    insertion point returns an index between [0] and [size]. *)
Theorem searches_stay_in_bounds (V : Type) (self : list (dict_entry V))
    (k : str_t) :
  (exists i,
      dict_find self k = Ret i
      /\ (i = -1
          \/ exists ent, data_at self i = Some ent /\ str_cmp k (key ent) = 0))
  /\ (exists pos, dict_find_pos self k = Ret pos /\ 0 <= pos <= size self).
Proof.
  split; [|apply dict_find_pos_total].
  unfold dict_find. destruct (Z.eqb_spec (size self) 0) as [Hz|Hnz].
  - exists (-1). auto.
  - destruct (search_starts self k Hnz) as (v & -> & Hv).
    destruct v as [c|c|c]; cbn [bind]; eauto.
Qed.

(** ** Upserts on any array *)

Lemma insert_at_present {V : Type} (self : list (dict_entry V)) pos ent :
  0 <= pos <= size self ->
  exists self',
    insert_at self pos ent = Ret self'
    /\ In ent self' /\ size self' = size self + 1.
Proof.
  intros Hr. unfold insert_at.
  destruct (Z.leb_spec 0 pos); [|lia].
  destruct (Z.leb_spec pos (size self)); [|lia]. cbn [andb].
  eexists. split; [reflexivity|]. split.
  - apply in_or_app. right. now left.
  - transitivity (size (firstn (Z.to_nat pos) self ++ skipn (Z.to_nat pos) self) + 1).
    + rewrite !size_app, size_cons. lia.
    + now rewrite firstn_skipn.
Qed.

Lemma update_at_present {V : Type} (self : list (dict_entry V)) pos ent f :
  data_at self pos = Some ent ->
  exists self',
    update_at self pos f = Ret self'
    /\ In {| key := key ent; value := f (value ent) |} self'
    /\ size self' = size self.
Proof.
  intros Hent. unfold update_at. rewrite Hent.
  eexists. split; [reflexivity|]. split.
  - apply in_or_app. right. now left.
  - pose proof (update_keys self pos ent (f (value ent)) Hent) as Hk.
    apply (f_equal (@length _)) in Hk. unfold keys in Hk.
    rewrite !length_map in Hk. unfold size. now rewrite Hk.
Qed.

(** The steps behind the test for a NULL key never fail, whatever the
    array holds. *)
Lemma upsert_steps_total {V : Type} (self : list (dict_entry V)) k
    (on_found : V -> V) (fresh : V) :
  exists self',
    (pos <- dict_find_pos self k ;;
     found <- key_found self pos k ;;
     if found then update_at self pos on_found
     else insert_at self pos {| key := str_dup k; value := fresh |})
    = Ret self'
    /\ present self' k
    /\ (size self' = size self \/ size self' = size self + 1).
Proof.
  destruct (dict_find_pos_total self k) as (pos & -> & Hr). cbn [bind].
  unfold key_found. destruct (Z.ltb_spec pos (size self)) as [Hlt|Hge].
  - destruct (data_at_in_range self pos ltac:(lia)) as [ent Hent].
    rewrite Hent. cbn [bind]. unfold str_equal.
    destruct (Z.eqb_spec (str_cmp (key ent) k) 0) as [Hz|Hnz].
    + destruct (update_at_present self pos ent on_found Hent)
        as (self' & -> & Hin & Hsz).
      exists self'. split; [reflexivity|]. split; [|now left].
      eexists. split; [exact Hin|exact Hz].
    + destruct (insert_at_present self pos {| key := str_dup k; value := fresh |} Hr)
        as (self' & -> & Hin & Hsz).
      exists self'. split; [reflexivity|]. split; [|now right].
      eexists. split; [exact Hin|]. cbn [key]. rewrite str_dup_id.
      apply str_cmp_refl.
  - cbn [bind].
    destruct (insert_at_present self pos {| key := str_dup k; value := fresh |} Hr)
      as (self' & -> & Hin & Hsz).
    exists self'. split; [reflexivity|]. split; [|now right].
    eexists. split; [exact Hin|]. cbn [key]. rewrite str_dup_id.
    apply str_cmp_refl.
Qed.

(** X2: an upsert with a key that is not NULL (and, for the nested
    dictionaries, a value that exists) returns on every array, sorted or
    not; afterwards the key is present, and the size is the old one or one
    more. *)
Theorem upserts_never_fail :
  (forall (self : str_dict_t) s v,
      exists self',
        str_dict_adds self (Some s) v = Ret self'
        /\ present self' (Some s)
        /\ (size self' = size self \/ size self' = size self + 1))
  /\ (forall (self : str_list_dict_t) s l,
         exists self',
           str_list_dict_adds self (Some s) (Some l) = Ret self'
           /\ present self' (Some s)
           /\ (size self' = size self \/ size self' = size self + 1))
  /\ (forall (self : str_list_dict_dict_t) s d,
         exists self',
           str_list_dict_dict_adds self (Some s) (Some d) = Ret self'
           /\ present self' (Some s)
           /\ (size self' = size self \/ size self' = size self + 1)).
Proof.
  split; [|split].
  - intros self s v. apply upsert_steps_total.
  - intros self s l.
    exact (upsert_steps_total self (Some s)
             (fun old => str_list_adds_all old (Some l)) l).
  - intros self s d.
    exact (upsert_steps_total self (Some s)
             (fun old => fst (str_list_dict_sets old (Some d))) d).
Qed.

(** ** Membership and lookup *)

Lemma dict_get_equal_keys {V : Type} (self : list (dict_entry V)) k k' :
  str_cmp k' k = 0 -> dict_get self k = dict_get self k'.
Proof.
  intros Hz. induction self as [|ent r IH]; cbn [dict_get]; [reflexivity|].
  rewrite (str_cmp_eq_compat_r (key ent) k' k Hz), IH. reflexivity.
Qed.

Lemma dict_find_contains {V : Type} (self : list (dict_entry V)) k :
  ascending self ->
  (pos <- dict_find self k ;; Ret (pos >=? 0))
  = Ret (match dict_get self k with Some _ => true | None => false end).
Proof.
  intros Hs.
  destruct (dict_find_cases self k Hs)
    as [(c & ec & -> & Hc & Hzc & _)|[-> Habs]]; cbn [bind].
  - rewrite (sorted_get self k Hs c ec Hc Hzc).
    apply data_at_Some in Hc. destruct (Z.geb_spec c 0); [reflexivity|lia].
  - now rewrite (dict_get_not_present self k Habs).
Qed.

(** X3: in a dictionary whose keys are ascending, the membership test by
    binary search says yes exactly for the keys that the linear lookup
    finds, in the flat, the nested and the pointer dictionaries. *)
Theorem contains_agrees_with_get :
  (forall (self : str_dict_t) k,
      ascending self ->
      str_dict_contains self k
      = Ret (match dict_get self k with Some _ => true | None => false end))
  /\ (forall (self : str_list_dict_t) k,
         ascending self ->
         str_list_dict_contains self k
         = Ret (match str_list_dict_get self k with
                | Some _ => true
                | None => false
                end))
  /\ (forall (self : str_list_dict_dict_t) k,
         ascending self ->
         str_list_dict_dict_contains self k
         = Ret (match str_list_dict_dict_get self k with
                | Some _ => true
                | None => false
                end))
  /\ (forall (self : ptr_dict_t) k,
         ascending self ->
         ptr_dict_contains self k
         = Ret (match dict_get self k with Some _ => true | None => false end)).
Proof.
  repeat split; intros self k Hs; apply dict_find_contains; assumption.
Qed.

Lemma contains_agrees_with_get_witness :
  ascending sample_list_dict
  /\ str_list_dict_contains sample_list_dict svc_key = Ret true
  /\ str_list_dict_contains sample_list_dict net_key = Ret false.
Proof.
  assert (Hs : ascending sample_list_dict) by repeat constructor.
  split; [exact Hs|]. split.
  - exact (proj1 (proj2 contains_agrees_with_get) sample_list_dict svc_key Hs).
  - exact (proj1 (proj2 contains_agrees_with_get) sample_list_dict net_key Hs).
Defined.

(** X4: in a string dictionary whose keys are ascending, after the upsert
    of a key with a value, both not NULL, the lookup of the key returns the
    value and the membership test says yes, while lookup and membership of
    every other key are as before.  A NULL value upserted at a key that was
    not there is stored: the key is a member, and the lookup returns NULL
    as for a key that is missing. *)
Theorem upsert_then_lookup (self : str_dict_t) (s x : list byte) :
  ascending self ->
  (exists self',
      str_dict_adds self (Some s) (Some x) = Ret self'
      /\ str_dict_get self' (Some s) = Some x
      /\ str_dict_contains self' (Some s) = Ret true
      /\ forall k',
          str_cmp k' (Some s) <> 0 ->
          str_dict_get self' k' = str_dict_get self k'
          /\ str_dict_contains self' k' = str_dict_contains self k')
  /\ (~ present self (Some s) ->
      exists self',
        str_dict_adds self (Some s) None = Ret self'
        /\ str_dict_contains self' (Some s) = Ret true
        /\ str_dict_get self' (Some s) = None).
Proof.
  intros Hs. split.
  - destruct (str_dict_adds_upserted self s (Some x) Hs) as (self' & Hr & Hu & Hs').
    plain_types.
    pose proof (upserted_get self self' _ _ _ Hs Hu) as Hg.
    assert (Hg' : dict_get self' (Some s) = Some (Some x)).
    { rewrite Hg. destruct (dict_get self (Some s)); reflexivity. }
    exists self'. split; [exact Hr|]. split; [|split].
    + unfold str_dict_get. now rewrite Hg'.
    + unfold str_dict_contains, str_dict_find.
      rewrite (dict_find_contains self' (Some s) Hs'), Hg'. reflexivity.
    + intros k' Hne. pose proof (upserted_others self self' _ _ _ Hu k' Hne) as Ho.
      split.
      * unfold str_dict_get. now rewrite Ho.
      * unfold str_dict_contains, str_dict_find.
        rewrite (dict_find_contains self' k' Hs'), (dict_find_contains self k' Hs).
        now rewrite Ho.
  - intros Habs.
    destruct (str_dict_adds_upserted self s None Hs) as (self' & Hr & Hu & Hs').
    plain_types.
    pose proof (upserted_get self self' _ _ _ Hs Hu) as Hg.
    rewrite (dict_get_not_present self _ Habs) in Hg.
    exists self'. split; [exact Hr|]. split.
    + unfold str_dict_contains, str_dict_find.
      rewrite (dict_find_contains self' (Some s) Hs'), Hg. reflexivity.
    + unfold str_dict_get. now rewrite Hg.
Qed.

Lemma upsert_then_lookup_witness :
  ascending sample_str_dict
  /\ exists self',
      str_dict_adds sample_str_dict db_key (Some (lit "x"%string)) = Ret self'
      /\ str_dict_get self' db_key = Some (lit "x"%string).
Proof.
  assert (Hs : ascending sample_str_dict) by repeat constructor.
  split; [exact Hs|].
  destruct (proj1 (upsert_then_lookup sample_str_dict (lit "db"%string)
                     (lit "x"%string) Hs)) as (self' & Hr & Hg & _).
  exists self'. split; assumption.
Defined.

(** ** What a sequence of list upserts leaves *)

Lemma lists_step (self : str_list_dict_t) k' v :
  ascending self ->
  exists self',
    str_list_dict_adds self k' (Some v) = Ret self'
    /\ ascending self'
    /\ forall k,
        dict_get self' k
        = if negb (is_null k') && (str_cmp k' k =? 0)
          then Some (match dict_get self k with
                     | Some old => old ++ v
                     | None => v
                     end)
          else dict_get self k.
Proof.
  intros Hs. destruct k' as [s|].
  - destruct (str_list_dict_adds_upserted self s v Hs) as (self' & Hr & Hu & Hs').
    exists self'. split; [exact Hr|]. split; [exact Hs'|].
    intros k. cbn [is_null negb andb]. plain_types.
    destruct (Z.eqb_spec (str_cmp (Some s) k) 0) as [Hz|Hnz].
    + rewrite (dict_get_equal_keys self' k (Some s) Hz).
      rewrite (dict_get_equal_keys self k (Some s) Hz).
      exact (upserted_get self self' _ _ _ Hs Hu).
    + apply (upserted_others self self' _ _ _ Hu).
      rewrite str_cmp_antisym. lia.
  - exists self. split; [reflexivity|]. split; [assumption|].
    intros k. reflexivity.
Qed.

Lemma lists_run ops : forall (self : str_list_dict_t),
  ascending self ->
  exists self',
    run str_list_dict_step ops self = Ret self'
    /\ forall k,
        dict_get self' k
        = match dict_get self k with
          | Some old => Some (old ++ lists_for k ops)
          | None => if names_key k ops then Some (lists_for k ops) else None
          end.
Proof.
  induction ops as [|op rest IH]; intros self Hs.
  - exists self. split; [reflexivity|]. intros k. cbn.
    destruct (dict_get self k); [now rewrite app_nil_r|reflexivity].
  - assert (Hshape : exists k' v,
               str_list_dict_step self op = str_list_dict_adds self k' (Some v)
               /\ (forall k, lists_for k (op :: rest)
                             = if negb (is_null k') && (str_cmp k' k =? 0)
                               then v ++ lists_for k rest else lists_for k rest)
               /\ (forall k, names_key k (op :: rest)
                             = (negb (is_null k') && (str_cmp k' k =? 0))
                               || names_key k rest)).
    { destruct op as [k' v|k' v]; exists k', v;
        (split; [|split; intros; reflexivity]); [reflexivity|].
      cbn [str_list_dict_step]. unfold str_list_dict_add.
      now rewrite str_list_dup_id. }
    destruct Hshape as (k' & v & He & Hl & Hn).
    destruct (lists_step self k' v Hs) as (m & Hm & Hsm & Hget).
    destruct (IH m Hsm) as (self' & Hr & Hfin).
    exists self'. split.
    + cbn [run]. rewrite He. eapply bind_Ret; eassumption.
    + intros k. rewrite Hfin, Hget, Hl, Hn.
      destruct (negb (is_null k') && (str_cmp k' k =? 0)); cbn [orb].
      * destruct (dict_get self k); now rewrite <- ?app_assoc.
      * reflexivity.
Qed.

(** X5: a sequence of list upserts on the empty dictionary always returns,
    and the list it leaves at a key is made of the lists upserted at that
    key, one behind the other in the order of the upserts; a key that no
    upsert names has no entry. *)
Theorem list_upserts_accumulate (ops : list str_list_dict_op) :
  exists self,
    run str_list_dict_step ops str_list_dict_NULL = Ret self
    /\ forall k,
        str_list_dict_get self k
        = if names_key k ops then Some (lists_for k ops) else None.
Proof.
  destruct (lists_run ops str_list_dict_NULL) as (self & Hr & Hget).
  { constructor. }
  exists self. split; [exact Hr|]. intros k.
  unfold str_list_dict_get. rewrite Hget. reflexivity.
Qed.

(** ** The pointer dictionary *)

(** X6: in a pointer dictionary whose keys are ascending, [ptr_dict_adds]
    with a key that is not NULL always stores one more entry, also when the
    key is there already; the lookup of the key then returns the pointer
    just added, the number of entries with that key grows by one, and the
    lookup of every other key is as before. *)
Theorem ptr_dict_adds_grows (self : ptr_dict_t) (s : list byte) (v : ptr_t) :
  ascending self ->
  exists self',
    ptr_dict_adds self (Some s) v = Ret self'
    /\ size self' = size self + 1
    /\ ptr_dict_get self' (Some s) = v
    /\ count_key self' (Some s) = S (count_key self (Some s))
    /\ forall k', str_cmp k' (Some s) <> 0 ->
                  ptr_dict_get self' k' = ptr_dict_get self k'.
Proof.
  intros Hs. unfold ptr_dict_adds, ptr_dict_find_pos. cbn [is_null str_dup].
  plain_types.
  destruct (dict_find_pos_sorts_at self (Some s) Hs) as (pos & -> & Hp).
  cbn [bind]. pose proof Hp as (Hr & Hlo & _).
  destruct (insert_at_present self pos {| key := Some s; value := v |} Hr)
    as (self' & Hins & _ & Hsz).
  exists self'. split; [exact Hins|]. split; [exact Hsz|].
  unfold insert_at in Hins.
  assert (E1 : (0 <=? pos) = true) by (apply Z.leb_le; lia).
  assert (E2 : (pos <=? size self) = true) by (apply Z.leb_le; lia).
  rewrite E1, E2 in Hins. cbn [andb] in Hins.
  injection Hins as <-. plain_types.
  assert (Hbefore : forall e, In e (firstn (Z.to_nat pos) self) ->
                              str_cmp (key e) (Some s) <> 0).
  { intros e Hin. apply In_firstn_index in Hin as (i & Hi & Hn).
    rewrite <- data_at_nth_error in Hn.
    specialize (Hlo _ _ Hn ltac:(lia)). lia. }
  split; [|split].
  - unfold ptr_dict_get. rewrite dict_get_app, (dict_get_absent _ _ Hbefore).
    cbn [dict_get key value]. now rewrite str_cmp_refl.
  - change ({| key := Some s; value := v |} :: skipn (Z.to_nat pos) self)
      with ([{| key := Some s; value := v |}] ++ skipn (Z.to_nat pos) self).
    rewrite !count_key_app.
    rewrite <- (firstn_skipn (Z.to_nat pos) self) at 3.
    rewrite count_key_app. unfold count_key at 2. cbn [filter key].
    unfold str_equal. rewrite str_cmp_refl. cbn. lia.
  - intros k' Hne. unfold ptr_dict_get.
    pose proof (not_equal_other (Some s) k' (Some s) (str_cmp_refl _) Hne).
    transitivity (match dict_get (firstn (Z.to_nat pos) self
                                    ++ skipn (Z.to_nat pos) self) k' with
                  | Some x => x
                  | None => 0
                  end).
    + rewrite !dict_get_app. cbn [dict_get key value].
      destruct (Z.eqb_spec (str_cmp (Some s) k') 0); [contradiction|reflexivity].
    + now rewrite firstn_skipn.
Qed.

Lemma ptr_dict_adds_grows_witness :
  ascending sample_ptr_dict
  /\ exists self',
      ptr_dict_adds sample_ptr_dict db_key 7 = Ret self'
      /\ size self' = 3 /\ ptr_dict_get self' db_key = 7.
Proof.
  assert (Hs : ascending sample_ptr_dict) by repeat constructor.
  split; [exact Hs|].
  destruct (ptr_dict_adds_grows sample_ptr_dict (lit "db"%string) 7 Hs)
    as (self' & Hr & Hsz & Hg & _).
  exists self'. split; [exact Hr|]. split; [exact Hsz|exact Hg].
Defined.

(** ** The list of keys *)

Lemma keys_dup {V : Type} (self : list (dict_entry V)) :
  map (fun ent => str_dup (key ent)) self = keys self.
Proof.
  unfold keys. apply map_ext. intros ent. apply str_dup_id.
Qed.

Lemma str_list_find_keys {V : Type} (self : list (dict_entry V)) k :
  ascending self ->
  dict_find self k = Ret (str_list_find (keys self) k).
Proof.
  intros Hs.
  destruct (dict_find_cases self k Hs)
    as [(c & ec & -> & Hc & Hzc & _ & Hlo & _)|[-> Habs]]; f_equal.
  - unfold str_list_find.
    rewrite (str_list_find_from_hit self k 0 c ec Hc Hzc); [lia|].
    intros i e Hi Hlt. specialize (Hlo i e Hi Hlt). lia.
  - symmetry. apply str_list_find_from_spec. intros s Hin.
    unfold keys in Hin. apply in_map_iff in Hin as (ent & <- & Hin).
    intros Hz. apply Habs. exists ent. auto.
Qed.

(** X7: the key list of a dictionary that a sequence of upserts reached
    from the empty one is strictly ascending and free of duplicates and of
    NULL, and a key is found in it by the linear [str_list_contains] exactly
    when the binary [.._contains] of the dictionary says yes. *)
Theorem key_list_of_reached_dictionary :
  (forall ops self,
      run str_dict_step ops str_dict_NULL = Ret self ->
      Sorted key_lt (str_dict_keys self) /\ NoDup (str_dict_keys self)
      /\ ~ In None (str_dict_keys self)
      /\ forall k, str_dict_contains self k
                   = Ret (str_list_contains (str_dict_keys self) k))
  /\ (forall ops self,
         run str_list_dict_step ops str_list_dict_NULL = Ret self ->
         Sorted key_lt (str_list_dict_keys self)
         /\ NoDup (str_list_dict_keys self)
         /\ ~ In None (str_list_dict_keys self)
         /\ forall k, str_list_dict_contains self k
                      = Ret (str_list_contains (str_list_dict_keys self) k))
  /\ (forall ops self,
         run str_list_dict_dict_step ops str_list_dict_dict_NULL = Ret self ->
         Sorted key_lt (str_list_dict_dict_keys self)
         /\ NoDup (str_list_dict_dict_keys self)
         /\ ~ In None (str_list_dict_dict_keys self)
         /\ forall k, str_list_dict_dict_contains self k
                      = Ret (str_list_contains (str_list_dict_dict_keys self) k)).
Proof.
  assert (Hgen : forall V (self : list (dict_entry V)),
             well_kept self ->
             Sorted key_lt (map (fun ent => str_dup (key ent)) self)
             /\ NoDup (map (fun ent => str_dup (key ent)) self)
             /\ ~ In None (map (fun ent => str_dup (key ent)) self)
             /\ forall k, (pos <- dict_find self k ;; Ret (pos >=? 0))
                          = Ret (str_list_contains
                                   (map (fun ent => str_dup (key ent)) self) k)).
  { intros V self [Hs Hk]. rewrite keys_dup.
    split; [exact Hs|]. split; [now apply ascending_NoDup|]. split.
    - intros Hin. unfold keys in Hin. apply in_map_iff in Hin as (e & He & Hin).
      unfold keys_present in Hk. rewrite Forall_forall in Hk.
      exact (Hk e Hin He).
    - intros k. rewrite (str_list_find_keys self k Hs). reflexivity. }
  destruct reached_well_kept as (H1 & H2 & H3).
  split; [|split]; intros ops self Hr.
  - exact (Hgen _ self (H1 ops self Hr)).
  - exact (Hgen _ self (H2 ops self Hr)).
  - exact (Hgen _ self (H3 ops self Hr)).
Qed.

Lemma key_list_of_reached_dictionary_witness :
  run str_dict_step [Adds svc_key one_string; Add db_key one_string]
    str_dict_NULL
  = Ret [ {| key := db_key; value := one_string |};
          {| key := svc_key; value := one_string |} ]
  /\ Sorted key_lt [db_key; svc_key].
Proof.
  split; [reflexivity|].
  exact (proj1 (proj1 key_list_of_reached_dictionary
                  [Adds svc_key one_string; Add db_key one_string] _ eq_refl)).
Defined.

(** ** Equality *)

Lemma uchar_zero c : uchar c = 0 -> c = x00.
Proof. intros H. apply uchar_inj. rewrite H. reflexivity. Qed.

(** Strings that compare equal are the same bytes. *)
Lemma strcmp_eq s1 : forall s2,
  is_string s1 -> is_string s2 -> strcmp s1 s2 = 0 -> s1 = s2.
Proof.
  induction s1 as [|c1 r1 IH]; intros [|c2 r2] H1 H2 Hz; cbn [strcmp] in Hz.
  - reflexivity.
  - apply is_string_cons in H2 as [Hc _]. exfalso. apply Hc.
    apply uchar_zero. lia.
  - apply is_string_cons in H1 as [Hc _]. exfalso. apply Hc.
    apply uchar_zero. lia.
  - apply is_string_cons in H1 as [Hc1 Hr1].
    apply is_string_cons in H2 as [Hc2 Hr2].
    destruct (Z.eqb_spec (uchar c1) (uchar c2)) as [He|Hne]; [|lia].
    apply uchar_inj in He. subst c2.
    destruct (Z.eqb_spec (uchar c1) 0) as [H0|_].
    + exfalso. apply Hc1. now apply uchar_zero.
    + f_equal. now apply IH.
Qed.

Lemma str_cmp_eq s1 s2 :
  is_str s1 -> is_str s2 -> str_cmp s1 s2 = 0 -> s1 = s2.
Proof.
  destruct s1 as [l1|], s2 as [l2|]; cbn; intros H1 H2 Hz;
    try discriminate; [|reflexivity].
  f_equal. now apply strcmp_eq.
Qed.

Lemma str_list_equal_loop_eq l1 : forall l2,
  length l1 = length l2 -> Forall is_str l1 -> Forall is_str l2 ->
  str_list_equal_loop l1 l2 = true -> l1 = l2.
Proof.
  induction l1 as [|s1 r1 IH]; intros [|s2 r2] Hlen H1 H2 He;
    try discriminate Hlen; [reflexivity|].
  cbn [str_list_equal_loop] in He.
  inversion H1; subst. inversion H2; subst.
  destruct (Z.eqb_spec (str_cmp s1 s2) 0) as [Hz|Hnz]; [|discriminate He].
  cbn [negb] in He. f_equal.
  - now apply str_cmp_eq.
  - apply IH; auto.
Qed.

Lemma str_list_equal_loop_refl l : str_list_equal_loop l l = true.
Proof.
  induction l as [|s r IH]; cbn [str_list_equal_loop]; [reflexivity|].
  now rewrite str_cmp_refl.
Qed.

(** X8: two lists of strings (NULL elements allowed) are equal for
    [str_list_equal] exactly when they have the same size and the same
    elements in the same order, a NULL element being equal to NULL only (not
    to the empty string). *)
Theorem str_list_equal_iff (l1 l2 : str_list_t) :
  Forall is_str l1 -> Forall is_str l2 ->
  (str_list_equal l1 l2 = true <-> l1 = l2).
Proof.
  intros H1 H2. unfold str_list_equal. split.
  - destruct (Z.eqb_spec (size l1) (size l2)) as [Hsz|Hsz]; [|discriminate].
    cbn [negb]. apply str_list_equal_loop_eq; try assumption.
    unfold size in Hsz. lia.
  - intros ->. rewrite Z.eqb_refl. cbn [negb]. apply str_list_equal_loop_refl.
Qed.

Lemma str_list_equal_iff_witness :
  Forall is_str [a_key; None] /\ Forall is_str [a_key; Some []]
  /\ (str_list_equal [a_key; None] [a_key; Some []] = true
      <-> [a_key; None] = [a_key; Some []]).
Proof.
  assert (Ha : is_str a_key).
  { unfold is_str, a_key, is_string. cbn. intuition discriminate. }
  assert (H1 : Forall is_str [a_key; None]) by (repeat constructor; exact Ha).
  assert (H2 : Forall is_str [a_key; Some []]).
  { repeat constructor; [exact Ha|]. intros []. }
  split; [exact H1|]. split; [exact H2|].
  exact (str_list_equal_iff _ _ H1 H2).
Defined.

(** ** Finding in a list *)

Lemma str_list_find_from_range self k : forall base,
  str_list_find_from base self k = -1
  \/ base <= str_list_find_from base self k < base + size self.
Proof.
  induction self as [|s r IH]; intros base; cbn [str_list_find_from];
    [now left|].
  rewrite size_cons. pose proof (size_nonneg r).
  destruct (str_cmp s k =? 0); [right; lia|].
  destruct (IH (base + 1)) as [->|Hr]; [now left|right; lia].
Qed.

Lemma str_list_find_from_first self k : forall base i,
  0 <= base -> str_list_find_from base self k = i -> 0 <= i ->
  exists s,
    data_at self (i - base) = Some s /\ str_cmp s k = 0
    /\ forall j t, data_at self j = Some t -> j < i - base -> str_cmp t k <> 0.
Proof.
  induction self as [|s r IH]; intros base i Hb Hf Hi;
    cbn [str_list_find_from] in Hf; [lia|].
  destruct (Z.eqb_spec (str_cmp s k) 0) as [Hz|Hnz].
  - subst i. rewrite Z.sub_diag. exists s. split; [reflexivity|].
    split; [assumption|]. intros j t Hj Hlt. apply data_at_Some in Hj. lia.
  - destruct (str_list_find_from_range r k (base + 1)) as [Hm|Hr]; [lia|].
    destruct (IH (base + 1) i ltac:(lia) Hf Hi) as (t & Ht & Hz & Hfirst).
    exists t. split; [|split; [assumption|]].
    + replace (i - base) with ((i - (base + 1)) + 1) by lia.
      rewrite data_at_cons by lia. assumption.
    + intros j u Hj Hlt. destruct (Z.eq_dec j 0) as [->|Hne].
      * rewrite data_at_zero in Hj. now injection Hj as <-.
      * pose proof (data_at_Some _ _ _ Hj).
        replace j with ((j - 1) + 1) in Hj by lia.
        rewrite data_at_cons in Hj by lia.
        apply (Hfirst _ _ Hj). lia.
Qed.

Lemma str_list_find_from_miss self k : forall base,
  0 <= base -> str_list_find_from base self k = -1 ->
  forall s, In s self -> str_cmp s k <> 0.
Proof.
  induction self as [|t r IH]; intros base Hb Hm s Hin; [destruct Hin|].
  cbn [str_list_find_from] in Hm.
  destruct (Z.eqb_spec (str_cmp t k) 0) as [Hz|Hnz]; [lia|].
  destruct Hin as [<-|Hin]; [assumption|].
  apply (IH (base + 1)); [lia|assumption|assumption].
Qed.

Lemma str_list_find_from_app self v k : forall base,
  0 <= base ->
  str_list_find_from base (self ++ [v]) k
  = if str_list_find_from base self k =? -1
    then (if str_cmp v k =? 0 then base + size self else -1)
    else str_list_find_from base self k.
Proof.
  induction self as [|s r IH]; intros base Hb; cbn [app str_list_find_from].
  - cbn. destruct (str_cmp v k =? 0); [f_equal; lia|reflexivity].
  - destruct (Z.eqb_spec (str_cmp s k) 0) as [Hz|Hnz].
    + destruct (Z.eqb_spec base (-1)); [lia|reflexivity].
    + rewrite IH, size_cons by lia.
      destruct (str_list_find_from (base + 1) r k =? -1); [|reflexivity].
      destruct (str_cmp v k =? 0); [lia|reflexivity].
Qed.

Lemma str_list_get_first self k : forall i s,
  data_at self i = Some s -> str_cmp s k = 0 ->
  (forall j t, data_at self j = Some t -> j < i -> str_cmp t k <> 0) ->
  str_list_get self k = s.
Proof.
  induction self as [|t r IH]; intros i s Hs Hz Hfirst.
  { apply data_at_Some in Hs. unfold size in Hs. simpl in Hs. lia. }
  pose proof (data_at_Some _ _ _ Hs) as Hr.
  cbn [str_list_get]. destruct (Z.eqb_spec (str_cmp t k) 0) as [Ht|Ht].
  - destruct (Z.eq_dec i 0) as [->|Hne].
    + rewrite data_at_zero in Hs. now injection Hs.
    + exfalso. apply (Hfirst 0 t (data_at_zero _ _)); [lia|assumption].
  - destruct (Z.eq_dec i 0) as [->|Hne].
    + rewrite data_at_zero in Hs. injection Hs as <-. contradiction.
    + replace i with ((i - 1) + 1) in Hs by lia.
      rewrite data_at_cons in Hs by lia.
      apply (IH (i - 1)); [assumption|assumption|].
      intros j u Hj Hlt. pose proof (data_at_Some _ _ _ Hj).
      rewrite <- (data_at_cons t) in Hj by lia.
      apply (Hfirst _ _ Hj). lia.
Qed.

(** X9: [str_list_find] returns the index of the first element that
    compares equal to the key, and [-1] exactly when there is none;
    [str_list_get] then returns that element.  After [str_list_add] of a
    string every key found before is found at the same index, and the
    string added is found. *)
Theorem str_list_find_first (self : str_list_t) (k : str_t) :
  (str_list_find self k = -1 <-> forall s, In s self -> str_cmp s k <> 0)
  /\ (forall i,
         str_list_find self k = i -> 0 <= i ->
         exists s,
           data_at self i = Some s /\ str_cmp s k = 0
           /\ str_list_get self k = s
           /\ forall j t, data_at self j = Some t -> j < i -> str_cmp t k <> 0)
  /\ (forall v,
         (0 <= str_list_find self k ->
          str_list_find (str_list_add self v) k = str_list_find self k)
         /\ str_list_contains (str_list_add self v) v = true).
Proof.
  split; [|split].
  - unfold str_list_find. split.
    + apply str_list_find_from_miss. lia.
    + apply str_list_find_from_spec.
  - intros i Hf Hi. unfold str_list_find in Hf.
    destruct (str_list_find_from_first self k 0 i ltac:(lia) Hf Hi)
      as (s & Hs & Hz & Hfirst).
    rewrite Z.sub_0_r in *. exists s. split; [assumption|]. split; [assumption|].
    split; [|assumption].
    now apply (str_list_get_first self k i).
  - intros v. unfold str_list_contains, str_list_find, str_list_add, str_list_adds.
    rewrite str_dup_id, !str_list_find_from_app by lia. split.
    + intros Hf. destruct (Z.eqb_spec (str_list_find_from 0 self k) (-1)); [lia|].
      reflexivity.
    + rewrite str_cmp_refl. cbn [Z.eqb].
      pose proof (size_nonneg self).
      destruct (Z.eqb_spec (str_list_find_from 0 self v) (-1)) as [_|Hne].
      * apply Z.geb_le. lia.
      * destruct (str_list_find_from_range self v 0) as [Hm|Hr]; [contradiction|].
        apply Z.geb_le. lia.
Qed.

(** ** Cutting *)

Lemma data_at_skipn {A : Type} (l : list A) j x :
  data_at l j = Some x ->
  skipn (Z.to_nat j) l = x :: skipn (Z.to_nat (j + 1)) l.
Proof.
  intros H. pose proof (data_at_Some _ _ _ H) as Hr.
  unfold data_at in H. destruct (Z.ltb_spec j 0); [lia|].
  replace (Z.to_nat (j + 1)) with (S (Z.to_nat j)) by lia.
  generalize dependent (Z.to_nat j). clear.
  induction l as [|y l IH]; intros n Hn; destruct n; try discriminate.
  - now injection Hn as ->.
  - cbn [nth_error] in Hn. cbn [skipn]. rewrite (IH _ Hn). reflexivity.
Qed.

Lemma data_at_end {A : Type} (l : list A) : data_at l (size l) = None.
Proof.
  destruct (data_at l (size l)) eqn:E; [|reflexivity].
  apply data_at_Some in E. lia.
Qed.

(** The copy loop of [str_list_cut] returns the elements it was asked for
    when they all lie inside the array and reads past its end otherwise. *)
Lemma str_list_cut_loop_spec n : forall self a i res,
  0 <= a + i <= size self ->
  str_list_cut_loop n self a i res
  = if a + i + Z.of_nat n <=? size self
    then Ret (res ++ firstn n (skipn (Z.to_nat (a + i)) self))
    else Undefined.
Proof.
  induction n as [|n IH]; intros self a i res Hr; cbn [str_list_cut_loop].
  - destruct (Z.leb_spec (a + i + Z.of_nat 0) (size self)); [|lia].
    cbn [firstn]. now rewrite app_nil_r.
  - destruct (Z.eq_dec (a + i) (size self)) as [He|Hne].
    + rewrite He, data_at_end.
      destruct (Z.leb_spec (size self + Z.of_nat (S n)) (size self)); [lia|].
      reflexivity.
    + destruct (data_at_in_range self (a + i) ltac:(lia)) as [s Hs].
      rewrite Hs, str_dup_id, IH by lia.
      rewrite (data_at_skipn _ _ _ Hs). cbn [firstn].
      replace (a + (i + 1)) with (a + i + 1) by lia.
      replace (a + i + 1 + Z.of_nat n) with (a + i + Z.of_nat (S n)) by lia.
      destruct (a + i + Z.of_nat (S n) <=? size self); [|reflexivity].
      now rewrite <- app_assoc.
Qed.

(** X10: [str_list_cut] on a list, indices below zero counting from the
    end: the empty list when the start is outside the list or the end is
    before the start; the elements from start up to, not including, end
    when the end is inside the list; and a read of [data[size]], one past
    the array, when the end is at or beyond the size.  So
    [str_list_cut_end], on a list whose size fits the index type, returns
    only for a start outside the list. *)
Theorem str_list_cut_cases (l : str_list_t) (a b : Z) :
  size l <= STR_LIST_END ->
  let a' := from_end (size l) a in
  let b' := from_end (size l) b in
  str_list_cut (Some l) a b
  = (if (a' <? 0) || (b' <? 0) || (a' >=? size l) || (b' <? a')
     then Ret (Some [])
     else if b' >=? size l then Undefined
     else Ret (Some (firstn (Z.to_nat (b' - a')) (skipn (Z.to_nat a') l))))
  /\ str_list_cut_end (Some l) a
     = if (a' <? 0) || (a' >=? size l) then Ret (Some []) else Undefined.
Proof.
  assert (Hcut : forall b0,
    str_list_cut (Some l) a b0
    = (if (from_end (size l) a <? 0) || (from_end (size l) b0 <? 0)
          || (from_end (size l) a >=? size l)
          || (from_end (size l) b0 <? from_end (size l) a)
       then Ret (Some [])
       else if from_end (size l) b0 >=? size l then Undefined
       else Ret (Some (firstn (Z.to_nat (from_end (size l) b0 - from_end (size l) a))
                          (skipn (Z.to_nat (from_end (size l) a)) l))))).
  { intros b0. unfold str_list_cut. fold (from_end (size l) a) (from_end (size l) b0).
    set (x := from_end (size l) a). set (y := from_end (size l) b0).
    cbv zeta.
    destruct ((x <? 0) || (y <? 0) || (x >=? size l) || (y <? x)) eqn:E;
      [reflexivity|].
    apply orb_false_iff in E as [E E4]. apply orb_false_iff in E as [E E3].
    apply orb_false_iff in E as [E1 E2].
    apply Z.ltb_ge in E1, E2, E4. rewrite Z.geb_leb in E3. apply Z.leb_gt in E3.
    unfold str_list_NULL.
    rewrite str_list_cut_loop_spec by lia. cbn [app].
    rewrite Z.add_0_r.
    destruct (Z.geb_spec y (size l)) as [Hge|Hlt].
    - destruct (Z.leb_spec (x + Z.of_nat (Z.to_nat (size l + 1 - x))) (size l));
        [lia|reflexivity].
    - destruct (Z.leb_spec (x + Z.of_nat (Z.to_nat (y - x))) (size l)); [|lia].
      reflexivity. }
  intros Hfit a' b'. split; [apply Hcut|].
  unfold str_list_cut_end. rewrite Hcut. fold a'.
  pose proof (size_nonneg l) as Hsz.
  assert (Hend : from_end (size l) STR_LIST_END = STR_LIST_END) by reflexivity.
  rewrite Hend.
  assert (E2 : (STR_LIST_END <? 0) = false) by reflexivity. rewrite E2.
  destruct (Z.ltb_spec a' 0) as [H1|H1]; [reflexivity|].
  destruct (Z.geb_spec a' (size l)) as [H2|H2]; [reflexivity|].
  cbn [orb].
  destruct (Z.ltb_spec STR_LIST_END a') as [H3|H3].
  - exfalso. lia.
  - destruct (Z.geb_spec STR_LIST_END (size l)) as [H4|H4]; [reflexivity|].
    exfalso. lia.
Qed.

Lemma str_list_cut_cases_witness :
  size [a_key; None; c_key] <= STR_LIST_END
  /\ str_list_cut (Some [a_key; None; c_key]) (-2) 2 = Ret (Some [None])
  /\ str_list_cut_end (Some [a_key; None; c_key]) 1 = Undefined.
Proof.
  assert (H : size [a_key; None; c_key] <= STR_LIST_END) by (vm_compute; discriminate).
  split; [exact H|]. split.
  - exact (proj1 (str_list_cut_cases [a_key; None; c_key] (-2) 2 H)).
  - exact (proj2 (str_list_cut_cases [a_key; None; c_key] 1 0 H)).
Defined.

Lemma slice_prefix (l : list byte) n :
  0 <= n -> slice l 0 n = firstn (Z.to_nat n) l.
Proof. intros Hn. unfold slice. now rewrite Z.sub_0_r. Qed.

Lemma slice_suffix (l : list byte) k :
  0 <= k <= size l -> slice l k (size l) = skipn (Z.to_nat k) l.
Proof.
  intros Hk. unfold slice. apply firstn_all2. rewrite length_skipn.
  unfold size. lia.
Qed.

(** X11: cutting a string at an index and cutting from that index to the
    end give two parts that concatenate to the string, the index counting
    from the end when it is negative (and not further back than the
    start). *)
Theorem str_cut_splits (text : list byte) (k : Z) :
  is_string text -> size text <= STR_END -> - size text <= k ->
  exists l r,
    str_cut (Some text) 0 k = Ret (Some l)
    /\ str_cut_end (Some text) k = Ret (Some r)
    /\ l ++ r = text
    /\ size l = Z.min (from_end (size text) k) (size text).
Proof.
  intros Ht Hfit Hk. pose proof (size_nonneg text) as Hsz.
  unfold str_cut_end. rewrite (str_cut_from_end text 0 k).
  rewrite (str_cut_from_end text k STR_END).
  assert (Hend : from_end (size text) STR_END = STR_END) by reflexivity.
  assert (Hzero : from_end (size text) 0 = 0) by reflexivity.
  rewrite Hend, Hzero.
  set (k' := from_end (size text) k).
  assert (Hk' : 0 <= k').
  { unfold k', from_end. destruct (Z.ltb_spec k 0); lia. }
  assert (E1 : (0 <? 0) = false) by reflexivity.
  assert (E2 : (k' <? 0) = false) by (apply Z.ltb_ge; lia).
  assert (E3 : (k' <? 0) = false) by (apply Z.ltb_ge; lia).
  assert (E4 : (STR_END <? 0) = false) by reflexivity.
  rewrite E1, E2, E4. cbn [orb].
  destruct (Z.eq_dec (size text) 0) as [Hempty|Hne].
  { assert (text = []) as ->.
    { destruct text; [reflexivity|]. rewrite size_cons in Hempty.
      pose proof (size_nonneg text). lia. }
    exists [], []. cbn [size length Z.of_nat].
    assert (E5 : (0 >=? 0) = true) by reflexivity.
    assert (E6 : (k' >=? 0) = true) by (rewrite Z.geb_leb; apply Z.leb_le; lia).
    rewrite E5, E6. cbn [orb]. repeat split. cbn. lia. }
  assert (E5 : (0 >=? size text) = false)
    by (rewrite Z.geb_leb; apply Z.leb_gt; lia).
  rewrite E5. cbn [orb].
  rewrite (str_cut_inside text 0 k') by (try assumption; lia).
  destruct (Z.geb_spec k' (size text)) as [Hge|Hlt].
  - exists text, []. rewrite Z.min_r by lia. rewrite slice_prefix by lia.
    unfold size. rewrite Nat2Z.id, firstn_all, app_nil_r.
    repeat split; reflexivity.
  - assert (E7 : (STR_END <? k') = false) by (apply Z.ltb_ge; lia).
    rewrite E7.
    rewrite (str_cut_inside text k' STR_END) by (try assumption; lia).
    rewrite Z.min_l by lia. rewrite (Z.min_r STR_END) by lia.
    rewrite slice_prefix, slice_suffix by lia.
    exists (firstn (Z.to_nat k') text), (skipn (Z.to_nat k') text).
    repeat split; [apply firstn_skipn|].
    unfold size. rewrite length_firstn. unfold size in Hlt. lia.
Qed.

Lemma str_cut_splits_witness :
  is_string (lit "unit.service"%string)
  /\ size (lit "unit.service"%string) <= STR_END
  /\ - size (lit "unit.service"%string) <= -8
  /\ exists l r,
      str_cut (Some (lit "unit.service"%string)) 0 (-8) = Ret (Some l)
      /\ str_cut_end (Some (lit "unit.service"%string)) (-8) = Ret (Some r)
      /\ l ++ r = lit "unit.service"%string
      /\ size l = Z.min (from_end (size (lit "unit.service"%string)) (-8))
                        (size (lit "unit.service"%string)).
Proof.
  assert (H1 : is_string (lit "unit.service"%string)).
  { unfold is_string. cbn. intuition discriminate. }
  assert (H2 : size (lit "unit.service"%string) <= STR_END)
    by (vm_compute; discriminate).
  assert (H3 : - size (lit "unit.service"%string) <= -8)
    by (vm_compute; discriminate).
  split; [exact H1|]. split; [exact H2|]. split; [exact H3|].
  exact (str_cut_splits _ (-8) H1 H2 H3).
Defined.

(** ** Stripping *)

Lemma in_delim_spec c : in_delim c = true <-> c = x00 \/ In c str_delim.
Proof.
  unfold in_delim, strchr, block, str_delim. cbn [app first_index In].
  destruct (Byte.eqb x20 c) eqn:E1.
  { apply Byte.byte_dec_bl in E1. subst c. split; intros _; [cbn; tauto|reflexivity]. }
  destruct (Byte.eqb x0d c) eqn:E2.
  { apply Byte.byte_dec_bl in E2. subst c. split; intros _; [cbn; tauto|reflexivity]. }
  destruct (Byte.eqb x0a c) eqn:E3.
  { apply Byte.byte_dec_bl in E3. subst c. split; intros _; [cbn; tauto|reflexivity]. }
  destruct (Byte.eqb x0c c) eqn:E4.
  { apply Byte.byte_dec_bl in E4. subst c. split; intros _; [cbn; tauto|reflexivity]. }
  destruct (Byte.eqb x00 c) eqn:E5.
  { apply Byte.byte_dec_bl in E5. subst c. split; intros _; [cbn; tauto|reflexivity]. }
  split; [discriminate|].
  intros [->|[<-|[<-|[<-|[<-|[]]]]]]; discriminate.
Qed.

Lemma char_at_end text : char_at (Some text) (size text) = Some x00.
Proof.
  unfold char_at, block, data_at, size.
  destruct (Z.ltb_spec (Z.of_nat (length text)) 0); [lia|].
  rewrite Nat2Z.id, nth_error_app2 by lia.
  now rewrite Nat.sub_diag.
Qed.

Lemma str_cut_middle pre m suf :
  is_string (pre ++ m ++ suf) -> m <> [] ->
  str_cut (Some (pre ++ m ++ suf)) (size pre) (size pre + size m) = Ret (Some m).
Proof.
  intros Ht Hm.
  assert (Hpos : 0 < size m).
  { destruct m; [contradiction|]. rewrite size_cons. pose proof (size_nonneg m). lia. }
  pose proof (size_nonneg pre). pose proof (size_nonneg suf).
  rewrite str_cut_inside; [|assumption|rewrite !size_app; lia|lia].
  rewrite Z.min_l by (rewrite !size_app; lia).
  unfold size at 3. rewrite slice_middle, firstn_app, Nat.sub_diag, firstn_all.
  cbn [firstn]. now rewrite app_nil_r.
Qed.

Lemma rtrim_snoc p c :
  rtrim (p ++ [c]) = if in_delim c then rtrim p else p ++ [c].
Proof.
  unfold rtrim. rewrite rev_app_distr. cbn [rev app ltrim].
  destruct (in_delim c); [reflexivity|].
  cbn [rev]. now rewrite rev_involutive.
Qed.

Lemma str_lstrip_loop_spec suf : forall pre fuel text,
  text = pre ++ suf -> is_string text -> (length suf < fuel)%nat ->
  str_lstrip_loop fuel (Some text) (size text) (size pre)
  = Ret (Some (ltrim suf)).
Proof.
  induction suf as [|c r IH]; intros pre fuel text -> Ht Hf;
    (destruct fuel as [|fuel]; [lia|]); cbn [str_lstrip_loop].
  - rewrite app_nil_r, Z.ltb_irrefl. reflexivity.
  - pose proof (size_nonneg r).
    assert (E : (size pre <? size (pre ++ c :: r)) = true)
      by (apply Z.ltb_lt; rewrite size_app, size_cons; lia).
    rewrite E, char_at_middle. cbn [ltrim]. destruct (in_delim c).
    + replace (size pre + 1) with (size (pre ++ [c])) by apply size_snoc.
      apply IH; [now rewrite <- app_assoc|assumption|cbn [length] in Hf; lia].
    + pose proof (str_cut_middle pre (c :: r) []) as Hc.
      rewrite app_nil_r in Hc. rewrite size_app.
      apply Hc; [assumption|discriminate].
Qed.

Lemma str_rstrip_loop_spec pre : forall suf fuel text,
  text = pre ++ suf -> is_string text -> (length pre < fuel)%nat ->
  str_rstrip_loop fuel (Some text) (size pre - 1) = Ret (Some (rtrim pre)).
Proof.
  induction pre as [|c p IH] using rev_ind; intros suf fuel text -> Ht Hf;
    (destruct fuel as [|fuel]; [lia|]); cbn [str_rstrip_loop].
  - reflexivity.
  - pose proof (size_nonneg p).
    rewrite size_snoc. replace (size p + 1 - 1) with (size p) by lia.
    assert (E : (size p >=? 0) = true) by (rewrite Z.geb_leb; apply Z.leb_le; lia).
    rewrite E. rewrite <- app_assoc. cbn [app]. rewrite char_at_middle.
    rewrite rtrim_snoc. destruct (in_delim c).
    + apply (IH (c :: suf)); [reflexivity| |rewrite length_app in Hf; cbn in Hf; lia].
      rewrite <- app_assoc in Ht. exact Ht.
    + pose proof (str_cut_middle [] (p ++ [c]) suf) as Hc.
      cbn [app] in Hc. rewrite <- app_assoc in Hc. cbn [app] in Hc.
      rewrite size_snoc in Hc. apply Hc.
      * rewrite <- app_assoc in Ht. exact Ht.
      * intros Hn. apply app_eq_nil in Hn as [_ Hn]. discriminate.
Qed.

Lemma str_strip_inner_spec pre c m : forall suf fuel text,
  text = pre ++ c :: m ++ suf -> is_string text -> in_delim c = false ->
  (length m < fuel)%nat ->
  str_strip_inner fuel (Some text) (size pre) (size pre + size m)
  = Ret (Some (Some (rtrim (c :: m)))).
Proof.
  induction m as [|d q IH] using rev_ind; intros suf fuel text -> Ht Hc Hf;
    (destruct fuel as [|fuel]; [lia|]); cbn [str_strip_inner].
  - cbn [app]. replace (size pre + size (@nil byte)) with (size pre) by (cbn; lia).
    assert (E : (size pre >=? size pre) = true)
      by (rewrite Z.geb_leb; apply Z.leb_le; lia).
    rewrite E, char_at_middle, Hc.
    pose proof (str_cut_middle pre [c] suf) as Hcut.
    cbn [app] in Hcut. replace (size pre + size [c]) with (size pre + 1) in Hcut
      by reflexivity.
    rewrite Hcut; [|exact Ht|discriminate].
    cbn [bind]. unfold rtrim. cbn [rev app ltrim]. rewrite Hc. reflexivity.
  - pose proof (size_nonneg q). pose proof (size_nonneg pre).
    rewrite size_snoc.
    assert (E : (size pre + (size q + 1) >=? size pre) = true)
      by (rewrite Z.geb_leb; apply Z.leb_le; lia).
    rewrite E.
    assert (Hshape : pre ++ c :: (q ++ [d]) ++ suf = (pre ++ c :: q) ++ d :: suf).
    { rewrite <- !app_assoc. reflexivity. }
    assert (Hidx : size pre + (size q + 1) = size (pre ++ c :: q)).
    { rewrite size_app, size_cons. lia. }
    rewrite Hshape, Hidx, char_at_middle.
    change (c :: q ++ [d]) with ((c :: q) ++ [d]). rewrite rtrim_snoc.
    destruct (in_delim d).
    + rewrite <- Hidx. replace (size pre + (size q + 1) - 1) with (size pre + size q) by lia.
      apply (IH (d :: suf)).
      * rewrite <- app_assoc. reflexivity.
      * rewrite <- Hshape. exact Ht.
      * exact Hc.
      * rewrite length_app in Hf. cbn in Hf. lia.
    + rewrite <- Hidx, <- Hshape.
      pose proof (str_cut_middle pre (c :: q ++ [d]) suf) as Hcut.
      cbn [app] in Hcut. rewrite size_cons, size_snoc in Hcut.
      replace (size pre + (size q + 1) + 1) with (size pre + (1 + (size q + 1))) by lia.
      rewrite Hcut; [reflexivity|exact Ht|discriminate].
Qed.

Lemma str_strip_inner_top pre c r fuel text :
  text = pre ++ c :: r -> is_string text -> in_delim c = false ->
  (length r < fuel)%nat ->
  str_strip_inner (S fuel) (Some text) (size pre) (size text)
  = Ret (Some (Some (rtrim (c :: r)))).
Proof.
  intros -> Ht Hc Hf. cbn [str_strip_inner].
  pose proof (size_nonneg r). pose proof (size_nonneg pre).
  assert (E2 : (size (pre ++ c :: r) >=? size pre) = true).
  { rewrite Z.geb_leb. apply Z.leb_le. rewrite size_app, size_cons. lia. }
  rewrite E2, char_at_end.
  assert (Ez : in_delim x00 = true) by reflexivity. rewrite Ez.
  replace (size (pre ++ c :: r) - 1) with (size pre + size r)
    by (rewrite size_app, size_cons; lia).
  apply (str_strip_inner_spec pre c r []); try assumption.
  now rewrite app_nil_r.
Qed.

Lemma str_strip_loop_spec suf : forall pre fuel text,
  text = pre ++ suf -> is_string text -> (length suf < fuel)%nat ->
  str_strip_loop fuel (Some text) (size text) (size pre)
  = Ret (Some (rtrim (ltrim suf))).
Proof.
  induction suf as [|c r IH]; intros pre fuel text -> Ht Hf;
    (destruct fuel as [|fuel]; [lia|]); cbn [str_strip_loop].
  - rewrite app_nil_r, Z.ltb_irrefl. reflexivity.
  - pose proof (size_nonneg r). pose proof (size_nonneg pre).
    assert (E : (size pre <? size (pre ++ c :: r)) = true)
      by (apply Z.ltb_lt; rewrite size_app, size_cons; lia).
    rewrite E, char_at_middle. cbn [ltrim]. destruct (in_delim c) eqn:Hc.
    + replace (size pre + 1) with (size (pre ++ [c])) by apply size_snoc.
      apply IH; [now rewrite <- app_assoc|assumption|cbn [length] in Hf; lia].
    + rewrite (str_strip_inner_top pre c r).
      * reflexivity.
      * reflexivity.
      * exact Ht.
      * exact Hc.
      * rewrite size_app, size_cons. unfold size. lia.
Qed.

Lemma str_lstrip_spec text :
  is_string text -> str_lstrip (Some text) = Ret (Some (ltrim text)).
Proof.
  intros Ht. unfold str_lstrip. cbn [str_len]. fold (size text).
  apply (str_lstrip_loop_spec text []); [reflexivity|assumption|].
  unfold size. lia.
Qed.

Lemma str_rstrip_loop_top text fuel :
  is_string text -> (length text < fuel)%nat ->
  str_rstrip_loop (S fuel) (Some text) (size text) = Ret (Some (rtrim text)).
Proof.
  intros Ht Hf. cbn [str_rstrip_loop]. pose proof (size_nonneg text).
  assert (E : (size text >=? 0) = true) by (rewrite Z.geb_leb; apply Z.leb_le; lia).
  rewrite E, char_at_end.
  assert (Ez : in_delim x00 = true) by reflexivity. rewrite Ez.
  apply (str_rstrip_loop_spec text []); [now rewrite app_nil_r|assumption|assumption].
Qed.

Lemma str_rstrip_spec text :
  is_string text -> str_rstrip (Some text) = Ret (Some (rtrim text)).
Proof.
  intros Ht. unfold str_rstrip. cbn [str_len]. fold (size text).
  apply str_rstrip_loop_top; [assumption|].
  unfold size. lia.
Qed.

Lemma str_strip_spec text :
  is_string text -> str_strip (Some text) = Ret (Some (rtrim (ltrim text))).
Proof.
  intros Ht. unfold str_strip. cbn [str_len]. fold (size text).
  apply (str_strip_loop_spec text []); [reflexivity|assumption|].
  unfold size. lia.
Qed.

(** X12: on a string, [str_lstrip] drops the longest prefix of bytes of
    [str_delim], [str_rstrip] the longest such suffix, [str_strip] both.
    On NULL, [str_lstrip] and [str_strip] return the empty string, and
    [str_rstrip] reads [self[0]]. *)
Theorem strip_family (text : list byte) :
  is_string text ->
  str_lstrip (Some text) = Ret (Some (ltrim text))
  /\ str_rstrip (Some text) = Ret (Some (rtrim text))
  /\ str_strip (Some text) = Ret (Some (rtrim (ltrim text)))
  /\ str_lstrip None = Ret (Some [])
  /\ str_strip None = Ret (Some [])
  /\ str_rstrip None = Undefined.
Proof.
  intros Ht. split; [now apply str_lstrip_spec|].
  split; [now apply str_rstrip_spec|].
  split; [now apply str_strip_spec|].
  repeat split.
Qed.

Lemma strip_family_witness :
  is_string (lit "  ab c "%string)
  /\ str_lstrip (Some (lit "  ab c "%string)) = Ret (Some (lit "ab c "%string))
  /\ str_rstrip (Some (lit "  ab c "%string)) = Ret (Some (lit "  ab c"%string))
  /\ str_strip (Some (lit "  ab c "%string)) = Ret (Some (lit "ab c"%string)).
Proof.
  assert (H : is_string (lit "  ab c "%string)).
  { unfold is_string. cbn. intuition discriminate. }
  split; [exact H|].
  pose proof (strip_family _ H) as (H1 & H2 & H3 & _).
  split; [exact H1|]. split; [exact H2|exact H3].
Defined.

Lemma ltrim_split l :
  exists pre,
    l = pre ++ ltrim l
    /\ Forall (fun c => in_delim c = true) pre
    /\ forall c r, ltrim l = c :: r -> in_delim c = false.
Proof.
  induction l as [|c r (pre & Heq & Hpre & Hhead)]; cbn [ltrim].
  - exists []. repeat split; [constructor|discriminate].
  - destruct (in_delim c) eqn:Hc.
    + exists (c :: pre). cbn [app]. rewrite <- Heq.
      repeat split; [now constructor|assumption].
    + exists []. repeat split; [constructor|].
      intros c' r' E. now injection E as <- _.
Qed.

Lemma rtrim_split l :
  exists suf,
    l = rtrim l ++ suf
    /\ Forall (fun c => in_delim c = true) suf
    /\ forall r c, rtrim l = r ++ [c] -> in_delim c = false.
Proof.
  destruct (ltrim_split (rev l)) as (pre & Heq & Hpre & Hhead).
  exists (rev pre). unfold rtrim. split; [|split].
  - rewrite <- rev_app_distr, <- Heq. now rewrite rev_involutive.
  - apply Forall_rev. exact Hpre.
  - intros r c E. apply (Hhead c (rev r)).
    rewrite <- (rev_involutive (ltrim (rev l))), E, rev_app_distr. reflexivity.
Qed.

Lemma ltrim_fix l :
  (forall c r, l = c :: r -> in_delim c = false) -> ltrim l = l.
Proof.
  destruct l as [|c r]; [reflexivity|]. intros H. cbn [ltrim].
  now rewrite (H c r eq_refl).
Qed.

Lemma rtrim_fix l :
  (forall r c, l = r ++ [c] -> in_delim c = false) -> rtrim l = l.
Proof.
  destruct l as [|c r] using rev_ind; [reflexivity|]. intros H.
  rewrite rtrim_snoc. now rewrite (H r c eq_refl).
Qed.

Lemma ltrim_blanks pre l :
  Forall (fun c => in_delim c = true) pre -> ltrim (pre ++ l) = ltrim l.
Proof.
  induction 1 as [|c pre Hc _ IH]; [reflexivity|].
  cbn [app ltrim]. now rewrite Hc.
Qed.

Lemma rtrim_blanks l suf :
  Forall (fun c => in_delim c = true) suf -> rtrim (l ++ suf) = rtrim l.
Proof.
  intros H. unfold rtrim. rewrite rev_app_distr, ltrim_blanks; [reflexivity|].
  now apply Forall_rev.
Qed.

Lemma rtrim_keeps_head c r :
  in_delim c = false -> exists r', rtrim (c :: r) = c :: r'.
Proof.
  intros Hc. induction r as [|d q IH] using rev_ind.
  - exists []. unfold rtrim. cbn [rev app ltrim]. now rewrite Hc.
  - change (c :: q ++ [d]) with ((c :: q) ++ [d]). rewrite rtrim_snoc.
    destruct (in_delim d); [exact IH|]. now exists (q ++ [d]).
Qed.

Lemma rtrim_after pre c r :
  in_delim c = false -> rtrim (pre ++ c :: r) = pre ++ rtrim (c :: r).
Proof.
  intros Hc. induction r as [|d q IH] using rev_ind.
  - change (pre ++ [c]) with (pre ++ [c]). rewrite rtrim_snoc, Hc.
    unfold rtrim. cbn [rev app ltrim]. now rewrite Hc.
  - replace (pre ++ c :: q ++ [d]) with ((pre ++ c :: q) ++ [d])
      by (now rewrite <- app_assoc).
    change (c :: q ++ [d]) with ((c :: q) ++ [d]). rewrite !rtrim_snoc.
    destruct (in_delim d); [exact IH|]. now rewrite <- app_assoc.
Qed.

Lemma trims_commute l : ltrim (rtrim l) = rtrim (ltrim l).
Proof.
  destruct (ltrim_split l) as (pre & Heq & Hpre & Hhead).
  destruct (ltrim l) as [|c r] eqn:E.
  - rewrite app_nil_r in Heq. subst pre.
    rewrite <- (app_nil_l l), rtrim_blanks by assumption. reflexivity.
  - specialize (Hhead c r eq_refl).
    rewrite Heq at 1. rewrite rtrim_after by assumption.
    rewrite ltrim_blanks by assumption.
    destruct (rtrim_keeps_head c r Hhead) as [r' ->].
    cbn [ltrim]. now rewrite Hhead.
Qed.

Lemma blanks_in_string l :
  is_string l -> Forall (fun c => in_delim c = true) l ->
  Forall (fun c => In c str_delim) l.
Proof.
  intros Hs H. apply Forall_forall. intros c Hin.
  rewrite Forall_forall in H. destruct (proj1 (in_delim_spec c) (H c Hin)) as [->|Hd].
  - contradiction.
  - exact Hd.
Qed.

Lemma not_blank c : in_delim c = false -> ~ In c str_delim.
Proof.
  intros Hc Hin. assert (in_delim c = true) by (apply in_delim_spec; now right).
  congruence.
Qed.

(** X13: [str_strip] of a string returns the string between a prefix and a
    suffix made of bytes of [str_delim] only; the result neither starts nor
    ends with such a byte; stripping it again changes nothing; and
    [str_lstrip] and [str_rstrip], one after the other in either order,
    give the same result. *)
Theorem strip_composes (text : list byte) :
  is_string text ->
  exists pre res suf,
    str_strip (Some text) = Ret (Some res)
    /\ text = pre ++ res ++ suf
    /\ Forall (fun c => In c str_delim) pre
    /\ Forall (fun c => In c str_delim) suf
    /\ (forall c r, res = c :: r -> ~ In c str_delim)
    /\ (forall r c, res = r ++ [c] -> ~ In c str_delim)
    /\ str_strip (Some res) = Ret (Some res)
    /\ (x <- str_rstrip (Some text) ;; str_lstrip x) = Ret (Some res)
    /\ (x <- str_lstrip (Some text) ;; str_rstrip x) = Ret (Some res).
Proof.
  intros Ht.
  destruct (ltrim_split text) as (pre & Hpre_eq & Hpre & Hhead).
  destruct (rtrim_split (ltrim text)) as (suf & Hsuf_eq & Hsuf & Hlast).
  assert (Hwhole : text = pre ++ rtrim (ltrim text) ++ suf).
  { now rewrite <- Hsuf_eq. }
  assert (Hparts : is_string pre /\ is_string (rtrim (ltrim text)) /\ is_string suf).
  { rewrite Hwhole in Ht. apply is_string_app in Ht as [H1 H2].
    apply is_string_app in H2 as [H2 H3]. auto. }
  destruct Hparts as (Hs1 & Hs2 & Hs3).
  assert (Hl : is_string (ltrim text)).
  { rewrite Hpre_eq in Ht. now apply is_string_app in Ht as [_ H]. }
  assert (Hr : is_string (rtrim text)).
  { destruct (rtrim_split text) as (s & Hseq & _ & _).
    rewrite Hseq in Ht. now apply is_string_app in Ht as [H _]. }
  assert (Hres_head : forall c r, rtrim (ltrim text) = c :: r -> in_delim c = false).
  { intros c r E. destruct (ltrim text) as [|c0 r0] eqn:El; [discriminate E|].
    pose proof (Hhead c0 r0 eq_refl) as Hc0.
    destruct (rtrim_keeps_head c0 r0 Hc0) as [r' Er].
    rewrite Er in E. now injection E as <- _. }
  exists pre, (rtrim (ltrim text)), suf.
  split; [now apply str_strip_spec|].
  split; [exact Hwhole|].
  split; [now apply blanks_in_string|].
  split; [now apply blanks_in_string|].
  split; [intros c r E; apply not_blank; now apply (Hres_head c r)|].
  split; [intros r c E; apply not_blank; now apply (Hlast r c)|].
  split; [|split].
  - rewrite str_strip_spec by assumption.
    rewrite (ltrim_fix _ Hres_head), (rtrim_fix _ Hlast). reflexivity.
  - rewrite str_rstrip_spec by assumption. cbn [bind].
    rewrite str_lstrip_spec by assumption. now rewrite trims_commute.
  - rewrite str_lstrip_spec by assumption. cbn [bind].
    now apply str_rstrip_spec.
Qed.

Lemma strip_composes_witness :
  is_string (lit " Type = simple  "%string)
  /\ exists pre res suf,
      str_strip (Some (lit " Type = simple  "%string)) = Ret (Some res)
      /\ lit " Type = simple  "%string = pre ++ res ++ suf
      /\ Forall (fun c => In c str_delim) pre
      /\ Forall (fun c => In c str_delim) suf
      /\ (forall c r, res = c :: r -> ~ In c str_delim)
      /\ (forall r c, res = r ++ [c] -> ~ In c str_delim)
      /\ str_strip (Some res) = Ret (Some res)
      /\ (x <- str_rstrip (Some (lit " Type = simple  "%string)) ;; str_lstrip x)
         = Ret (Some res)
      /\ (x <- str_lstrip (Some (lit " Type = simple  "%string)) ;; str_rstrip x)
         = Ret (Some res).
Proof.
  assert (H : is_string (lit " Type = simple  "%string)).
  { unfold is_string. cbn. intuition discriminate. }
  split; [exact H|]. exact (strip_composes _ H).
Defined.

(** ** Joining *)

Lemma present_parts_app l1 l2 :
  present_parts (l1 ++ l2) = present_parts l1 ++ present_parts l2.
Proof.
  induction l1 as [|[s|] r IH]; cbn [app present_parts]; [reflexivity| |exact IH].
  now rewrite IH.
Qed.

Lemma present_parts_map ps : present_parts (map Some ps) = ps.
Proof. induction ps as [|p r IH]; cbn; [reflexivity|now rewrite IH]. Qed.

Lemma present_parts_strings self :
  Forall is_str self -> Forall is_string (present_parts self).
Proof.
  induction 1 as [|[s|] r Hs _ IH]; cbn [present_parts]; auto.
Qed.

(** A NULL element adds nothing to the length and copies nothing. *)
Lemma total_length_present l : forall z,
  fold_left (fun acc s => acc + str_len s) l z
  = fold_left (fun acc s => acc + str_len s) (map Some (present_parts l)) z.
Proof.
  induction l as [|[s|] r IH]; intros z; cbn [present_parts map fold_left].
  - reflexivity.
  - apply IH.
  - cbn [str_len]. rewrite Z.add_0_r. apply IH.
Qed.

Lemma str_copy_loop_present l : forall buf p,
  str_copy_loop buf p l = str_copy_loop buf p (map Some (present_parts l)).
Proof.
  induction l as [|[s|] r IH]; intros buf p;
    cbn [present_parts map str_copy_loop].
  - reflexivity.
  - destruct (str_cpy buf p (Some s)); cbn [bind]; [apply IH|reflexivity..].
  - cbn [str_cpy bind str_len]. rewrite Z.add_0_r. apply IH.
Qed.

Lemma str_copy_str_list_present l :
  str_copy_str_list l = str_copy_str_list (map Some (present_parts l)).
Proof.
  unfold str_copy_str_list. rewrite <- total_length_present.
  apply str_copy_loop_present.
Qed.

Lemma joined_nil ps : joined [] ps = concat ps.
Proof.
  induction ps as [|p r IH]; [reflexivity|].
  cbn [joined concat app]. destruct r as [|q r]; [now rewrite app_nil_r|].
  now rewrite IH.
Qed.

Lemma is_string_concat ps : Forall is_string ps -> is_string (concat ps).
Proof.
  intros H. rewrite <- joined_nil. apply is_string_joined; [intros []|assumption].
Qed.

(** The string that a block filled from parts holds. *)
Lemma str_copy_then_read ps :
  Forall is_string ps ->
  (res <- str_copy_str_list (map Some ps) ;; l <- c_str res ;; Ret (Some l))
  = match ps with
    | [] => Undefined
    | _ :: _ => Ret (Some (concat ps))
    end.
Proof.
  intros Hps. rewrite str_copy_str_list_spec. cbn [bind].
  destruct ps as [|p r]; [reflexivity|].
  rewrite c_str_spec by now apply is_string_concat. reflexivity.
Qed.

Lemma str_list_join_loop_present ds self : forall acc,
  str_list_join_loop acc self (Some ds)
  = acc ++ map Some (pieces (size acc =? 0) ds (present_parts self)).
Proof.
  induction self as [|[t|] r IH]; intros acc;
    cbn [str_list_join_loop present_parts pieces map].
  - now rewrite app_nil_r.
  - cbn [is_null negb str_dup]. rewrite IH.
    assert (Hne : forall l : str_list_t, (size (l ++ [Some t]) =? 0) = false).
    { intros l. rewrite size_snoc. pose proof (size_nonneg l).
      apply Z.eqb_neq. lia. }
    rewrite Hne.
    destruct (size acc =? 0); cbn [negb app map];
      rewrite <- !app_assoc; reflexivity.
  - cbn [is_null negb]. apply IH.
Qed.

Lemma str_list_join_loop_no_delim self : forall acc,
  present_parts (str_list_join_loop acc self None)
  = present_parts acc ++ present_parts self.
Proof.
  induction self as [|[t|] r IH]; intros acc;
    cbn [str_list_join_loop present_parts].
  - now rewrite app_nil_r.
  - cbn [is_null negb str_dup]. rewrite IH.
    destruct (size acc =? 0); cbn [negb];
      rewrite !present_parts_app; cbn [present_parts];
      rewrite <- ?app_assoc, ?app_nil_r; reflexivity.
  - cbn [is_null negb]. apply IH.
Qed.

Lemma concat_pieces_all ds ps :
  concat (pieces true ds ps) = joined ds ps.
Proof.
  destruct ps as [|t r]; [reflexivity|apply concat_pieces].
Qed.

Lemma pieces_strings ds ps first :
  is_string ds -> Forall is_string ps -> Forall is_string (pieces first ds ps).
Proof.
  intros Hds Hps. revert first.
  induction Hps as [|p r Hp _ IH]; intros first; cbn [pieces]; [constructor|].
  destruct first; cbn [app]; repeat constructor; auto.
Qed.

(** What [str_list_join] returns, NULL elements and a NULL delimiter
    included. *)
Lemma str_list_join_general (self : str_list_t) (delim : str_t) :
  Forall is_str self -> is_str delim ->
  str_list_join self delim
  = match present_parts self with
    | [] => Undefined
    | _ :: _ => Ret (Some (joined (bytes_of delim) (present_parts self)))
    end.
Proof.
  intros Hself Hdelim. apply present_parts_strings in Hself.
  unfold str_list_join. destruct delim as [ds|]; cbn [bytes_of].
  - rewrite str_list_join_loop_present. cbn [app size length Z.of_nat Z.eqb].
    rewrite str_copy_then_read by now apply pieces_strings.
    destruct (present_parts self) as [|p r] eqn:E; [reflexivity|].
    rewrite concat_pieces. cbn [pieces app]. reflexivity.
  - rewrite str_copy_str_list_present, str_list_join_loop_no_delim.
    cbn [present_parts app].
    rewrite str_copy_then_read by assumption.
    destruct (present_parts self) as [|p r]; [reflexivity|].
    now rewrite joined_nil.
Qed.

(** X14: [str_list_join] leaves the NULL elements of the list out and puts
    the delimiter between the others; a NULL delimiter joins them with
    nothing in between.  With no element that is not NULL (the empty list
    among them) nothing is written to the block that is returned. *)
Theorem str_list_join_skips_absent (self : str_list_t) (delim : str_t) :
  Forall is_str self -> is_str delim ->
  str_list_join self delim
  = match present_parts self with
    | [] => Undefined
    | _ :: _ => Ret (Some (joined (bytes_of delim) (present_parts self)))
    end.
Proof. exact (str_list_join_general self delim). Qed.

Lemma str_list_join_skips_absent_witness :
  Forall is_str [None; a_key; None; c_key] /\ is_str (Some (lit ", "%string))
  /\ str_list_join [None; a_key; None; c_key] (Some (lit ", "%string))
     = Ret (Some (lit "a, c"%string)).
Proof.
  assert (H1 : Forall is_str [None; a_key; None; c_key]).
  { repeat constructor; unfold is_str, a_key, c_key, is_string; cbn;
      intuition discriminate. }
  assert (H2 : is_str (Some (lit ", "%string))).
  { unfold is_str, is_string. cbn. intuition discriminate. }
  split; [exact H1|]. split; [exact H2|].
  exact (str_list_join_skips_absent _ _ H1 H2).
Defined.

Lemma str_dup4_spec (str1 str2 str3 str4 : str_t) :
  is_str str1 -> is_str str2 -> is_str str3 -> is_str str4 ->
  str_dup4 str1 str2 str3 str4
  = if is_null str1 && is_null str2 && is_null str3 && is_null str4
    then Undefined
    else Ret (Some (bytes_of str1 ++ bytes_of str2 ++ bytes_of str3
                    ++ bytes_of str4)).
Proof.
  intros H1 H2 H3 H4.
  unfold str_dup4. rewrite str_copy_str_list_present.
  rewrite str_copy_then_read.
  - destruct str1, str2, str3, str4; cbn [present_parts is_null andb bytes_of concat app];
      rewrite ?app_nil_r; reflexivity.
  - apply present_parts_strings. repeat constructor; assumption.
Qed.

(** X15: [str_dup4] (and [str_dup3], [str_dup2] through it) returns its
    arguments that are not NULL one behind the other; with every argument
    NULL it returns a block that was never written. *)
Theorem str_dup4_concatenates (str1 str2 str3 str4 : str_t) :
  is_str str1 -> is_str str2 -> is_str str3 -> is_str str4 ->
  str_dup4 str1 str2 str3 str4
  = (if is_null str1 && is_null str2 && is_null str3 && is_null str4
     then Undefined
     else Ret (Some (bytes_of str1 ++ bytes_of str2 ++ bytes_of str3
                     ++ bytes_of str4)))
  /\ str_dup3 str1 str2 str3 = str_dup4 str1 str2 str3 None
  /\ str_dup2 str1 str2 = str_dup4 str1 str2 None None.
Proof.
  intros H1 H2 H3 H4. split; [|split; reflexivity].
  now apply str_dup4_spec.
Qed.

Lemma str_dup4_concatenates_witness :
  is_str a_key /\ is_str None /\ is_str c_key
  /\ str_dup4 a_key None c_key None = Ret (Some (lit "ac"%string))
  /\ str_dup2 None None = Undefined.
Proof.
  assert (Ha : is_str a_key).
  { unfold is_str, a_key, is_string. cbn. intuition discriminate. }
  assert (Hc : is_str c_key).
  { unfold is_str, c_key, is_string. cbn. intuition discriminate. }
  split; [exact Ha|]. split; [exact I|]. split; [exact Hc|]. split.
  - exact (proj1 (str_dup4_concatenates a_key None c_key None Ha I Hc I)).
  - exact (proj1 (str_dup4_concatenates None None None None I I I I)).
Defined.

(** ** Paths *)





(** ** Searching in strings *)

Lemma starts_with_prefix k : forall s,
  starts_with s k = true <-> exists rest, s = k ++ rest.
Proof.
  induction k as [|c k IH]; intros s.
  - destruct s; cbn; split; eauto.
  - destruct s as [|x s]; cbn [starts_with].
    + split; [discriminate|]. intros [rest H]. discriminate H.
    + rewrite andb_true_iff, IH. split.
      * intros [E [rest ->]]. apply Byte.byte_dec_bl in E. subst x. now exists rest.
      * intros [rest H]. injection H as -> ->. split; [apply eqb_refl|now exists rest].
Qed.

Lemma strstr_unfold s k :
  strstr s k
  = if starts_with s k then Some 0
    else match s with
         | [] => None
         | _ :: s' =>
             match strstr s' k with
             | Some i => Some (i + 1)
             | None => None
             end
         end.
Proof. destruct s; reflexivity. Qed.

Lemma strstr_found k : forall s i,
  strstr s k = Some i ->
  exists pre post, s = pre ++ k ++ post /\ size pre = i.
Proof.
  induction s as [|c s IH]; intros i H; rewrite strstr_unfold in H.
  - destruct (starts_with [] k) eqn:E; [|discriminate].
    injection H as <-. apply starts_with_prefix in E as [rest E].
    exists [], rest. now split.
  - destruct (starts_with (c :: s) k) eqn:E.
    + injection H as <-. apply starts_with_prefix in E as [rest E].
      exists [], rest. now split.
    + destruct (strstr s k) as [j|] eqn:Ej; [|discriminate].
      injection H as <-. destruct (IH j eq_refl) as (pre & post & -> & Hsz).
      exists (c :: pre), post. split; [reflexivity|].
      rewrite size_cons. lia.
Qed.

Lemma strstr_missing k : forall s,
  strstr s k = None -> forall pre post, s <> pre ++ k ++ post.
Proof.
  induction s as [|c s IH]; intros H pre post Hs; rewrite strstr_unfold in H.
  - destruct (starts_with [] k) eqn:E; [discriminate|].
    destruct pre; [|discriminate Hs]. cbn [app] in Hs.
    assert (starts_with [] k = true) by (apply starts_with_prefix; eauto).
    congruence.
  - destruct (starts_with (c :: s) k) eqn:E; [discriminate|].
    destruct pre as [|x pre].
    + assert (starts_with (c :: s) k = true) by (apply starts_with_prefix; eauto).
      congruence.
    + destruct (strstr s k) eqn:Ej; [discriminate|].
      injection Hs as _ Hs. exact (IH eq_refl pre post Hs).
Qed.

Lemma strstr_first k : forall s i,
  strstr s k = Some i -> (i = 0 <-> starts_with s k = true).
Proof.
  intros s i H. rewrite strstr_unfold in H.
  destruct (starts_with s k) eqn:E.
  - injection H as <-. tauto.
  - destruct s as [|c s]; [discriminate|].
    destruct (strstr s k) as [j|] eqn:Ej; [|discriminate].
    injection H as <-. destruct (strstr_found k s j Ej) as (pre & _ & _ & Hsz).
    pose proof (size_nonneg pre) as Hp. split; [lia|discriminate].
Qed.

Lemma strstr_earliest k : forall s i,
  strstr s k = Some i ->
  forall pre post, s = pre ++ k ++ post -> i <= size pre.
Proof.
  induction s as [|c s IH]; intros i H pre post Hs; rewrite strstr_unfold in H.
  - destruct (starts_with [] k); [|discriminate].
    injection H as <-. apply size_nonneg.
  - destruct (starts_with (c :: s) k) eqn:E.
    + injection H as <-. apply size_nonneg.
    + destruct (strstr s k) as [j|] eqn:Ej; [|discriminate].
      injection H as <-. destruct pre as [|x pre].
      * assert (starts_with (c :: s) k = true) by (apply starts_with_prefix; eauto).
        congruence.
      * injection Hs as _ Hs. rewrite size_cons.
        pose proof (IH j eq_refl pre post Hs). lia.
Qed.

(** X17: on strings, [str_startswith] holds exactly of the keys that are a
    prefix, [str_endswith] exactly of those that are a suffix, and
    [str_find] returns the offset of the first occurrence of the key, [-1]
    exactly when the key occurs nowhere, which is when [str_contains] says
    no. *)
Theorem prefix_suffix_and_find (s k : list byte) :
  is_string s -> is_string k ->
  (str_startswith (Some s) (Some k) = true <-> exists rest, s = k ++ rest)
  /\ (str_endswith (Some s) (Some k) = true <-> exists front, s = front ++ k)
  /\ (str_find (Some s) (Some k) = -1 <-> forall pre post, s <> pre ++ k ++ post)
  /\ (str_find (Some s) (Some k) <> -1 ->
      exists pre post,
        s = pre ++ k ++ post /\ str_find (Some s) (Some k) = size pre
        /\ forall pre' post', s = pre' ++ k ++ post' -> size pre <= size pre')
  /\ str_contains (Some s) (Some k)
     = Ret (negb (str_find (Some s) (Some k) =? -1)).
Proof.
  intros Hs Hk. split; [|split; [|split; [|split]]].
  - unfold str_startswith. destruct (strstr s k) as [i|] eqn:E.
    + rewrite <- starts_with_prefix, <- (strstr_first k s i E).
      apply Z.eqb_eq.
    + split; [discriminate|]. intros [rest H].
      exfalso. exact (strstr_missing k s E [] rest H).
  - unfold str_endswith. cbn [str_len]. fold (size s) (size k).
    destruct (Z.gtb_spec (size k) (size s)) as [Hgt|Hle].
    + split; [discriminate|]. intros [front H]. exfalso.
      rewrite H, size_app in Hgt. pose proof (size_nonneg front). lia.
    + rewrite Z.eqb_eq. split.
      * intros Hz. exists (firstn (Z.to_nat (size s - size k)) s).
        apply strcmp_eq in Hz; [|now apply is_string_skipn|assumption].
        rewrite <- Hz at 2. now rewrite firstn_skipn.
      * intros [front ->]. rewrite size_app.
        replace (Z.to_nat (size front + size k - size k)) with (length front)
          by (unfold size; lia).
        rewrite skipn_app, skipn_all, Nat.sub_diag. cbn [skipn app].
        apply strcmp_refl.
  - unfold str_find. destruct (strstr s k) as [i|] eqn:E.
    + destruct (strstr_found k s i E) as (pre & post & Heq & Hsz).
      pose proof (size_nonneg pre) as Hp. split; [lia|].
      intros Hno. exfalso. exact (Hno pre post Heq).
    + split; [intros _; now apply strstr_missing|reflexivity].
  - unfold str_find. destruct (strstr s k) as [i|] eqn:E; [|contradiction].
    intros _. destruct (strstr_found k s i E) as (pre & post & Heq & Hsz).
    exists pre, post. split; [assumption|]. split; [now symmetry|].
    intros pre' post' H'. rewrite Hsz. exact (strstr_earliest k s i E pre' post' H').
  - unfold str_contains, str_find. destruct (strstr s k) as [i|] eqn:E; [|reflexivity].
    destruct (strstr_found k s i E) as (pre & _ & _ & Hsz).
    pose proof (size_nonneg pre) as Hp.
    destruct (Z.eqb_spec i (-1)); [lia|reflexivity].
Qed.

Lemma prefix_suffix_and_find_witness :
  is_string (lit "sshd.service"%string) /\ is_string (lit ".service"%string)
  /\ str_endswith (Some (lit "sshd.service"%string)) (Some (lit ".service"%string))
     = true.
Proof.
  assert (H1 : is_string (lit "sshd.service"%string)).
  { unfold is_string. cbn. intuition discriminate. }
  assert (H2 : is_string (lit ".service"%string)).
  { unfold is_string. cbn. intuition discriminate. }
  split; [exact H1|]. split; [exact H2|].
  apply (proj1 (proj2 (prefix_suffix_and_find _ _ H1 H2))).
  exists (lit "sshd"%string). reflexivity.
Defined.

(** ** Appending *)

Lemma str_add_strings s v :
  is_string s -> is_string v ->
  str_add (Some s) (Some v) = Ret (Some (s ++ v)).
Proof.
  intros Hs Hv. unfold str_add. cbn [str_len]. fold (size s) (size v).
  pose proof (size_nonneg s). pose proof (size_nonneg v).
  assert (Hre : realloc (map Some (block s)) (size s + size v + 1)
                = map Some s ++ Some x00 :: repeat None (length v)).
  { unfold realloc, block.
    rewrite firstn_all2
      by (rewrite length_map, length_app; cbn [length]; unfold size; lia).
    rewrite length_map, length_app. cbn [length]. rewrite map_app. cbn [map].
    rewrite <- app_assoc. cbn [app]. do 3 f_equal. unfold size. lia. }
  rewrite Hre. unfold memcpy.
  rewrite size_block, size_app, size_map, size_cons, size_repeat.
  destruct (Z.leb_spec 0 (size s)); [|lia].
  destruct (Z.leb_spec 0 0); [|lia].
  destruct (Z.leb_spec 0 (size v + 1)); [|lia].
  destruct (Z.leb_spec (0 + (size v + 1)) (size v + 1)); [|lia].
  destruct (Z.leb_spec (size s + (size v + 1))
              (size s + (1 + Z.of_nat (length v)))); [|unfold size in *; lia].
  cbn [andb bind skipn Z.to_nat].
  assert (Hw : length (map Some s) = Z.to_nat (size s)).
  { rewrite length_map. unfold size. lia. }
  rewrite firstn_app, <- Hw, firstn_all, Nat.sub_diag. cbn [firstn].
  rewrite app_nil_r.
  rewrite (firstn_all2 (block v))
    by (unfold block, size; rewrite length_app; cbn [length]; lia).
  rewrite skipn_all2
    by (rewrite length_app, length_map; cbn [length]; rewrite repeat_length;
        unfold size; lia).
  rewrite app_nil_r. unfold block. rewrite map_app, app_assoc, <- map_app.
  cbn [map]. rewrite c_str_spec; [reflexivity|].
  apply is_string_app. now split.
Qed.

(** X18: [str_add] and [str_adds] append the value to the string: the
    result holds the bytes of both, one behind the other; a NULL value
    leaves the string as it is, and a NULL string becomes the value. *)
Theorem str_add_appends (self value : str_t) :
  is_str self -> is_str value ->
  str_add self value
  = Ret (match self, value with
         | _, None => self
         | None, Some _ => value
         | Some s, Some v => Some (s ++ v)
         end)
  /\ str_adds self value = str_add self value.
Proof.
  intros Hs Hv. split.
  - destruct self as [s|], value as [v|]; try reflexivity.
    now apply str_add_strings.
  - destruct self as [s|], value as [v|]; reflexivity.
Qed.

Lemma str_add_appends_witness :
  is_str a_key /\ is_str c_key
  /\ str_add a_key c_key = Ret (Some (lit "ac"%string)).
Proof.
  assert (Ha : is_str a_key).
  { unfold is_str, a_key, is_string. cbn. intuition discriminate. }
  assert (Hc : is_str c_key).
  { unfold is_str, c_key, is_string. cbn. intuition discriminate. }
  split; [exact Ha|]. split; [exact Hc|].
  exact (proj1 (str_add_appends a_key c_key Ha Hc)).
Defined.

(** ** Join and split *)

Lemma fields_app_delim d p rest :
  ~ In d p -> fields d (p ++ d :: rest) = p :: fields d rest.
Proof.
  induction p as [|c p IH]; intros Hn; cbn [app fields].
  - now rewrite eqb_refl.
  - rewrite eqb_neq by (intros ->; apply Hn; now left).
    rewrite IH by (intros H; apply Hn; now right). reflexivity.
Qed.

Lemma fields_joined d p : forall r,
  Forall (fun q => ~ In d q) (p :: r) ->
  fields d (joined [d] (p :: r)) = p :: r.
Proof.
  intros r. revert p. induction r as [|q r IH]; intros p H.
  - cbn [joined]. apply fields_no_delim. now inversion H.
  - inversion H as [|? ? Hp Hr]; subst.
    change (joined [d] (p :: q :: r)) with (p ++ d :: joined [d] (q :: r)).
    rewrite fields_app_delim by assumption. now rewrite IH.
Qed.

(** X19: joining a list with a one-byte delimiter and splitting the result
    at that byte gives back the elements of the list that are neither NULL
    nor empty, when no element holds the delimiter. *)
Theorem join_then_split (self : str_list_t) (d : byte) :
  d <> x00 -> present_parts self <> [] -> Forall is_str self ->
  Forall (fun p => ~ In d p) (present_parts self) ->
  (s <- str_list_join self (Some [d]) ;; str_split s d)
  = Ret (map Some (filter (fun p => negb (is_empty p)) (present_parts self))).
Proof.
  intros Hd Hne Hself Hfree.
  assert (Hds : is_string [d]).
  { intros [H|[]]. now apply Hd. }
  rewrite (str_list_join_general self (Some [d]) Hself Hds).
  apply present_parts_strings in Hself.
  destruct (present_parts self) as [|p r] eqn:E; [contradiction|].
  cbn [bind bytes_of].
  rewrite str_split_tokens by now apply is_string_joined.
  unfold tokens. now rewrite fields_joined.
Qed.

Lemma join_then_split_witness :
  slash <> x00
  /\ present_parts [a_key; None; Some []; c_key] <> []
  /\ Forall is_str [a_key; None; Some []; c_key]
  /\ Forall (fun p => ~ In slash p) (present_parts [a_key; None; Some []; c_key])
  /\ (s <- str_list_join [a_key; None; Some []; c_key] (Some [slash]) ;;
      str_split s slash)
     = Ret [a_key; c_key].
Proof.
  assert (H1 : slash <> x00) by discriminate.
  assert (H2 : present_parts [a_key; None; Some []; c_key] <> []) by discriminate.
  assert (H3 : Forall is_str [a_key; None; Some []; c_key]).
  { repeat constructor; unfold is_str, a_key, c_key, is_string; cbn;
      intuition discriminate. }
  assert (H4 : Forall (fun p => ~ In slash p)
                 (present_parts [a_key; None; Some []; c_key])).
  { repeat constructor; cbn; intuition discriminate. }
  split; [exact H1|]. split; [exact H2|]. split; [exact H3|]. split; [exact H4|].
  exact (join_then_split _ slash H1 H2 H3 H4).
Defined.

(** ** One value at a time *)

(** X20: in a list dictionary whose keys are ascending, [str_list_dict_add1]
    and [str_list_dict_adds1] with a key that is not NULL put the value
    behind the values that the key has, or start the list of a key that is
    new; the value may be NULL.  The keys stay ascending and the list of
    every other key is as before. *)
Theorem add1_appends (self : str_list_dict_t) (s : list byte) (v : str_t) :
  ascending self ->
  exists self',
    str_list_dict_add1 self (Some s) v = Ret self'
    /\ str_list_dict_adds1 self (Some s) v = Ret self'
    /\ ascending self'
    /\ str_list_dict_get self' (Some s)
       = Some (match str_list_dict_get self (Some s) with
               | Some old => old ++ [v]
               | None => [v]
               end)
    /\ forall k',
        str_cmp k' (Some s) <> 0 ->
        str_list_dict_get self' k' = str_list_dict_get self k'.
Proof.
  intros Hs. destruct (lists_step self (Some s) [v] Hs) as (self' & Hr & Ha & Hget).
  exists self'. unfold str_list_dict_add1, str_list_dict_adds1, str_list_dict_add,
    str_list_dict_get. cbn [str_list_dup map]. rewrite str_dup_id.
  split; [exact Hr|]. split; [exact Hr|]. split; [exact Ha|]. split.
  - rewrite Hget. cbn [is_null negb andb]. now rewrite str_cmp_refl.
  - intros k' Hne. rewrite Hget. cbn [is_null negb andb].
    destruct (Z.eqb_spec (str_cmp (Some s) k') 0) as [Hz|_]; [|reflexivity].
    exfalso. apply Hne. rewrite str_cmp_antisym. lia.
Qed.

Lemma add1_appends_witness :
  ascending sample_list_dict
  /\ exists self',
      str_list_dict_add1 sample_list_dict a_key None = Ret self'
      /\ str_list_dict_adds1 sample_list_dict a_key None = Ret self'
      /\ ascending self'
      /\ str_list_dict_get self' a_key
         = Some (match str_list_dict_get sample_list_dict a_key with
                 | Some old => old ++ [None]
                 | None => [None]
                 end)
      /\ forall k',
          str_cmp k' a_key <> 0 ->
          str_list_dict_get self' k' = str_list_dict_get sample_list_dict k'.
Proof.
  assert (H : ascending sample_list_dict).
  { unfold ascending, sample_list_dict. cbn.
    repeat constructor. }
  split; [exact H|]. exact (add1_appends sample_list_dict _ None H).
Defined.

(** ** Three strings *)

(** X21: [str_list3_contains] answers yes as soon as one of its three
    strings differs from the key, so it answers no only when all three
    compare equal to the key: with three strings that all differ from the
    key it says yes where [str_list_contains] on the same three says no,
    and with three strings equal to the key it says no where
    [str_list_contains] says yes. *)
Theorem str_list3_contains_inverted (str1 str2 str3 key : str_t) :
  (str_list3_contains str1 str2 str3 key = false
   <-> str_cmp str1 key = 0 /\ str_cmp str2 key = 0 /\ str_cmp str3 key = 0)
  /\ (str_cmp str1 key <> 0 -> str_cmp str2 key <> 0 -> str_cmp str3 key <> 0 ->
      str_list3_contains str1 str2 str3 key = true
      /\ str_list_contains [str1; str2; str3] key = false)
  /\ (str_list3_contains str1 str2 str3 key = false ->
      str_list_contains [str1; str2; str3] key = true).
Proof.
  unfold str_list3_contains, str_list_contains, str_list_find.
  cbn [str_list_find_from].
  destruct (Z.eqb_spec (str_cmp str1 key) 0) as [H1|H1];
    destruct (Z.eqb_spec (str_cmp str2 key) 0) as [H2|H2];
    destruct (Z.eqb_spec (str_cmp str3 key) 0) as [H3|H3];
    cbn [negb]; repeat split; try tauto; try discriminate; try reflexivity;
    intros; try tauto; try discriminate.
Qed.

(** ** Two strings and a delimiter *)

(** X22: [str_join2] returns the first string when the second is NULL, and
    otherwise the first string, the delimiter and the second string one
    behind the other, NULL counting as empty: a NULL first string leaves
    the delimiter in front, where [str_list_join] of the two puts none.
    With both strings there the two functions agree. *)
Theorem str_join2_delimiter (self from delim : str_t) :
  is_str self -> is_str from -> is_str delim ->
  (from = None -> str_join2 self from delim = Ret self)
  /\ (forall f, from = Some f ->
        str_join2 self from delim
        = Ret (Some (bytes_of self ++ bytes_of delim ++ f))
        /\ str_list_join [self; from] delim
           = Ret (Some (match self with
                        | Some s => s ++ bytes_of delim ++ f
                        | None => f
                        end))).
Proof.
  intros Hs Hf Hd. split.
  - intros ->. unfold str_join2. cbn [is_null]. now rewrite str_dup_id.
  - intros f ->. split.
    + unfold str_join2, str_dup3. cbn [is_null].
      rewrite str_dup4_spec by (try assumption; exact I).
      cbn [is_null andb bytes_of]. rewrite !andb_false_r, app_nil_r. reflexivity.
    + rewrite str_list_join_general by (try assumption; repeat constructor; assumption).
      destruct self as [s|]; reflexivity.
Qed.

Lemma str_join2_delimiter_witness :
  is_str None /\ is_str c_key /\ is_str a_key
  /\ str_join2 None c_key a_key = Ret (Some (lit "ac"%string))
  /\ str_list_join [None; c_key] a_key = Ret c_key.
Proof.
  assert (Ha : is_str a_key).
  { unfold is_str, a_key, is_string. cbn. intuition discriminate. }
  assert (Hc : is_str c_key).
  { unfold is_str, c_key, is_string. cbn. intuition discriminate. }
  split; [exact I|]. split; [exact Hc|]. split; [exact Ha|].
  exact (proj2 (str_join2_delimiter None c_key a_key I Hc Ha) _ eq_refl).
Defined.

(** ** The tokens of a split *)

Lemma concat_fields d s :
  concat (fields d s) = filter (fun c => negb (Byte.eqb c d)) s.
Proof.
  induction s as [|c r IH]; cbn [fields filter]; [reflexivity|].
  pose proof (fields_not_nil d r) as Hne.
  destruct (Byte.eqb c d); cbn [negb concat app]; [exact IH|].
  destruct (fields d r) as [|f fs]; [contradiction|].
  cbn [concat app] in *. now rewrite IH.
Qed.

Lemma concat_not_empty (fs : list (list byte)) :
  concat (filter (fun f => negb (is_empty f)) fs) = concat fs.
Proof.
  induction fs as [|f fs IH]; cbn [filter concat]; [reflexivity|].
  destruct f as [|c f]; cbn [is_empty negb concat app]; now rewrite IH.
Qed.

(** X23: [str_split] of a string returns tokens that are strings, none
    NULL, none empty and none holding the delimiter; their bytes, in the
    order of the tokens, are the bytes of the string other than the
    delimiter.  So a string made of delimiters only, the empty string
    among them, gives the empty list. *)
Theorem str_split_tokens_cover (text : list byte) (d : byte) :
  is_string text ->
  exists toks,
    str_split (Some text) d = Ret (map Some toks)
    /\ Forall (fun t => t <> [] /\ ~ In d t /\ is_string t) toks
    /\ concat toks = filter (fun c => negb (Byte.eqb c d)) text
    /\ (toks = [] <-> Forall (fun c => c = d) text).
Proof.
  intros Ht. exists (tokens d text).
  split; [now apply str_split_tokens|].
  assert (Hcat : concat (tokens d text)
                 = filter (fun c => negb (Byte.eqb c d)) text).
  { unfold tokens. now rewrite concat_not_empty, concat_fields. }
  assert (Hall : Forall (fun t => t <> [] /\ ~ In d t /\ is_string t) (tokens d text)).
  { pose proof (tokens_bytes d text) as Hb.
    pose proof (tokens_is_string d text Ht) as Hs.
    rewrite Forall_forall in *. intros t Hin.
    destruct (Hb t Hin) as (H1 & H2 & _). auto. }
  split; [exact Hall|]. split; [exact Hcat|]. split.
  - intros Hnil. rewrite Hnil in Hcat. cbn [concat] in Hcat.
    apply Forall_forall. intros c Hin.
    destruct (Byte.eqb c d) eqn:E; [now apply Byte.byte_dec_bl|].
    assert (Hc : In c (filter (fun c => negb (Byte.eqb c d)) text)).
    { apply filter_In. split; [assumption|]. now rewrite E. }
    rewrite <- Hcat in Hc. destruct Hc.
  - intros Hd. destruct (tokens d text) as [|t r] eqn:E; [reflexivity|].
    exfalso. inversion Hall as [|? ? (Hne & _ & _) _]; subst.
    destruct t as [|c t]; [contradiction|].
    assert (Hc : In c (filter (fun c => negb (Byte.eqb c d)) text)).
    { rewrite <- Hcat. cbn [concat app]. now left. }
    apply filter_In in Hc as [Hin Hneq].
    rewrite Forall_forall in Hd. rewrite (Hd c Hin), eqb_refl in Hneq.
    discriminate Hneq.
Qed.

Lemma str_split_tokens_cover_witness :
  is_string (lit "a,,b,"%string)
  /\ exists toks,
      str_split (Some (lit "a,,b,"%string)) comma = Ret (map Some toks)
      /\ Forall (fun t => t <> [] /\ ~ In comma t /\ is_string t) toks
      /\ concat toks
         = filter (fun c => negb (Byte.eqb c comma)) (lit "a,,b,"%string)
      /\ (toks = [] <-> Forall (fun c => c = comma) (lit "a,,b,"%string)).
Proof.
  assert (H : is_string (lit "a,,b,"%string)).
  { unfold is_string. cbn. intuition discriminate. }
  split; [exact H|]. exact (str_split_tokens_cover _ comma H).
Defined.
